(** * EMgaussian: one EM cycle for a Gaussian with missing data,
      precision parameterization ([src/rcpp_EMprec.cpp])

    The four exported C++ functions ([imp1matprec], [imp2matprec],
    [EMcycleprec], [nllprec]) are embedded in a small state-and-error monad
    over a store of dense matrices.  Scalars ([double]) are an interface
    ([scalar]); the dense linear algebra the source calls but does not
    define ([inv], [det], [log], [datum::pi]) is an interface too
    ([numerics]).  Index views ([submat], [elem], [row]), products, sums and
    in-place block updates are defined here, with the bounds and size
    checks that raise C++ exceptions in the library's default configuration
    (the checks are compiled in unless [ARMA_NO_DEBUG] is defined, and the
    source does not define it). *)

From Stdlib Require Import ZArith QArith Qcanon Floats Lia.
From stdpp Require Import base list numbers.

(** ** Exceptions and results *)

(** The exceptions the matrix library raises: an index outside a matrix
    ([std::out_of_range]), incompatible sizes ([std::logic_error]), a failed
    inversion or determinant ([std::runtime_error]).  [invalid_pointer]
    stands for the use of a handle that designates no matrix. *)
Inductive exn := out_of_range | logic_error | runtime_error | invalid_pointer.

Inductive result (A : Type) := Ok (a : A) | Err (e : exn).
Arguments Ok {A} a.
Arguments Err {A} e.

Global Instance result_ret : MRet result := λ A a, Ok a.
Global Instance result_bind : MBind result :=
  λ A B k r, match r with Ok a => k a | Err e => Err e end.

Global Instance result_fmap : FMap result :=
  λ A B f r, match r with Ok a => Ok (f a) | Err e => Err e end.

Definition is_Ok {A} (r : result A) : bool :=
  match r with Ok _ => true | Err _ => false end.

Definition of_option {A} (e : exn) (o : option A) : result A :=
  match o with Some a => Ok a | None => Err e end.

(** ** Scalars *)

(** The operations the source applies to [double] values.  [s_of_nat] is
    the conversion of a count ([int N], [uword io.size()], the literals
    [1] and [2]) to [double]; [s_half] is the literal [0.5];
    [arma_isfinite] is the test [find_finite] and [find_nonfinite] apply
    to every element. *)
Record scalar := Scalar {
  carrier :> Type;
  s_zero : carrier;
  s_add : carrier → carrier → carrier;
  s_sub : carrier → carrier → carrier;
  s_mul : carrier → carrier → carrier;
  s_div : carrier → carrier → carrier;
  s_half : carrier;
  s_of_nat : nat → carrier;
  arma_isfinite : carrier → bool
}.
Arguments s_zero {_}.
Arguments s_add {_}.
Arguments s_sub {_}.
Arguments s_mul {_}.
Arguments s_div {_}.
Arguments s_half {_}.
Arguments s_of_nat {_}.
Arguments arma_isfinite {_}.

(** ** Dense matrices *)

Section Dense.
Context {F : scalar}.

(** [arma::mat]: the two dimensions and the elements, kept by rows.  A
    column vector ([arma::colvec]) is a matrix with one column. *)
Record mat := Mat { n_rows : nat; n_cols : nat; mem : list (list F) }.

Definition wf (A : mat) : Prop :=
  length (mem A) = n_rows A ∧ Forall (λ r, length r = n_cols A) (mem A).

(** Checked and unchecked element access. *)
Definition at_ (A : mat) (r c : nat) : option F := mem A !! r ≫= (.!! c).
Definition entry (A : mat) (r c : nat) : F := default s_zero (at_ A r c).

(** The matrix of size [n] by [m] whose element [(r, c)] is [f r c]. *)
Definition mk (n m : nat) (f : nat → nat → F) : mat :=
  Mat n m (map (λ r, map (f r) (seq 0 m)) (seq 0 n)).

(** [A.row(i)]. *)
Definition row (A : mat) (i : nat) : result (list F) :=
  of_option out_of_range (mem A !! i).

(** [find_finite] and [find_nonfinite] over the elements of a row view:
    the ascending positions at which the test holds. *)
Fixpoint find_from (p : F → bool) (j : nat) (x : list F) : list nat :=
  match x with
  | [] => []
  | v :: x' => if p v then j :: find_from p (S j) x'
               else find_from p (S j) x'
  end.

Definition find_finite (x : list F) : list nat := find_from arma_isfinite 0 x.
Definition find_nonfinite (x : list F) : list nat :=
  find_from (λ v, negb (arma_isfinite v)) 0 x.

(** The bounds check of a view [A.submat(ri, ci)]: the library walks the
    column indices and, inside, the row indices, so a row index is only
    looked at when there is a column. *)
Definition in_bounds (A : mat) (ri ci : list nat) : bool :=
  forallb (λ c, c <? n_cols A) ci &&
  match ci with [] => true | _ => forallb (λ r, r <? n_rows A) ri end.

(** [A.submat(ri, ci)] read as a value. *)
Definition submat (A : mat) (ri ci : list nat) : result mat :=
  if in_bounds A ri ci
  then Ok (mk (length ri) (length ci) (λ a b, entry A (ri !!! a) (ci !!! b)))
  else Err out_of_range.

(** Element [k] in the column-major order of the library's storage. *)
Definition lin (A : mat) (k : nat) : F :=
  entry A (k `mod` n_rows A) (k `div` n_rows A).

(** [A(idx)] ([Mat::elem]): the listed elements as a column vector. *)
Definition elem (A : mat) (idx : list nat) : result mat :=
  if forallb (λ k, k <? n_rows A * n_cols A) idx
  then Ok (mk (length idx) 1 (λ a _, lin A (idx !!! a)))
  else Err out_of_range.

(** [A.t()]. *)
Definition t (A : mat) : mat := mk (n_cols A) (n_rows A) (λ r c, entry A c r).

(** Element-wise [A + B] and [A - B], with the size check. *)
Definition mzip (op : F → F → F) (A B : mat) : result mat :=
  if (n_rows A =? n_rows B) && (n_cols A =? n_cols B)
  then Ok (mk (n_rows A) (n_cols A) (λ r c, op (entry A r c) (entry B r c)))
  else Err logic_error.
Definition madd := mzip s_add.
Definition msub := mzip s_sub.

(** A scalar applied to every element: [A / k], [k + A], [A + k], [k * A]. *)
Definition mmap (f : F → F) (A : mat) : mat :=
  mk (n_rows A) (n_cols A) (λ r c, f (entry A r c)).

(** Sum of the products along a row of [A] and a column of [B], from [0]. *)
Definition dot (A : mat) (r : nat) (B : mat) (c : nat) : F :=
  foldl (λ acc k, s_add acc (s_mul (entry A r k) (entry B k c))) s_zero
        (seq 0 (n_cols A)).

(** [A * B], with the size check. *)
Definition mmul (A B : mat) : result mat :=
  if n_cols A =? n_rows B
  then Ok (mk (n_rows A) (n_cols B) (λ r c, dot A r B c))
  else Err logic_error.

(** [arma::ones<vec>(N)]. *)
Definition ones (N : nat) : mat := mk N 1 (λ _ _, s_of_nat 1).

(** In-place update of the block [A.submat(ri, ci)] from [X]
    ([operator=] with [op old new = new], [operator+=] with [s_add]):
    after the size check the library walks the columns of the block and,
    inside, its rows, and updates one element of [A] at a time.  An index
    out of range raises in the middle of the walk; no value of [A] is given
    for that case. *)
Definition upd_at (m : list (list F)) (r c : nat) (f : F → F) : list (list F) :=
  alter (alter f c) r m.

Fixpoint put_col (op : F → F → F) (m : list (list F)) (c : nat)
    (ri : list nat) (xs : list F) : list (list F) :=
  match ri, xs with
  | r :: ri', x :: xs' => put_col op (upd_at m r c (λ v, op v x)) c ri' xs'
  | _, _ => m
  end.

Fixpoint put_cols (op : F → F → F) (m : list (list F)) (ri ci : list nat)
    (cols : list (list F)) : list (list F) :=
  match ci, cols with
  | c :: ci', xs :: cols' => put_cols op (put_col op m c ri xs) ri ci' cols'
  | _, _ => m
  end.

Definition inplace_op (op : F → F → F) (A : mat) (ri ci : list nat) (X : mat)
    : result mat :=
  if (n_rows X =? length ri) && (n_cols X =? length ci) then
    if in_bounds A ri ci
    then Ok (Mat (n_rows A) (n_cols A) (put_cols op (mem A) ri ci (mem (t X))))
    else Err out_of_range
  else Err logic_error.

Definition set_submat := inplace_op (λ _ new, new).
Definition add_submat := inplace_op s_add.

End Dense.
Arguments mat F : clear implicits.

(** ** The numerical routines the source calls *)

(** [inv] and [det] of the matrix library, [std::log] and the constant
    [arma::datum::pi].  [la_inv] and [la_det] give [None] where the library
    raises its runtime error (a matrix it finds singular). *)
Record numerics (F : scalar) := Numerics {
  la_inv : mat F → option (mat F);
  la_det : mat F → option F;
  m_log : F → F;
  datum_pi : F
}.
Arguments la_inv {_} _ _.
Arguments la_det {_} _ _.
Arguments m_log {_} _ _.
Arguments datum_pi {_} _.

(** ** The store and the monad of the embedded functions *)

(** A handle ([Rcpp::NumericMatrix], [arma::mat&], a local [arma::mat])
    designates a cell of the store; allocation appends a cell. *)
Abbreviation loc := nat.
Abbreviation heap F := (list (mat F)).

Section Store.
Context {F : scalar}.

Definition M (A : Type) : Type := heap F → heap F * result A.

Global Instance M_ret : MRet M := λ A a h, (h, Ok a).
Global Instance M_bind : MBind M :=
  λ A B k m h, match m h with
               | (h', Ok a) => k a h'
               | (h', Err e) => (h', Err e)
               end.

Definition run {A} (m : M A) (h : heap F) : heap F * result A := m h.

Definition load (l : loc) : M (mat F) :=
  λ h, (h, of_option invalid_pointer (h !! l)).

Definition store (l : loc) (v : mat F) : M unit :=
  λ h, if decide (l < length h) then (<[l := v]> h, Ok ())
       else (h, Err invalid_pointer).

Definition alloc (v : mat F) : M loc := λ h, (h ++ [v], Ok (length h)).

Definition lift {A} (r : result A) : M A := λ h, (h, r).

(** [for (int i = i0; i < i0 + n; i++) acc = body(i, acc)]. *)
Fixpoint for_fold {A} (i n : nat) (body : nat → A → M A) (acc : A) : M A :=
  match n with
  | 0 => mret acc
  | S n' => acc' ← body i acc; for_fold (S i) n' body acc'
  end.

Definition for_loop (i n : nat) (body : nat → M unit) : M unit :=
  for_fold i n (λ j _, body j) ().

(** [arma::mat d(aux_mem, n_rows, n_cols, copy_aux_mem)]: with
    [copy_aux_mem] the elements are copied into a new matrix, without it
    the new object uses the given memory. *)
Definition Mat_aux_mem (src : loc) (copy_aux_mem : bool) : M loc :=
  if copy_aux_mem then v ← load src; alloc v else mret src.

End Store.
Arguments M F A : clear implicits.

(** ** The source functions *)

Section Source.
Context {F : scalar} (L : numerics F).

(** [inv(A)] and [det(A)]: the square check, then the library routine. *)
Definition inv (A : mat F) : result (mat F) :=
  if n_rows A =? n_cols A then of_option runtime_error (la_inv L A)
  else Err logic_error.

Definition det (A : mat F) : result F :=
  if n_rows A =? n_cols A then of_option runtime_error (la_det L A)
  else Err logic_error.

(** Line 35, right-hand side:
    [(muest(im) - inv(kest.submat(im,im)) * kest.submat(im,io)
       * (d.submat(idx,io).t() - muest(io))).t()].
    The products are taken as the expression is written, from the left;
    how the library schedules them (it may solve a linear system instead
    of forming the inverse) is below this model, as rounding is. *)
Definition imp1_rhs (d muest kest : mat F) (idx io im : list nat)
    : result (mat F) :=
  mu_m ← elem muest im;
  k_mm ← submat kest im im;
  k_mm_inv ← inv k_mm;
  k_mo ← submat kest im io;
  p ← mmul k_mm_inv k_mo;
  x_o ← submat d idx io;
  mu_o ← elem muest io;
  dev ← msub (t x_o) mu_o;
  q ← mmul p dev;
  r ← msub mu_m q;
  Ok (t r).

(** Lines 31-35: the value of [d] after the body of the loop at [i]. *)
Definition imp1_body (muest kest : mat F) (i : nat) (d : mat F)
    : result (mat F) :=
  x ← row d i;
  let io := find_finite x in
  let im := find_nonfinite x in
  let idx := [i] in
  rhs ← imp1_rhs d muest kest idx io im;
  set_submat d idx im rhs.

(** One pass of the loop of [imp1matprec]: the objects are read, the
    body is evaluated, [d] is written. *)
Definition imp1_pass (d muest kest : loc) (i : nat) : M F unit :=
  vd ← load d;
  vmu ← load muest;
  vk ← load kest;
  vd' ← lift (imp1_body vmu vk i vd);
  store d vd'.

(** [arma::mat imp1matprec(Rcpp::NumericMatrix D, const arma::colvec& muest,
    const arma::mat& kest)]. *)
Definition imp1matprec (D muest kest : loc) : M F loc :=
  d ← Mat_aux_mem D true;
  vd ← load d;
  let N := n_rows vd in
  for_loop 0 N (imp1_pass d muest kest);;
  mret d.

(** Lines 50-51: the value of [t2] after the body of the loop at [i]. *)
Definition imp2_body (kest : mat F) (i : nat) (d t2 : mat F)
    : result (mat F) :=
  x ← row d i;
  let im := find_nonfinite x in
  k_mm ← submat kest im im;
  k_mm_inv ← inv k_mm;
  add_submat t2 im im k_mm_inv.

(** One pass of the loop of [imp2matprec]; it writes [t2]. *)
Definition imp2_pass (d kest t2 : loc) (i : nat) : M F unit :=
  vd ← load d;
  vk ← load kest;
  vt2 ← load t2;
  vt2' ← lift (imp2_body vk i vd vt2);
  store t2 vt2'.

(** [void imp2matprec(Rcpp::NumericMatrix D, const arma::mat& kest,
    arma::mat& t2)]. *)
Definition imp2matprec (D kest t2 : loc) : M F unit :=
  d ← Mat_aux_mem D true;
  vd ← load d;
  let N := n_rows vd in
  for_loop 0 N (imp2_pass d kest t2).

(** The list [out] of [EMcycleprec], with its fields ["mu"], ["S"], ["K"]. *)
Record em_out := EmOut { out_mu : loc; out_S : loc; out_K : loc }.

Definition div_by (N : nat) (A : mat F) : mat F :=
  mmap (λ x, s_div x (s_of_nat N)) A.

(** [Rcpp::List EMcycleprec(const Rcpp::NumericMatrix& D,
    const arma::colvec& muest, const arma::mat& kest)]. *)
Definition EMcycleprec (D muest kest : loc) : M F em_out :=
  dimp ← imp1matprec D muest kest;
  vdimp ← load dimp;
  let N := n_rows vdimp in
  ones ← alloc (ones N);
  t1 ← (vdimp ← load dimp; vones ← load ones;
        r ← lift (mmul (t vdimp) vones); alloc r);
  t2 ← (vdimp ← load dimp; r ← lift (mmul (t vdimp) vdimp); alloc r);
  imp2matprec D kest t2;;
  newmu ← (vt1 ← load t1; alloc (div_by N vt1));
  newS ← (vt2 ← load t2; vmu ← load newmu;
          r ← lift (o ← mmul vmu (t vmu); msub (div_by N vt2) o); alloc r);
  newK ← (vS ← load newS; r ← lift (inv vS); alloc r);
  mret (EmOut newmu newS newK).

(** Line 105: the term added to [nll] at row [i].  The difference
    [d.submat(idx,io).t() - muest(io)] is written twice in the source; it
    is one value. *)
Definition nll_term (d muest kinv : mat F) (i : nat) : result F :=
  x ← row d i;
  let io := find_finite x in
  let idx := [i] in
  s_oo ← submat kinv io io;
  dt ← det s_oo;
  x_o ← submat d idx io;
  mu_o ← elem muest io;
  dev ← msub (t x_o) mu_o;
  s_oo_inv ← inv s_oo;
  p ← mmul (t dev) s_oo_inv;
  q ← mmul p dev;
  let c := s_mul (s_of_nat (length io))
                 (m_log L (s_mul (s_of_nat 2) (datum_pi L))) in
  let e := mmap (s_mul s_half)
             (mmap (λ v, s_add v c) (mmap (s_add (m_log L dt)) q)) in
  of_option out_of_range (at_ e 0 0).

(** One pass of the loop of [nllprec]: [nll += term]. *)
Definition nll_pass (d muest kinv : loc) (i : nat) (nll : F) : M F F :=
  vd ← load d;
  vmu ← load muest;
  vkinv ← load kinv;
  term ← lift (nll_term vd vmu vkinv i);
  mret (s_add nll term).

(** [double nllprec(const arma::mat d, const arma::colvec muest,
    const arma::mat kest)]: the three arguments are passed by value. *)
Definition nllprec (D muest kest : loc) : M F F :=
  d ← Mat_aux_mem D true;
  muest ← Mat_aux_mem muest true;
  kest ← Mat_aux_mem kest true;
  vd ← load d;
  let N := n_rows vd in
  kinv ← (vk ← load kest; r ← lift (inv vk); alloc r);
  for_fold 0 N (nll_pass d muest kinv) s_zero.

End Source.

(** ** What the specification says, row by row *)

Section Spec.
Context {F : scalar} (L : numerics F).

Definition observed (x : list F) : list nat := find_finite x.
Definition missing (x : list F) : list nat := find_nonfinite x.

(** A list of values as a column vector, and back. *)
Definition colvec (x : list F) : mat F :=
  mk (length x) 1 (λ a _, nth a x s_zero).
Definition col_entries (v : mat F) : list F :=
  map (λ a, entry v a 0) (seq 0 (n_rows v)).
Definition rowvec (x : list F) : mat F :=
  mk 1 (length x) (λ _ b, nth b x s_zero).

(** The values of [x] at the positions [idx]. *)
Definition pick (x : list F) (idx : list nat) : list F :=
  map (λ j, nth j x s_zero) idx.

(** [x̂_m = μ_m − K_mm⁻¹ · K_mo · (x_o − μ_o)]. *)
Definition cond_mean (mu K : mat F) (x : list F) : result (list F) :=
  let o := observed x in
  let m := missing x in
  mu_m ← elem mu m;
  K_mm ← submat K m m;
  K_mm_inv ← inv L K_mm;
  K_mo ← submat K m o;
  p ← mmul K_mm_inv K_mo;
  mu_o ← elem mu o;
  dev ← msub (colvec (pick x o)) mu_o;
  q ← mmul p dev;
  r ← msub mu_m q;
  Ok (col_entries r).

(** The row [x'] is the row [x] with its missing entries replaced by
    [x̂_m] and its observed entries kept. *)
Definition completes (mu K : mat F) (x x' : list F) : Prop :=
  ∃ xhat, cond_mean mu K x = Ok xhat ∧ length x' = length x
    ∧ (∀ k j, missing x !! k = Some j → x' !! j = xhat !! k)
    ∧ (∀ j, j ∈ observed x → x' !! j = x !! j).

(** Position of [a] in the index list [idx]. *)
Definition index_of (a : nat) (idx : list nat) : option nat :=
  fst <$> list_find (λ j, j = a) idx.

(** What the row [x] adds to the element [(a, b)] of [T2]: the element of
    [K_mm⁻¹] that sits there when [a] and [b] are both missing in [x],
    nothing otherwise. *)
Definition block_entry (K : mat F) (x : list F) (a b : nat)
    : result (option F) :=
  let m := missing x in
  K_mm ← submat K m m;
  K_mm_inv ← inv L K_mm;
  Ok (p ← index_of a m; q ← index_of b m; Some (entry K_mm_inv p q)).

(** The element [(a, b)] of [T2] after the corrections of all the rows,
    from its value [v] before. *)
Fixpoint corrected (K : mat F) (rows : list (list F)) (a b : nat) (v : F)
    : result F :=
  match rows with
  | [] => Ok v
  | x :: rows' =>
      c ← block_entry K x a b;
      corrected K rows' a b (from_option (s_add v) v c)
  end.

(** [nll_i = 0.5 · (log det(S_oo) + (x_o − μ_o)ᵗ · S_oo⁻¹ · (x_o − μ_o)
              + |observed(i)| · log(2π))], [S] being the covariance. *)
Definition nll_row (mu S : mat F) (x : list F) : result F :=
  let o := observed x in
  S_oo ← submat S o o;
  dt ← det L S_oo;
  mu_o ← elem mu o;
  dev ← msub (colvec (pick x o)) mu_o;
  S_oo_inv ← inv L S_oo;
  p ← mmul (t dev) S_oo_inv;
  q ← mmul p dev;
  Ok (s_mul s_half
        (s_add (s_add (m_log L dt) (entry q 0 0))
               (s_mul (s_of_nat (length o))
                      (m_log L (s_mul (s_of_nat 2) (datum_pi L)))))).

(** The sum of the terms of the rows, in the order of the rows. *)
Fixpoint nll_sum (mu S : mat F) (rows : list (list F)) (acc : F) : result F :=
  match rows with
  | [] => Ok acc
  | x :: rows' => v ← nll_row mu S x; nll_sum mu S rows' (s_add acc v)
  end.

Definition nll_spec (mu K : mat F) (rows : list (list F)) : result F :=
  S ← inv L K;
  nll_sum mu S rows s_zero.

(** [T1]: the sum of column [j] of the completed matrix; and the element
    [(j, k)] of its Gram matrix. *)
Definition col_sum (A : mat F) (j : nat) : F :=
  foldl (λ acc i, s_add acc (entry A i j)) s_zero (seq 0 (n_rows A)).
Definition gram (A : mat F) (j k : nat) : F :=
  foldl (λ acc i, s_add acc (s_mul (entry A i j) (entry A i k))) s_zero
        (seq 0 (n_rows A)).

(** The rows of [A] followed by the rows of [B]. *)
Definition join_cols (A B : mat F) : mat F :=
  Mat (n_rows A + n_rows B) (n_cols A) (mem A ++ mem B).

End Spec.

(** ** Two instances of the interfaces *)

(** *** IEEE binary64 scalars *)

(** [double] as the kernel's binary64 floats; [arma_isfinite] is
    [std::isfinite]. *)
Definition IEEE : scalar :=
  Scalar float 0%float PrimFloat.add PrimFloat.sub PrimFloat.mul PrimFloat.div
         0.5%float (λ n, PrimFloat.of_uint63 (Uint63.of_Z (Z.of_nat n)))
         PrimFloat.is_finite.

(** *** Exact arithmetic *)

(** Rational numbers with one value that is not a number; inversion by
    the adjugate, determinant by expansion along the first row, and a
    logarithm that is a partial sum of the series of [2 * atanh]. *)
Module Exact.

Inductive ext := Fin (q : Qc) | NonFinite.

Global Instance ext_eq_dec : EqDecision ext.
Proof. solve_decision. Defined.

Definition lift2 (f : Qc → Qc → Qc) (a b : ext) : ext :=
  match a, b with Fin x, Fin y => Fin (f x y) | _, _ => NonFinite end.

Definition e_div (a b : ext) : ext :=
  match a, b with
  | Fin x, Fin y => if decide (y = 0%Qc) then NonFinite else Fin (x / y)%Qc
  | _, _ => NonFinite
  end.

Definition e_of_Z (z : Z) : ext := Fin (Q2Qc (inject_Z z)).

Definition e_finite (a : ext) : bool :=
  match a with Fin _ => true | NonFinite => false end.

Definition Qx : scalar :=
  Scalar ext (e_of_Z 0) (lift2 Qcplus) (lift2 Qcminus) (lift2 Qcmult) e_div
         (Fin (Q2Qc (1 # 2))) (λ n, e_of_Z (Z.of_nat n)) e_finite.

Definition e_neg (a : ext) : ext := lift2 Qcminus (e_of_Z 0) a.

(** The rows [rest] without their column [j]. *)
Definition drop_col (j : nat) (rest : list (list ext)) : list (list ext) :=
  map (λ r, take j r ++ drop (S j) r) rest.

(** Determinant of the [n] by [n] matrix with rows [m]. *)
Fixpoint det_rows (n : nat) (m : list (list ext)) : ext :=
  match n, m with
  | S n', r0 :: rest =>
      foldl (λ acc '(j, a),
               let c := lift2 Qcmult a (det_rows n' (drop_col j rest)) in
               lift2 Qcplus acc (if Nat.even j then c else e_neg c))
            (e_of_Z 0) (zip (seq 0 (length r0)) r0)
  | _, _ => e_of_Z 1
  end.

(** The rows [m] without row [i] and column [j]. *)
Definition minor (i j : nat) (m : list (list ext)) : list (list ext) :=
  drop_col j (take i m ++ drop (S i) m).

Definition e_det (A : mat Qx) : option ext :=
  match det_rows (n_rows A) (mem A) with
  | Fin q => Some (Fin q)
  | NonFinite => None
  end.

Definition e_inv (A : mat Qx) : option (mat Qx) :=
  let n := n_rows A in
  match det_rows n (mem A) with
  | Fin q =>
      if decide (q = 0%Qc) then None
      else Some (@mk Qx n n (λ i j,
             let c := det_rows (pred n) (minor j i (mem A)) in
             e_div (if Nat.even (i + j) then c else e_neg c) (Fin q)))
  | NonFinite => None
  end.

(** [2 * (y + y^3/3 + ... )] with [y = (x - 1) / (x + 1)], [terms] terms. *)
Definition e_log_terms : nat := 6.

Definition e_log (a : ext) : ext :=
  match a with
  | Fin x =>
      if decide (0 < x)%Qc then
        let y := ((x - 1) / (x + 1))%Qc in
        Fin (2 * foldl (λ acc k,
                   acc + Qcpower y (2 * k + 1)
                         / Q2Qc (inject_Z (Z.of_nat (2 * k + 1))))%Qc
                 0%Qc (seq 0 e_log_terms))%Qc
      else NonFinite
  | NonFinite => NonFinite
  end.

(** The binary64 value of [arma::datum::pi]. *)
Definition e_pi : ext := Fin (Q2Qc (884279719003555 # 281474976710656)).

Definition lib : numerics Qx := Numerics Qx e_inv e_det e_log e_pi.

(** Rows of integers as a matrix. *)
Definition of_Zs (n m : nat) (rows : list (list Z)) : mat Qx :=
  @Mat Qx n m (map (map e_of_Z) rows).

End Exact.

(** *** Concrete inputs *)

Module Examples.
Import Exact.

(** Three cases, two variables: a complete row, a row with its first
    entry missing, a row with both entries missing. *)
Definition D0 : mat Qx :=
  @Mat Qx 3 2 [[e_of_Z 1; e_of_Z 2]; [NonFinite; e_of_Z 4];
               [NonFinite; NonFinite]].
Definition mu0 : mat Qx := of_Zs 2 1 [[1]; [1]]%Z.
Definition K0 : mat Qx := of_Zs 2 2 [[2; 1]; [1; 2]]%Z.

(** The store of a call: [D] at 0, [muest] at 1, [kest] at 2. *)
Definition h0 : heap Qx := [D0; mu0; K0].

(** The first two rows of [D0], its last row, and the first two rows in
    the other order; a store with the two parts at 0 and 1, their
    concatenation at 2, [muest] at 3, [kest] at 4 and the reordered part
    at 5. *)
Definition D1 : mat Qx :=
  @Mat Qx 2 2 [[e_of_Z 1; e_of_Z 2]; [NonFinite; e_of_Z 4]].
Definition D2 : mat Qx := @Mat Qx 1 2 [[NonFinite; NonFinite]].
Definition D1p : mat Qx :=
  @Mat Qx 2 2 [[NonFinite; e_of_Z 4]; [e_of_Z 1; e_of_Z 2]].
Definition h9 : heap Qx := [D1; D2; join_cols D1 D2; mu0; K0; D1p].

(** A symmetric matrix that is invertible, with invertible leading entry,
    and not positive-definite: its quadratic form is negative at [v1]. *)
Definition K1 : mat Qx := of_Zs 2 2 [[1; 2]; [2; 1]]%Z.
Definition v1 : mat Qx := of_Zs 2 1 [[1]; [-1]]%Z.
Definition quad (K v : mat Qx) : result Qx :=
  p ← mmul (t v) K; q ← mmul p v; Ok (entry q 0 0).
Definition h5 : heap Qx := [D0; mu0; K1].

(** A matrix the library does not invert, nor its leading entry. *)
Definition K4 : mat Qx := of_Zs 2 2 [[0; 0]; [0; 0]]%Z.
Definition h6 : heap Qx := [D0; mu0; K4].

(** A mean with three entries, a precision matrix with three rows and
    columns, and a mean with one entry, for a matrix with two columns. *)
Definition mu3 : mat Qx := of_Zs 3 1 [[1]; [1]; [7]]%Z.
Definition K3 : mat Qx := of_Zs 3 3 [[2; 1; 5]; [1; 2; 5]; [5; 5; 9]]%Z.
Definition mu1 : mat Qx := of_Zs 1 1 [[1]]%Z.
Definition h8 : heap Qx := [D0; mu0; K0; mu3; K3; mu1].

(** The store of a call of [imp2matprec]: [D] at 0, [kest] at 1, [t2]
    at 2. *)
Definition T0 : mat Qx := of_Zs 2 2 [[0; 0]; [0; 0]]%Z.
Definition h2 : heap Qx := [D0; K0; T0].

(** A matrix with two columns and no row, in the place of [D]. *)
Definition E0 : mat Qx := @Mat Qx 0 2 [].
Definition h10 : heap Qx := [E0; mu0; K0].

(** A matrix without missing entry, with two pairs of parameters and a
    second-moment matrix. *)
Definition D3 : mat Qx := of_Zs 3 2 [[1; 2]; [3; 5]; [4; 4]]%Z.
Definition h11 : heap Qx := [D3; mu0; K0; mu3; K3; T0].

(** A singular matrix with an invertible leading entry, in the place of
    [kest] for [imp2matprec]. *)
Definition K5 : mat Qx := of_Zs 2 2 [[1; 1]; [1; 1]]%Z.
Definition h12 : heap Qx := [D0; K5; T0].

(** [D0] with other observed values. *)
Definition D4 : mat Qx :=
  @Mat Qx 3 2 [[e_of_Z 7; e_of_Z 8]; [NonFinite; e_of_Z 9];
               [NonFinite; NonFinite]].
Definition h13 : heap Qx := [D0; D4; K0; T0].

(** The two parts [D1] and [D2] and their concatenation, for
    [imp2matprec]. *)
Definition h14 : heap Qx := [D1; D2; join_cols D1 D2; K0; T0].

End Examples.

(** ** A library over binary64

    An instance of [numerics] over [double], for matrices of at most two
    rows: enough to evaluate the four functions in double precision on
    small data.  The inverse and the determinant are exact on the
    matrices of one row and on the identity; on other matrices of two
    rows the library's own routines may round otherwise, and no example
    depends on the values there. *)

Module Binary64.

(** A determinant by which one can divide. *)
Definition regular (d : float) : bool :=
  PrimFloat.is_finite d && negb (PrimFloat.eqb d 0).

(** The determinant: one for the empty matrix, the element of a matrix
    of one row, [a d − b c] for a matrix of two. *)
Definition b_det (A : mat IEEE) : option float :=
  match n_rows A with
  | 0 => Some 1%float
  | 1 => Some (entry A 0 0)
  | 2 => Some (entry A 0 0 * entry A 1 1 - entry A 0 1 * entry A 1 0)%float
  | _ => None
  end.

(** The inverse, by the closed formulas for these sizes. *)
Definition b_inv (A : mat IEEE) : option (mat IEEE) :=
  match n_rows A with
  | 0 => Some (@Mat IEEE 0 0 [])
  | 1 => let a := entry A 0 0 in
         if regular a then Some (@Mat IEEE 1 1 [[(1 / a)%float]]) else None
  | 2 => let d := (entry A 0 0 * entry A 1 1
                   - entry A 0 1 * entry A 1 0)%float in
         if regular d
         then Some (@Mat IEEE 2 2 [[(entry A 1 1 / d)%float;
                              (- entry A 0 1 / d)%float];
                             [(- entry A 1 0 / d)%float;
                              (entry A 0 0 / d)%float]])
         else None
  | _ => None
  end.

(** [arma::datum::pi], and [std::log] at the two arguments the examples
    apply it to: [log 1 = 0], and 1.8378770664093453, the double nearest
    to the logarithm of the double [2π].  The kernel's floats have no
    logarithm; elsewhere [b_log] is not a number. *)
Definition b_pi : float := 0x1.921fb54442d18p+1%float.

Definition b_log (x : float) : float :=
  if PrimFloat.eqb x 1 then 0%float
  else if PrimFloat.eqb x 0x1.921fb54442d18p+2 then 0x1.d67f1c864beb4p+0%float
  else nan.

Definition lib : numerics IEEE := Numerics IEEE b_inv b_det b_log b_pi.

(** One variable, mean zero, precision one.  A row whose term is
    [2^53], two rows whose terms are [log (2π) / 2]; the three rows;
    and the three rows in another order. *)
Definition mu1 : mat IEEE := @Mat IEEE 1 1 [[0%float]].
Definition K1 : mat IEEE := @Mat IEEE 1 1 [[1%float]].
Definition D1 : mat IEEE := @Mat IEEE 1 1 [[0x1p+27%float]].
Definition D2 : mat IEEE := @Mat IEEE 2 1 [[0%float]; [0%float]].
Definition Dp : mat IEEE :=
  @Mat IEEE 3 1 [[0%float]; [0%float]; [0x1p+27%float]].
Definition h1 : heap IEEE := [D1; D2; join_cols D1 D2; mu1; K1; Dp].

(** Two variables, mean zero, precision the identity; two matrices that
    differ in the value that marks their missing cell. *)
Definition mu2 : mat IEEE := @Mat IEEE 2 1 [[0%float]; [0%float]].
Definition K2 : mat IEEE :=
  @Mat IEEE 2 2 [[1%float; 0%float]; [0%float; 1%float]].
Definition Dn : mat IEEE :=
  @Mat IEEE 3 2 [[1%float; nan]; [2%float; 3%float]; [4%float; 1%float]].
Definition Di : mat IEEE :=
  @Mat IEEE 3 2 [[1%float; infinity]; [2%float; 3%float];
                 [4%float; 1%float]].
Definition h2 : heap IEEE := [Dn; Di; mu2; K2].

(** A matrix without missing entry, of mean [(2, 3)] and covariance the
    identity, and other parameters to start from. *)
Definition Dc : mat IEEE :=
  @Mat IEEE 4 2 [[1%float; 2%float]; [3%float; 2%float];
                 [1%float; 4%float]; [3%float; 4%float]].
Definition mu3 : mat IEEE := @Mat IEEE 2 1 [[1%float]; [1%float]].
Definition K3 : mat IEEE :=
  @Mat IEEE 2 2 [[2%float; 0%float]; [0%float; 2%float]].
Definition h3 : heap IEEE := [Dc; mu2; K2; mu3; K3].

End Binary64.

(** ** The loops as functions of the values *)

(** The state after [n] passes of a body from index [i], and the outcome;
    at an exception the state is the one the failing pass started from. *)
Fixpoint iter {X} (step : nat → X → result X) (i n : nat) (x : X)
    : X * result unit :=
  match n with
  | 0 => (x, Ok ())
  | S n' => match step i x with
            | Ok x' => iter step (S i) n' x'
            | Err e => (x, Err e)
            end
  end.

(** A running sum of [n] terms from index [i]. *)
Fixpoint iter_sum {F : scalar} (term : nat → result F) (i n : nat) (acc : F)
    : result F :=
  match n with
  | 0 => Ok acc
  | S n' => v ← term i; iter_sum term (S i) n' (s_add acc v)
  end.

(** The state of the loop of [imp1matprec] before the pass at [i]: the
    rows before [i] are completed, the others are those of [D]. *)
Definition imp1_inv {F : scalar} (L : numerics F) (mu K D : mat F) (i : nat)
    (d : mat F) : Prop :=
  wf d ∧ n_rows d = n_rows D ∧ n_cols d = n_cols D
  ∧ (∀ j, i ≤ j → mem d !! j = mem D !! j)
  ∧ (∀ j x, j < i → mem D !! j = Some x →
       ∃ x', mem d !! j = Some x' ∧ completes L mu K x x').

(** What a computation leaves of a store: it may grow, and its cells
    outside [W] keep their matrices. *)
Definition frame {F : scalar} (W : loc → Prop) (h h' : heap F) : Prop :=
  length h ≤ length h' ∧ ∀ l, l < length h → ¬ W l → h' !! l = h !! l.

Definition modifies {F : scalar} {A} (W : loc → Prop) (m : M F A) : Prop :=
  ∀ h h' r, run m h = (h', r) → frame W h h'.

(** The inverse the library returns has the size of its argument. *)
Definition inv_keeps_shape {F : scalar} (L : numerics F) : Prop :=
  ∀ A B, n_rows A = n_cols A → la_inv L A = Some B →
         n_rows B = n_rows A ∧ n_cols B = n_cols A.

(** [A] and [B] have the same leading [n] by [m] block. *)
Definition agree_on {F : scalar} (n m : nat) (A B : mat F) : Prop :=
  ∀ r c, r < n → c < m → entry A r c = entry B r c.

(** ** Rows, one at a time *)

(** Two cells hold the same datum: the same value, or two values that
    both mark the cell as missing. *)
Definition same_cell {F : scalar} (v v' : F) : Prop :=
  v = v' ∨ (arma_isfinite v = false ∧ arma_isfinite v' = false).

(** Two matrices of one shape whose cells hold the same data. *)
Definition same_data {F : scalar} (A B : mat F) : Prop :=
  n_rows A = n_rows B ∧ n_cols A = n_cols B
  ∧ Forall2 (Forall2 same_cell) (mem A) (mem B).

(** Two matrices with as many rows whose cells are missing at the same
    places. *)
Definition same_pattern {F : scalar} (A B : mat F) : Prop :=
  n_rows A = n_rows B
  ∧ Forall2 (Forall2 (λ v v' : F, arma_isfinite v = arma_isfinite v'))
            (mem A) (mem B).

Section RowWise.
Context {F : scalar} (L : numerics F).

(** The row [x] with its missing entries replaced by the conditional
    mean, as a function of the row ([x] itself where the mean fails). *)
Definition complete_row (mu K : mat F) (x : list F) : list F :=
  match cond_mean L mu K x with
  | Ok xhat =>
      imap (λ j v, from_option (λ k, nth k xhat s_zero) v
                               (index_of j (missing x))) x
  | Err _ => x
  end.

End RowWise.

(** The entry [(i, j)] of the inverse the exact library returns. *)
Definition inv_entry (A : mat Exact.Qx) (i j : nat) : Exact.ext :=
  let c := Exact.det_rows (pred (n_rows A)) (Exact.minor j i (mem A)) in
  Exact.e_div (if Nat.even (i + j) then c else Exact.e_neg c)
              (Exact.det_rows (n_rows A) (mem A)).

(** * Properties *)

(** ** Results *)

Lemma bind_Ok {A B} (r : result A) (k : A → result B) (b : B) :
  r ≫= k = Ok b ↔ ∃ a, r = Ok a ∧ k a = Ok b.
Proof.
  destruct r as [a|e]; simpl; split.
  - intros H. exists a. auto.
  - intros (a' & [= <-] & H). exact H.
  - discriminate.
  - intros (a' & [=] & _).
Qed.

Lemma of_option_Ok {A} (e : exn) (o : option A) (a : A) :
  of_option e o = Ok a ↔ o = Some a.
Proof. destruct o; simpl; split; congruence. Qed.

(** ** Matrices built element by element *)

Section DenseFacts.
Context {F : scalar}.
Implicit Types (A B X : mat F) (f g : nat → nat → F).

Lemma mk_wf n m f : wf (mk n m f).
Proof.
  split; simpl.
  - by rewrite length_map, length_seq.
  - apply Forall_forall. intros r Hr. apply in_map_iff in Hr.
    destruct Hr as (k & <- & _). by rewrite length_map, length_seq.
Qed.

Lemma mem_mk n m f r :
  r < n → mem (mk n m f) !! r = Some (map (f r) (seq 0 m)).
Proof.
  intros Hr. simpl. rewrite list_lookup_fmap.
  rewrite lookup_seq_lt by done. reflexivity.
Qed.

Lemma at_mk n m f r c : r < n → c < m → at_ (mk n m f) r c = Some (f r c).
Proof.
  intros Hr Hc. unfold at_. rewrite mem_mk by done. simpl.
  rewrite list_lookup_fmap, lookup_seq_lt by done. reflexivity.
Qed.

Lemma at_mk_None n m f r c : n ≤ r ∨ m ≤ c → at_ (mk n m f) r c = None.
Proof.
  intros H. unfold at_. simpl. rewrite list_lookup_fmap.
  destruct (decide (r < n)) as [Hr|Hr].
  - rewrite lookup_seq_lt by done. simpl. rewrite list_lookup_fmap.
    rewrite lookup_seq_ge by lia. reflexivity.
  - rewrite lookup_seq_ge by lia. reflexivity.
Qed.

Lemma entry_mk n m f r c : r < n → c < m → entry (mk n m f) r c = f r c.
Proof. intros. unfold entry. by rewrite at_mk. Qed.

Lemma mk_ext n m f g :
  (∀ r c, r < n → c < m → f r c = g r c) → mk n m f = mk n m g.
Proof.
  intros H. unfold mk. f_equal. apply map_ext_in. intros r Hr.
  apply in_seq in Hr. apply map_ext_in. intros c Hc. apply in_seq in Hc.
  apply H; lia.
Qed.

Lemma wf_at A r c : wf A → r < n_rows A → c < n_cols A → is_Some (at_ A r c).
Proof.
  intros [Hl Hall] Hr Hc. unfold at_.
  destruct (lookup_lt_is_Some_2 (mem A) r) as [x Hx]; [lia|].
  rewrite Hx. simpl. apply lookup_lt_is_Some_2.
  by rewrite (Forall_lookup_1 _ _ _ _ Hall Hx).
Qed.

Lemma wf_row_length A i x : wf A → mem A !! i = Some x → length x = n_cols A.
Proof.
  intros [_ Hall] Hx. exact (Forall_lookup_1 _ _ _ _ Hall Hx).
Qed.

Lemma entry_row A i x c :
  mem A !! i = Some x → entry A i c = nth c x s_zero.
Proof.
  intros Hx. unfold entry, at_. rewrite Hx. simpl.
  destruct (x !! c) as [v|] eqn:E; simpl.
  - symmetry. by apply nth_lookup_Some with (d := s_zero) in E.
  - apply lookup_ge_None in E. by rewrite nth_overflow.
Qed.

End DenseFacts.

(** ** The index sets of a row *)

Section FindFacts.
Context {F : scalar}.
Implicit Types (x : list F) (p : F → bool).

Lemma elem_of_find_from p j x k :
  k ∈ find_from p j x ↔ ∃ v, j ≤ k ∧ x !! (k - j) = Some v ∧ p v = true.
Proof.
  revert j. induction x as [|v x IH]; intros j; simpl.
  - split; [intros H; inversion H | intros (w & _ & H & _); discriminate].
  - assert (Hstep : ∀ w, j ≤ k → k ≠ j →
              ((v :: x) !! (k - j) = Some w ↔ x !! (k - S j) = Some w)).
    { intros w Hle Hne. replace (k - j) with (S (k - S j)) by lia. done. }
    destruct (p v) eqn:E; [rewrite elem_of_cons|]; rewrite IH; split.
    + intros [-> | (w & Hle & Hw & Hp)].
      * exists v. by rewrite Nat.sub_diag.
      * exists w. split; [lia|]. split; [|done]. apply Hstep; [lia..|done].
    + intros (w & Hle & Hw & Hp).
      destruct (decide (k = j)) as [->|Hne]; [by left|right].
      exists w. split; [lia|]. split; [|done]. by apply Hstep.
    + intros (w & Hle & Hw & Hp).
      exists w. split; [lia|]. split; [|done]. apply Hstep; [lia..|done].
    + intros (w & Hle & Hw & Hp). destruct (decide (k = j)) as [->|Hne].
      * rewrite Nat.sub_diag in Hw. simpl in Hw. congruence.
      * exists w. split; [lia|]. split; [|done]. by apply Hstep.
Qed.

Lemma find_from_NoDup p j x : NoDup (find_from p j x).
Proof.
  revert j. induction x as [|v x IH]; intros j; simpl; [constructor|].
  destruct (p v); [|apply IH]. apply list.NoDup_cons. split; [|apply IH].
  rewrite elem_of_find_from. intros (w & Hle & _). lia.
Qed.

Lemma elem_of_find_finite x k :
  k ∈ find_finite x ↔ ∃ v, x !! k = Some v ∧ arma_isfinite v = true.
Proof.
  unfold find_finite. rewrite elem_of_find_from, Nat.sub_0_r.
  split; [intros (v & _ & H); eauto | intros (v & H); exists v; split; [lia|done]].
Qed.

Lemma elem_of_find_nonfinite x k :
  k ∈ find_nonfinite x ↔ ∃ v, x !! k = Some v ∧ arma_isfinite v = false.
Proof.
  unfold find_nonfinite. rewrite elem_of_find_from, Nat.sub_0_r.
  setoid_rewrite negb_true_iff.
  split; [intros (v & _ & H); eauto | intros (v & H); exists v; split; [lia|done]].
Qed.

Lemma find_finite_lt x k : k ∈ find_finite x → k < length x.
Proof.
  rewrite elem_of_find_finite. intros (v & Hv & _). by eapply lookup_lt_Some.
Qed.

Lemma find_nonfinite_lt x k : k ∈ find_nonfinite x → k < length x.
Proof.
  rewrite elem_of_find_nonfinite. intros (v & Hv & _). by eapply lookup_lt_Some.
Qed.

(** Every position of a row is in exactly one of the two index sets. *)
Lemma find_partition x k :
  k < length x →
  (k ∈ find_finite x ∧ k ∉ find_nonfinite x)
  ∨ (k ∈ find_nonfinite x ∧ k ∉ find_finite x).
Proof.
  intros Hk. destruct (lookup_lt_is_Some_2 x k Hk) as [v Hv].
  rewrite !elem_of_find_finite, !elem_of_find_nonfinite.
  destruct (arma_isfinite v) eqn:E; [left|right]; (split; [eauto|]);
    intros (w & Hw & Hf); congruence.
Qed.

Lemma find_nonfinite_nil x :
  find_nonfinite x = [] → find_finite x = seq 0 (length x).
Proof.
  unfold find_nonfinite, find_finite. generalize 0.
  induction x as [|v x IH]; intros j; simpl; [done|].
  destruct (arma_isfinite v); simpl; [|done].
  intros H. by rewrite IH.
Qed.

Lemma find_finite_nil x :
  find_finite x = [] → find_nonfinite x = seq 0 (length x).
Proof.
  unfold find_nonfinite, find_finite. generalize 0.
  induction x as [|v x IH]; intros j; simpl; [done|].
  destruct (arma_isfinite v); simpl; [done|].
  intros H. by rewrite IH.
Qed.

End FindFacts.

(** ** Views and in-place updates *)

Section ViewFacts.
Context {F : scalar}.
Implicit Types (A B X : mat F) (m : list (list F)) (op : F → F → F).

Local Abbreviation get m a b := (m !! a ≫= (.!! b)).

Lemma in_bounds_true A ri ci :
  (∀ r, r ∈ ri → r < n_rows A) → (∀ c, c ∈ ci → c < n_cols A) →
  in_bounds A ri ci = true.
Proof.
  intros Hr Hc. unfold in_bounds. apply andb_true_iff. split.
  - apply forallb_forall. intros c Hin. apply Nat.ltb_lt, Hc.
    by apply list_elem_of_In.
  - destruct ci; [done|]. apply forallb_forall. intros r Hin.
    apply Nat.ltb_lt, Hr. by apply list_elem_of_In.
Qed.

Lemma in_bounds_cols A ri ci c :
  in_bounds A ri ci = true → c ∈ ci → c < n_cols A.
Proof.
  unfold in_bounds. intros H Hin. apply andb_true_iff in H as [H _].
  rewrite forallb_forall in H. apply Nat.ltb_lt, H. by apply list_elem_of_In.
Qed.

Lemma in_bounds_rows A ri ci r :
  in_bounds A ri ci = true → ci ≠ [] → r ∈ ri → r < n_rows A.
Proof.
  unfold in_bounds. intros H Hne Hin. apply andb_true_iff in H as [_ H].
  destruct ci; [done|]. rewrite forallb_forall in H.
  apply Nat.ltb_lt, H. by apply list_elem_of_In.
Qed.

Lemma upd_at_get m r c f a b :
  get (upd_at m r c f) a b
  = if decide (a = r ∧ b = c) then f <$> get m a b else get m a b.
Proof.
  unfold upd_at. destruct (decide (a = r)) as [->|Ha].
  - rewrite list_lookup_alter_eq. destruct (m !! r) as [x|]; simpl.
    + destruct (decide (b = c)) as [->|Hb].
      * rewrite list_lookup_alter_eq. by rewrite decide_True.
      * rewrite list_lookup_alter_ne by done. rewrite decide_False; [done|tauto].
    + by destruct (decide _).
  - rewrite list_lookup_alter_ne by done. rewrite decide_False; [done|tauto].
Qed.

Lemma upd_at_row m r c f a : a ≠ r → upd_at m r c f !! a = m !! a.
Proof. intros. unfold upd_at. by rewrite list_lookup_alter_ne. Qed.

Lemma upd_at_shape m r c f n :
  Forall (λ y, length y = n) m → Forall (λ y, length y = n) (upd_at m r c f).
Proof.
  intros H. unfold upd_at. apply Forall_alter; [done|].
  intros y _ Hy. by rewrite length_alter.
Qed.

Lemma put_col_other op m c ri xs a b :
  a ∉ ri ∨ b ≠ c → get (put_col op m c ri xs) a b = get m a b.
Proof.
  revert m xs. induction ri as [|r ri IH]; intros m xs H; simpl; [done|].
  destruct xs as [|x xs]; [done|]. rewrite IH.
  - rewrite upd_at_get, decide_False; [done|]. intros [-> ->].
    destruct H as [H|H]; [apply H; left|done].
  - destruct H as [H|H]; [left|by right]. intros Hin. apply H. by right.
Qed.

Lemma put_col_hit op m c ri xs p a x :
  NoDup ri → ri !! p = Some a → xs !! p = Some x →
  get (put_col op m c ri xs) a c = (λ v, op v x) <$> get m a c.
Proof.
  revert m xs p. induction ri as [|r ri IH]; intros m xs p Hnd Hr Hx; [done|].
  destruct xs as [|x0 xs]; [done|].
  apply list.NoDup_cons in Hnd as [Hnotin Hnd]. simpl.
  destruct p as [|p]; simpl in *.
  - injection Hr as ->. injection Hx as ->.
    rewrite put_col_other by (by left). by rewrite upd_at_get, decide_True.
  - rewrite (IH _ _ p) by done. rewrite upd_at_get, decide_False; [done|].
    intros [-> _]. apply Hnotin. by eapply list_elem_of_lookup_2.
Qed.

Lemma put_col_row op m c ri xs a :
  a ∉ ri → put_col op m c ri xs !! a = m !! a.
Proof.
  revert m xs. induction ri as [|r ri IH]; intros m xs H; simpl; [done|].
  destruct xs as [|x xs]; [done|]. rewrite IH.
  - apply upd_at_row. intros ->. apply H. left.
  - intros Hin. apply H. by right.
Qed.

Lemma put_col_length op m c ri xs : length (put_col op m c ri xs) = length m.
Proof.
  revert m xs. induction ri as [|r ri IH]; intros m xs; simpl; [done|].
  destruct xs as [|x xs]; [done|]. rewrite IH. unfold upd_at.
  by rewrite length_alter.
Qed.

Lemma put_col_shape op m c ri xs n :
  Forall (λ y, length y = n) m →
  Forall (λ y, length y = n) (put_col op m c ri xs).
Proof.
  revert m xs. induction ri as [|r ri IH]; intros m xs H; simpl; [done|].
  destruct xs as [|x xs]; [done|]. by apply IH, upd_at_shape.
Qed.

Lemma put_cols_other op m ri ci cols a b :
  a ∉ ri ∨ b ∉ ci → get (put_cols op m ri ci cols) a b = get m a b.
Proof.
  revert m cols. induction ci as [|c ci IH]; intros m cols H; simpl; [done|].
  destruct cols as [|xs cols]; [done|]. rewrite IH.
  - apply put_col_other. destruct H as [H|H]; [by left|right].
    intros ->. apply H. left.
  - destruct H as [H|H]; [by left|right]. intros Hin. apply H. by right.
Qed.

Lemma put_cols_hit op m ri ci cols p q a b xs x :
  NoDup ri → NoDup ci → ri !! p = Some a → ci !! q = Some b →
  cols !! q = Some xs → xs !! p = Some x →
  get (put_cols op m ri ci cols) a b = (λ v, op v x) <$> get m a b.
Proof.
  revert m cols q.
  induction ci as [|c ci IH]; intros m cols q Hri Hci Hp Hq Hxs Hx; [done|].
  destruct cols as [|xs0 cols]; [done|].
  apply list.NoDup_cons in Hci as [Hnotin Hci]. simpl.
  destruct q as [|q]; simpl in *.
  - injection Hq as ->. injection Hxs as ->.
    rewrite put_cols_other by (by right). by eapply put_col_hit.
  - rewrite (IH _ _ q) by done. rewrite put_col_other; [done|]. right.
    intros ->. apply Hnotin. by eapply list_elem_of_lookup_2.
Qed.

Lemma put_cols_row op m ri ci cols a :
  a ∉ ri → put_cols op m ri ci cols !! a = m !! a.
Proof.
  revert m cols. induction ci as [|c ci IH]; intros m cols H; simpl; [done|].
  destruct cols as [|xs cols]; [done|]. rewrite IH by done.
  by apply put_col_row.
Qed.

Lemma put_cols_length op m ri ci cols :
  length (put_cols op m ri ci cols) = length m.
Proof.
  revert m cols. induction ci as [|c ci IH]; intros m cols; simpl; [done|].
  destruct cols as [|xs cols]; [done|]. by rewrite IH, put_col_length.
Qed.

Lemma put_cols_shape op m ri ci cols n :
  Forall (λ y, length y = n) m →
  Forall (λ y, length y = n) (put_cols op m ri ci cols).
Proof.
  revert m cols. induction ci as [|c ci IH]; intros m cols H; simpl; [done|].
  destruct cols as [|xs cols]; [done|]. by apply IH, put_col_shape.
Qed.

(** What a successful in-place update of a block does. *)
Lemma inplace_op_Ok op A ri ci X A' :
  inplace_op op A ri ci X = Ok A' →
  n_rows A' = n_rows A ∧ n_cols A' = n_cols A ∧ (wf A → wf A')
  ∧ (∀ a, a ∉ ri → mem A' !! a = mem A !! a)
  ∧ (∀ a b, a ∉ ri ∨ b ∉ ci → at_ A' a b = at_ A a b)
  ∧ (NoDup ri → NoDup ci → ∀ p q a b,
       ri !! p = Some a → ci !! q = Some b →
       at_ A' a b = (λ v, op v (entry X p q)) <$> at_ A a b).
Proof.
  unfold inplace_op.
  destruct (_ && _) eqn:Hsz; [|discriminate].
  destruct (in_bounds A ri ci) eqn:Hb; [|discriminate].
  intros [= <-]. simpl.
  apply andb_true_iff in Hsz as [Hn Hm].
  apply Nat.eqb_eq in Hn, Hm.
  split; [done|]. split; [done|]. split; [|split; [|split]].
  - intros [Hl Hall]. split; simpl.
    + by rewrite put_cols_length.
    + by apply put_cols_shape.
  - intros a Ha. by apply put_cols_row.
  - intros a b H. unfold at_. simpl. by apply put_cols_other.
  - intros Hri Hci p q a b Hp Hq. unfold at_. simpl.
    assert (p < n_rows X) by (rewrite Hn; by eapply lookup_lt_Some).
    assert (q < n_cols X) by (rewrite Hm; by eapply lookup_lt_Some).
    eapply put_cols_hit; try done.
    + rewrite list_lookup_fmap, lookup_seq_lt by done. reflexivity.
    + rewrite list_lookup_fmap, lookup_seq_lt by done. reflexivity.
Qed.

(** When an in-place update succeeds. *)
Lemma inplace_op_is_Ok op A ri ci X :
  n_rows X = length ri → n_cols X = length ci → in_bounds A ri ci = true →
  ∃ A', inplace_op op A ri ci X = Ok A'.
Proof.
  intros Hn Hm Hb. unfold inplace_op.
  rewrite Hn, Hm, !Nat.eqb_refl, Hb. simpl. eauto.
Qed.

End ViewFacts.

(** ** The store *)

Section StoreFacts.
Context {F : scalar}.
Implicit Types (h : heap F) (l d : loc) (v : mat F).

Lemma run_bind {A B} (m : M F A) (k : A → M F B) h :
  run (m ≫= k) h
  = match run m h with
    | (h', Ok a) => run (k a) h'
    | (h', Err e) => (h', Err e)
    end.
Proof. reflexivity. Qed.

Lemma run_load l h v : h !! l = Some v → run (load l) h = (h, Ok v).
Proof. intros H. unfold run, load. by rewrite H. Qed.

Lemma run_store l h v :
  l < length h → run (store l v) h = (<[l := v]> h, Ok ()).
Proof. intros H. unfold run, store. by rewrite decide_True. Qed.

Lemma run_copy l h v :
  h !! l = Some v → run (Mat_aux_mem l true) h = (h ++ [v], Ok (length h)).
Proof.
  intros H. unfold Mat_aux_mem. rewrite run_bind, (run_load _ _ _ H).
  reflexivity.
Qed.

Lemma lookup_new h v : (h ++ [v]) !! length h = Some v.
Proof. by rewrite list_lookup_middle. Qed.

Lemma lookup_old h v l w : h !! l = Some w → (h ++ [v]) !! l = Some w.
Proof. apply lookup_app_l_Some. Qed.

Lemma lookup_ext h (ext : list (mat F)) i k v :
  i = length h + k → ext !! k = Some v → (h ++ ext) !! i = Some v.
Proof.
  intros -> H. rewrite lookup_app_r by lia.
  by replace (length h + k - length h) with k by lia.
Qed.

Lemma insert_new h v w : <[length h := w]> (h ++ [v]) = h ++ [w].
Proof.
  replace (length h) with (length h + 0) at 1 by lia.
  by rewrite insert_app_r.
Qed.

Lemma for_loop_S i n (body : nat → M F unit) h :
  run (for_loop i (S n) body) h
  = match run (body i) h with
    | (h', Ok _) => run (for_loop (S i) n body) h'
    | (h', Err e) => (h', Err e)
    end.
Proof.
  unfold for_loop. simpl. rewrite run_bind.
  destruct (run (body i) h) as [h' [[]|e]]; reflexivity.
Qed.

(** A loop whose passes rewrite one cell [tgt] from its own matrix and
    from cells that keep theirs. *)
Lemma for_loop_inplace tgt (pass : nat → M F unit)
    (step : nat → mat F → result (mat F)) (Inv : heap F → Prop) :
  (∀ i h v, Inv h → h !! tgt = Some v →
     run (pass i) h = match step i v with
                      | Ok v' => (<[tgt := v']> h, Ok ())
                      | Err e => (h, Err e)
                      end) →
  (∀ h v, Inv h → Inv (<[tgt := v]> h)) →
  ∀ n i h v, Inv h → h !! tgt = Some v →
    run (for_loop i n pass) h
    = (<[tgt := (iter step i n v).1]> h, (iter step i n v).2).
Proof.
  intros Hpass Hinv. induction n as [|n IH]; intros i h v HI Hv.
  - cbn [iter fst snd]. by rewrite list_insert_id.
  - rewrite for_loop_S, (Hpass _ _ _ HI Hv). cbn [iter].
    destruct (step i v) as [v'|e]; cbn [fst snd].
    + rewrite (IH _ _ v').
      * by rewrite list_insert_insert_eq.
      * by apply Hinv.
      * apply list_lookup_insert_eq. by eapply lookup_lt_Some.
    + by rewrite list_insert_id.
Qed.

(** A loop that only reads the store and carries a running sum. *)
Lemma for_fold_sum (pass : nat → F → M F F) (term : nat → result F) h :
  (∀ i acc, run (pass i acc) h = (h, v ← term i; Ok (s_add acc v))) →
  ∀ n i acc, run (for_fold i n pass acc) h = (h, iter_sum term i n acc).
Proof.
  intros Hpass. induction n as [|n IH]; intros i acc; simpl; [done|].
  rewrite run_bind, Hpass. destruct (term i) as [v|e]; simpl; [|done].
  apply IH.
Qed.

(** *** Frames *)

Lemma frame_refl W h : frame W h h.
Proof. by split. Qed.

Lemma frame_trans W h1 h2 h3 : frame W h1 h2 → frame W h2 h3 → frame W h1 h3.
Proof.
  intros [Hl1 H1] [Hl2 H2]. split; [lia|]. intros l Hl HW.
  rewrite H2 by (done || lia). by apply H1.
Qed.

Lemma modifies_ret {A} W (a : A) : modifies W (mret a : M F A).
Proof. intros h h' r [= <- _]. apply frame_refl. Qed.

Lemma modifies_lift {A} W (r : result A) : modifies W (lift r : M F A).
Proof. intros h h' r' [= <- _]. apply frame_refl. Qed.

Lemma modifies_load W l : modifies W (load l : M F _).
Proof. intros h h' r [= <- _]. apply frame_refl. Qed.

Lemma modifies_alloc W v : modifies W (alloc v).
Proof.
  intros h h' r [= <- _]. split; [rewrite length_app; lia|].
  intros l Hl _. by rewrite lookup_app_l.
Qed.

Lemma modifies_store W l v : W l → modifies W (store l v).
Proof.
  intros HW h h' r. unfold run, store. destruct (decide _).
  - intros [= <- _]. split; [by rewrite length_insert|].
    intros l' Hl' HW'. rewrite list_lookup_insert_ne; [done|]. by intros ->.
  - intros [= <- _]. apply frame_refl.
Qed.

(** Sequencing: what the continuation writes is either written by the
    whole, or was allocated by the first part. *)
Lemma modifies_bind {A B} W (W' : A → loc → Prop) (m : M F A) (k : A → M F B) :
  modifies W m → (∀ a, modifies (W' a) (k a)) →
  (∀ h h' a l, run m h = (h', Ok a) → l < length h → W' a l → W l) →
  modifies W (m ≫= k).
Proof.
  intros Hm Hk Hsub h h'' r. rewrite run_bind.
  destruct (run m h) as [h' [a|e]] eqn:E.
  - intros Hrun. destruct (Hm _ _ _ E) as [Hl1 H1].
    destruct (Hk a _ _ _ Hrun) as [Hl2 H2]. split; [lia|].
    intros l Hl HW. rewrite H2; [by apply H1|lia|].
    intros HW'. apply HW. by eapply Hsub.
  - intros [= <- _]. by eapply Hm.
Qed.

Lemma modifies_bind_same {A B} W (m : M F A) (k : A → M F B) :
  modifies W m → (∀ a, modifies W (k a)) → modifies W (m ≫= k).
Proof. intros Hm Hk. apply (modifies_bind W (λ _, W)); auto. Qed.

Lemma modifies_for_fold {A} W (body : nat → A → M F A) :
  (∀ i acc, modifies W (body i acc)) →
  ∀ n i acc, modifies W (for_fold i n body acc).
Proof.
  intros Hb. induction n as [|n IH]; intros i acc; simpl.
  - apply modifies_ret.
  - apply modifies_bind_same; [apply Hb|]. intros a. apply IH.
Qed.

Lemma modifies_for_loop W (body : nat → M F unit) :
  (∀ i, modifies W (body i)) → ∀ n i, modifies W (for_loop i n body).
Proof. intros Hb n i. apply modifies_for_fold. intros j _. apply Hb. Qed.

(** The handle a copy returns is new. *)
Lemma copy_new src h h' d :
  run (Mat_aux_mem src true) h = (h', Ok d) → d = length h.
Proof.
  unfold Mat_aux_mem, run, mbind, M_bind, load, alloc.
  destruct (h !! src); simpl; [|discriminate]. by intros [= _ <-].
Qed.

Lemma modifies_copy W src : modifies W (Mat_aux_mem src true : M F _).
Proof.
  unfold Mat_aux_mem. apply modifies_bind_same; [apply modifies_load|].
  intros v. apply modifies_alloc.
Qed.

End StoreFacts.

(** ** The functions as functions of the values in the store *)

Section Runs.
Context {F : scalar} (L : numerics F).
Implicit Types (h : heap F) (v : mat F).

Lemma imp1_pass_run d muest kest i h vd vmu vk :
  h !! d = Some vd → h !! muest = Some vmu → h !! kest = Some vk →
  run (imp1_pass L d muest kest i) h
  = match imp1_body L vmu vk i vd with
    | Ok v' => (<[d := v']> h, Ok ())
    | Err e => (h, Err e)
    end.
Proof.
  intros Hd Hm Hk. unfold imp1_pass.
  rewrite run_bind, (run_load _ _ _ Hd), run_bind, (run_load _ _ _ Hm),
    run_bind, (run_load _ _ _ Hk), run_bind.
  change (run (lift ?r) h) with (h, r).
  destruct (imp1_body L vmu vk i vd); [|done].
  apply run_store. by eapply lookup_lt_Some.
Qed.

Lemma imp1matprec_run D muest kest h vD vmu vk :
  h !! D = Some vD → h !! muest = Some vmu → h !! kest = Some vk →
  run (imp1matprec L D muest kest) h
  = (h ++ [(iter (imp1_body L vmu vk) 0 (n_rows vD) vD).1],
     (iter (imp1_body L vmu vk) 0 (n_rows vD) vD).2 ≫= λ _, Ok (length h)).
Proof.
  intros HD Hm Hk. unfold imp1matprec.
  rewrite run_bind, (run_copy _ _ _ HD), run_bind,
    (run_load _ _ _ (lookup_new h vD)), run_bind.
  erewrite (for_loop_inplace (length h) _ (imp1_body L vmu vk)
             (λ h', h' !! muest = Some vmu ∧ h' !! kest = Some vk))
    with (v := vD).
  - rewrite insert_new. by destruct (iter _ _ _ _).2.
  - intros i h' v [Hm' Hk'] Hv. by apply imp1_pass_run.
  - intros h' v [Hm' Hk']. apply lookup_lt_Some in Hm as Hlm.
    apply lookup_lt_Some in Hk as Hlk.
    split; (rewrite list_lookup_insert_ne; [done|lia]).
  - split; by apply lookup_old.
  - apply lookup_new.
Qed.

Lemma imp2_pass_run d kest t2 i h vd vk vt2 :
  h !! d = Some vd → h !! kest = Some vk → h !! t2 = Some vt2 →
  run (imp2_pass L d kest t2 i) h
  = match imp2_body L vk i vd vt2 with
    | Ok v' => (<[t2 := v']> h, Ok ())
    | Err e => (h, Err e)
    end.
Proof.
  intros Hd Hk Ht. unfold imp2_pass.
  rewrite run_bind, (run_load _ _ _ Hd), run_bind, (run_load _ _ _ Hk),
    run_bind, (run_load _ _ _ Ht), run_bind.
  change (run (lift ?r) h) with (h, r).
  destruct (imp2_body L vk i vd vt2); [|done].
  apply run_store. by eapply lookup_lt_Some.
Qed.

Lemma imp2matprec_run D kest t2 h vD vk vt2 :
  h !! D = Some vD → h !! kest = Some vk → h !! t2 = Some vt2 → t2 ≠ kest →
  run (imp2matprec L D kest t2) h
  = (<[t2 := (iter (λ i, imp2_body L vk i vD) 0 (n_rows vD) vt2).1]>
       (h ++ [vD]),
     (iter (λ i, imp2_body L vk i vD) 0 (n_rows vD) vt2).2).
Proof.
  intros HD Hk Ht Hne. unfold imp2matprec.
  rewrite run_bind, (run_copy _ _ _ HD), run_bind,
    (run_load _ _ _ (lookup_new h vD)).
  apply lookup_lt_Some in Ht as Hlt.
  apply (for_loop_inplace t2 _ (λ i, imp2_body L vk i vD)
           (λ h', h' !! length h = Some vD ∧ h' !! kest = Some vk)).
  - intros i h' v [Hd' Hk'] Hv. by apply imp2_pass_run.
  - intros h' v [Hd' Hk'].
    split; (rewrite list_lookup_insert_ne; [done|lia]).
  - split; [apply lookup_new|by apply lookup_old].
  - by apply lookup_old.
Qed.

Lemma nll_pass_run d muest kinv i acc h vd vmu vkinv :
  h !! d = Some vd → h !! muest = Some vmu → h !! kinv = Some vkinv →
  run (nll_pass L d muest kinv i acc) h
  = (h, v ← nll_term L vd vmu vkinv i; Ok (s_add acc v)).
Proof.
  intros Hd Hm Hk. unfold nll_pass.
  rewrite run_bind, (run_load _ _ _ Hd), run_bind, (run_load _ _ _ Hm),
    run_bind, (run_load _ _ _ Hk), run_bind.
  change (run (lift ?r) h) with (h, r).
  by destruct (nll_term L vd vmu vkinv i).
Qed.

Lemma nllprec_run D muest kest h vD vmu vk :
  h !! D = Some vD → h !! muest = Some vmu → h !! kest = Some vk →
  run (nllprec L D muest kest) h
  = match inv L vk with
    | Ok kinv => (h ++ [vD; vmu; vk; kinv],
                  iter_sum (nll_term L vD vmu kinv) 0 (n_rows vD) s_zero)
    | Err e => (h ++ [vD; vmu; vk], Err e)
    end.
Proof.
  intros HD Hm Hk. unfold nllprec.
  rewrite run_bind, (run_copy _ _ _ HD).
  rewrite run_bind, (run_copy _ _ vmu) by (by apply lookup_old).
  rewrite run_bind, (run_copy _ _ vk) by (by do 2 apply lookup_old).
  rewrite <- !(assoc_L (++)). simpl app.
  rewrite run_bind, (run_load _ _ vD)
    by (apply (lookup_ext _ _ _ 0); [lia|done]).
  rewrite run_bind, run_bind, (run_load _ _ vk)
    by (apply (lookup_ext _ _ _ 2); [rewrite !length_app; simpl; lia|done]).
  rewrite run_bind. change (run (lift ?r) ?h') with (h', r).
  destruct (inv L vk) as [kinv|e]; [|done].
  change (run (alloc kinv) ?h') with (h' ++ [kinv], Ok (length h')).
  rewrite <- !(assoc_L (++)). simpl app.
  apply for_fold_sum. intros i acc. apply nll_pass_run.
  - apply (lookup_ext _ _ _ 0); [lia|done].
  - apply (lookup_ext _ _ _ 1); [rewrite !length_app; simpl; lia|done].
  - apply (lookup_ext _ _ _ 3); [rewrite !length_app; simpl; lia|done].
Qed.

End Runs.

(** ** Shapes, rows and columns *)

Section ShapeFacts.
Context {F : scalar}.
Implicit Types (A B C X : mat F) (x : list F).

Lemma submat_Ok A ri ci X :
  submat A ri ci = Ok X →
  in_bounds A ri ci = true
  ∧ X = mk (length ri) (length ci) (λ a b, entry A (ri !!! a) (ci !!! b)).
Proof.
  unfold submat. destruct (in_bounds A ri ci); [|discriminate].
  by intros [= <-].
Qed.

Lemma elem_Ok A idx X :
  elem A idx = Ok X →
  (∀ k, k ∈ idx → k < n_rows A * n_cols A)
  ∧ X = mk (length idx) 1 (λ a _, lin A (idx !!! a)).
Proof.
  unfold elem. destruct (forallb _ idx) eqn:E; [|discriminate].
  intros [= <-]. split; [|done]. intros k Hk.
  rewrite forallb_forall in E. apply Nat.ltb_lt, E. by apply list_elem_of_In.
Qed.

Lemma elem_is_Ok A idx :
  (∀ k, k ∈ idx → k < n_rows A * n_cols A) → is_Ok (elem A idx) = true.
Proof.
  intros H. unfold elem.
  replace (forallb _ idx) with true; [done|]. symmetry.
  apply forallb_forall. intros k Hk. apply Nat.ltb_lt, H.
  by apply list_elem_of_In.
Qed.

Lemma mzip_Ok op A B C :
  mzip op A B = Ok C →
  n_rows A = n_rows B ∧ n_cols A = n_cols B
  ∧ C = mk (n_rows A) (n_cols A) (λ r c, op (entry A r c) (entry B r c)).
Proof.
  unfold mzip. destruct (_ && _) eqn:E; [|discriminate]. intros [= <-].
  apply andb_true_iff in E as [E1 E2]. apply Nat.eqb_eq in E1, E2. done.
Qed.

Lemma mmul_Ok A B C :
  mmul A B = Ok C →
  n_cols A = n_rows B ∧ C = mk (n_rows A) (n_cols B) (λ r c, dot A r B c).
Proof.
  unfold mmul. destruct (_ =? _) eqn:E; [|discriminate]. intros [= <-].
  by apply Nat.eqb_eq in E.
Qed.

Lemma nth_pick x idx b j :
  idx !! b = Some j → nth b (pick x idx) s_zero = nth j x s_zero.
Proof.
  intros H. apply nth_lookup_Some with (d := s_zero).
  unfold pick. by rewrite list_lookup_fmap, H.
Qed.

Lemma length_pick x idx : length (pick x idx) = length idx.
Proof. unfold pick. by rewrite length_map. Qed.

(** A row read through [submat] is the row view. *)
Lemma submat_row A i x idx :
  wf A → mem A !! i = Some x → (∀ j, j ∈ idx → j < length x) →
  submat A [i] idx = Ok (rowvec (pick x idx)).
Proof.
  intros Hwf Hx Hidx. unfold submat.
  pose proof (wf_row_length _ _ _ Hwf Hx) as Hlen.
  rewrite in_bounds_true.
  - f_equal. unfold rowvec. rewrite length_pick. apply mk_ext.
    intros a b Ha Hb. assert (a = 0) as -> by (simpl in Ha; lia).
    destruct (lookup_lt_is_Some_2 idx b Hb) as [j Hj].
    rewrite (list_lookup_total_correct _ _ _ Hj). simpl.
    rewrite (entry_row _ _ _ _ Hx). symmetry. by apply nth_pick.
  - intros r Hr. apply list_elem_of_singleton in Hr as ->.
    destruct Hwf as [<- _]. by eapply lookup_lt_Some.
  - intros c Hc. rewrite <- Hlen. by apply Hidx.
Qed.

Lemma t_rowvec x : t (rowvec x) = colvec x.
Proof.
  unfold t, rowvec, colvec. simpl. apply mk_ext. intros r c Hr Hc.
  rewrite entry_mk by lia. done.
Qed.

Lemma t_col A : n_cols A = 1 → t A = rowvec (col_entries A).
Proof.
  intros H. unfold t, rowvec, col_entries. rewrite H.
  rewrite length_map, length_seq. apply mk_ext. intros r c Hr Hc.
  assert (r = 0) as -> by lia. symmetry.
  apply nth_lookup_Some with (d := s_zero).
  rewrite list_lookup_fmap, lookup_seq_lt by done. done.
Qed.

Lemma foldl_seq_ext {T} (f g : T → nat → T) a n :
  (∀ acc k, k < n → f acc k = g acc k) →
  foldl f a (seq 0 n) = foldl g a (seq 0 n).
Proof.
  intros H. induction n as [|n IH]; [done|].
  rewrite seq_S, !foldl_snoc. simpl. rewrite IH by (intros; apply H; lia).
  apply H. lia.
Qed.

End ShapeFacts.

(** ** Imputation, pass by pass *)

Section Imp1Facts.
Context {F : scalar} (L : numerics F).
Implicit Types (mu K d : mat F) (x : list F).

(** The body of the loop computes the conditional mean of the row and
    writes it at the missing positions. *)
Lemma imp1_body_eq mu K i d x :
  wf d → mem d !! i = Some x →
  imp1_body L mu K i d
  = (xhat ← cond_mean L mu K x; set_submat d [i] (missing x) (rowvec xhat)).
Proof.
  intros Hwf Hx. unfold imp1_body, row. rewrite Hx. simpl.
  unfold imp1_rhs, cond_mean, missing, observed.
  destruct (elem mu (find_nonfinite x)) as [mu_m|] eqn:E1; simpl; [|done].
  destruct (submat K (find_nonfinite x) (find_nonfinite x)) as [k_mm|];
    simpl; [|done].
  destruct (inv L k_mm) as [k_inv|]; simpl; [|done].
  destruct (submat K (find_nonfinite x) (find_finite x)) as [k_mo|];
    simpl; [|done].
  destruct (mmul k_inv k_mo) as [p|]; simpl; [|done].
  rewrite (submat_row _ _ _ _ Hwf Hx) by apply find_finite_lt. simpl.
  destruct (elem mu (find_finite x)) as [mu_o|]; simpl; [|done].
  rewrite t_rowvec.
  destruct (msub _ mu_o) as [dev|]; simpl; [|done].
  destruct (mmul p dev) as [q|]; simpl; [|done].
  destruct (msub mu_m q) as [r|] eqn:E2; simpl; [|done].
  rewrite t_col; [done|].
  apply mzip_Ok in E2 as (_ & _ & ->). apply elem_Ok in E1 as [_ ->]. done.
Qed.

Lemma cond_mean_length mu K x xhat :
  cond_mean L mu K x = Ok xhat → length xhat = length (missing x).
Proof.
  unfold cond_mean. intros H.
  repeat (apply bind_Ok in H as (? & ? & H)). injection H as <-.
  unfold col_entries. rewrite length_map, length_seq.
  match goal with H : msub _ _ = Ok _ |- _ => apply mzip_Ok in H as (_ & _ & ->) end.
  match goal with H : elem mu (missing x) = Ok _ |- _ => apply elem_Ok in H as (_ & ->) end.
  done.
Qed.

(** Writing [xhat] at the positions [im] of row [i]. *)
Lemma set_row_spec d i x im xhat :
  wf d → mem d !! i = Some x → length xhat = length im → NoDup im →
  (∀ j, j ∈ im → j < length x) →
  ∃ d', set_submat d [i] im (rowvec xhat) = Ok d'
    ∧ wf d' ∧ n_rows d' = n_rows d ∧ n_cols d' = n_cols d
    ∧ (∀ a, a ≠ i → mem d' !! a = mem d !! a)
    ∧ ∃ x', mem d' !! i = Some x' ∧ length x' = length x
        ∧ (∀ k j, im !! k = Some j → x' !! j = xhat !! k)
        ∧ (∀ j, j ∉ im → x' !! j = x !! j).
Proof.
  intros Hwf Hx Hlen Hnd Hlt.
  pose proof (wf_row_length _ _ _ Hwf Hx) as Hcols.
  assert (Hi : i < n_rows d).
  { destruct Hwf as [<- _]. by eapply lookup_lt_Some. }
  destruct (inplace_op_is_Ok (λ _ new, new) d [i] im (rowvec xhat))
    as [d' Hd']; [done|by simpl|..].
  { apply in_bounds_true.
    - intros r ->%list_elem_of_singleton. done.
    - intros c Hc. rewrite <- Hcols. by apply Hlt. }
  exists d'. split; [done|].
  destruct (inplace_op_Ok _ _ _ _ _ _ Hd')
    as (Hr & Hc & Hwf' & Hrow & Hother & Hhit).
  specialize (Hwf' Hwf). split; [done|]. split; [done|]. split; [done|].
  split.
  { intros a Ha. apply Hrow. by intros ->%list_elem_of_singleton. }
  destruct (lookup_lt_is_Some_2 (mem d') i) as [x' Hx'].
  { destruct Hwf' as [-> _]. lia. }
  exists x'. split; [done|]. split.
  { rewrite (wf_row_length _ _ _ Hwf' Hx'). lia. }
  split.
  - intros k j Hk.
    specialize (Hhit (NoDup_singleton i) Hnd 0 k i j eq_refl Hk).
    unfold at_ in Hhit. rewrite Hx', Hx in Hhit. simpl in Hhit.
    rewrite Hhit.
    destruct (lookup_lt_is_Some_2 x j) as [v ->].
    { apply Hlt. by eapply list_elem_of_lookup_2. }
    simpl. assert (Hk' : k < length xhat).
    { rewrite Hlen. by eapply lookup_lt_Some. }
    unfold rowvec. rewrite entry_mk by (done || lia).
    destruct (lookup_lt_is_Some_2 xhat k Hk') as [y Hy].
    rewrite Hy. f_equal. by apply nth_lookup_Some.
  - intros j Hj. specialize (Hother i j (or_intror Hj)).
    unfold at_ in Hother. by rewrite Hx', Hx in Hother.
Qed.

Lemma imp1_body_step mu K D i d x :
  imp1_inv L mu K D i d → mem D !! i = Some x →
  match imp1_body L mu K i d with
  | Ok d' => imp1_inv L mu K D (S i) d'
  | Err e => cond_mean L mu K x = Err e
  end.
Proof.
  intros (Hwf & Hr & Hc & Hrest & Hdone) Hx.
  assert (Hdx : mem d !! i = Some x) by (by rewrite Hrest).
  rewrite (imp1_body_eq _ _ _ _ _ Hwf Hdx).
  destruct (cond_mean L mu K x) as [xhat|e] eqn:E; simpl; [|done].
  destruct (set_row_spec d i x (missing x) xhat)
    as (d' & -> & Hwf' & Hr' & Hc' & Hothers & x' & Hx' & Hlen & Hm & Ho);
    [done|done|by apply (cond_mean_length mu K)|apply find_from_NoDup
    |apply find_nonfinite_lt|].
  split; [done|]. split; [lia|]. split; [lia|]. split.
  - intros j Hj. rewrite Hothers by lia. apply Hrest. lia.
  - intros j y Hj Hy. destruct (decide (j = i)) as [->|Hne].
    + assert (y = x) as -> by congruence.
      exists x'. split; [done|]. exists xhat.
      split; [done|]. split; [done|]. split; [done|].
      intros j Hj'. apply Ho. intros Hin.
      destruct (find_partition x j) as [[_ H]|[_ H]]; [|done..].
      by apply find_finite_lt.
    + rewrite Hothers by done. apply Hdone; [lia|done].
Qed.

(** The loop of [imp1matprec] on the values: either every row is
    completed, or the conditional mean of some row fails with the same
    exception. *)
Lemma imp1_iter_spec mu K D n i d :
  wf D → i + n = n_rows D → imp1_inv L mu K D i d →
  match iter (imp1_body L mu K) i n d with
  | (d', Ok _) => imp1_inv L mu K D (n_rows D) d'
  | (_, Err e) => ∃ j x, mem D !! j = Some x ∧ cond_mean L mu K x = Err e
  end.
Proof.
  intros HwfD. revert i d. induction n as [|n IH]; intros i d Hn Hinv; simpl.
  - by replace (n_rows D) with i by lia.
  - destruct (lookup_lt_is_Some_2 (mem D) i) as [x Hx].
    { destruct HwfD as [-> _]. lia. }
    pose proof (imp1_body_step _ _ _ _ _ _ Hinv Hx) as Hstep.
    destruct (imp1_body L mu K i d) as [d'|e].
    + apply IH; [lia|done].
    + eauto.
Qed.

Lemma imp1_inv_init mu K D : wf D → imp1_inv L mu K D 0 D.
Proof.
  intros H. split; [done|]. split; [done|]. split; [done|].
  split; [done|]. intros j x Hj. lia.
Qed.

End Imp1Facts.

Section Imp1Results.
Context {F : scalar} (L : numerics F).
Implicit Types (h : heap F) (x : list F).

(** A successful call returns a new matrix whose rows are the completed
    rows of [D]. *)
Lemma imp1matprec_Ok h D muest kest vD vmu vk h' d :
  h !! D = Some vD → h !! muest = Some vmu → h !! kest = Some vk → wf vD →
  run (imp1matprec L D muest kest) h = (h', Ok d) →
  ∃ vd, h' = h ++ [vd] ∧ d = length h
    ∧ imp1_inv L vmu vk vD (n_rows vD) vd.
Proof.
  intros HD Hm Hk Hwf. rewrite (imp1matprec_run L _ _ _ _ _ _ _ HD Hm Hk).
  pose proof (imp1_iter_spec L vmu vk vD (n_rows vD) 0 vD Hwf eq_refl
                (imp1_inv_init L _ _ _ Hwf)) as Hspec.
  destruct (iter _ _ _ _) as [vd [[]|e]]; simpl; [|discriminate].
  intros [= <- <-]. eauto.
Qed.

(** A failing call fails with the exception of the conditional mean of
    one of the rows. *)
Lemma imp1matprec_Err h D muest kest vD vmu vk h' e :
  h !! D = Some vD → h !! muest = Some vmu → h !! kest = Some vk → wf vD →
  run (imp1matprec L D muest kest) h = (h', Err e) →
  ∃ j x, mem vD !! j = Some x ∧ cond_mean L vmu vk x = Err e.
Proof.
  intros HD Hm Hk Hwf. rewrite (imp1matprec_run L _ _ _ _ _ _ _ HD Hm Hk).
  pose proof (imp1_iter_spec L vmu vk vD (n_rows vD) 0 vD Hwf eq_refl
                (imp1_inv_init L _ _ _ Hwf)) as Hspec.
  destruct (iter _ _ _ _) as [vd [[]|e']]; simpl; [discriminate|].
  by intros [= _ <-].
Qed.

Lemma imp1_inv_row mu K D d i x :
  imp1_inv L mu K D (n_rows D) d → wf D → mem D !! i = Some x →
  ∃ x', mem d !! i = Some x' ∧ completes L mu K x x'.
Proof.
  intros (_ & _ & _ & _ & Hdone) [Hlen _] Hx. apply Hdone; [|done].
  rewrite <- Hlen. by eapply lookup_lt_Some.
Qed.

(** A completed row with nothing missing is the row. *)
Lemma completes_observed mu K x x' :
  completes L mu K x x' → missing x = [] → x' = x.
Proof.
  intros (xhat & _ & Hlen & _ & Ho) Hm. apply list_eq. intros j.
  destruct (decide (j < length x)) as [Hj|Hj].
  - apply Ho. unfold observed. rewrite (find_nonfinite_nil _ Hm).
    apply elem_of_seq. lia.
  - rewrite !lookup_ge_None_2; [done|lia..].
Qed.

Lemma observed_nil x : missing x = seq 0 (length x) → observed x = [].
Proof.
  intros Hm. apply elem_of_nil_inv. intros j Hj.
  pose proof (find_finite_lt _ _ Hj) as Hlt.
  destruct (find_partition x j Hlt) as [[_ H]|[_ H]]; [|done].
  apply H. unfold missing in Hm. rewrite Hm. apply elem_of_seq. lia.
Qed.

(** With no observed entry the conditional mean is the mean. *)
Lemma cond_mean_all_missing mu K x xhat :
  (∀ y : F, s_sub y s_zero = y) →
  observed x = [] → n_rows mu = length x →
  cond_mean L mu K x = Ok xhat → xhat = col_entries mu.
Proof.
  intros Hsub Ho Hmu. unfold cond_mean. rewrite Ho.
  assert (Hm : missing x = seq 0 (length x)) by (by apply find_finite_nil).
  rewrite Hm. intros H.
  apply bind_Ok in H as (mu_m & Hmu_m & H).
  apply bind_Ok in H as (K_mm & _ & H).
  apply bind_Ok in H as (K_inv & _ & H).
  apply bind_Ok in H as (K_mo & HK_mo & H).
  apply bind_Ok in H as (p & Hp & H).
  apply bind_Ok in H as (mu_o & _ & H).
  apply bind_Ok in H as (dev & _ & H).
  apply bind_Ok in H as (q & Hq & H).
  apply bind_Ok in H as (r & Hr & H). injection H as <-.
  apply elem_Ok in Hmu_m as [_ ->]. apply submat_Ok in HK_mo as [_ ->].
  apply mmul_Ok in Hp as [_ ->]. apply mmul_Ok in Hq as [_ ->].
  apply mzip_Ok in Hr as (Hrows & Hcols & ->). simpl in *.
  rewrite length_seq in Hrows.
  unfold col_entries. simpl. rewrite length_seq, Hmu.
  apply map_ext_in. intros a Ha%in_seq.
  rewrite !entry_mk by lia. unfold dot. simpl.
  rewrite ?entry_mk by lia. rewrite Hsub.
  unfold lin. rewrite Hmu.
  rewrite (list_lookup_total_correct _ _ a) by (apply lookup_seq_lt; lia).
  rewrite Nat.mod_small, Nat.div_small by lia. done.
Qed.

End Imp1Results.

(** ** The correction of the second moment, pass by pass *)

Section Imp2Facts.
Context {F : scalar} (L : numerics F).
Implicit Types (K D : mat F) (x : list F).

Lemma index_of_Some a m p :
  NoDup m → index_of a m = Some p ↔ m !! p = Some a.
Proof.
  intros Hnd. unfold index_of. split.
  - destruct (list_find _ m) as [[p' y]|] eqn:E; simpl; [|discriminate].
    intros [= <-]. apply list_find_Some in E as (Hy & -> & _). done.
  - intros Hp.
    assert (list_find (λ j, j = a) m = Some (p, a)) as ->; [|done].
    apply list_find_Some. split; [done|]. split; [done|].
    intros j y Hy Hlt ->. pose proof (NoDup_lookup _ _ _ _ Hnd Hy Hp). lia.
Qed.

Lemma index_of_None a m : index_of a m = None ↔ a ∉ m.
Proof.
  unfold index_of. rewrite fmap_None, list_find_None, list.Forall_forall.
  split.
  - intros H Hin. by apply (H a).
  - intros H y Hy ->. done.
Qed.

(** The body of the loop adds to each element of [t2] what the row
    contributes to it. *)
Lemma imp2_body_spec K i D (t2 : mat F) x t2' :
  wf D → wf t2 → mem D !! i = Some x →
  imp2_body L K i D t2 = Ok t2' →
  wf t2' ∧ n_rows t2' = n_rows t2 ∧ n_cols t2' = n_cols t2
  ∧ ∀ a b, ∃ c, block_entry L K x a b = Ok c
      ∧ entry t2' a b = from_option (s_add (entry t2 a b)) (entry t2 a b) c.
Proof.
  intros HwfD Hwf Hx. unfold imp2_body, row. rewrite Hx. simpl.
  intros H. apply bind_Ok in H as (K_mm & HK & H).
  apply bind_Ok in H as (K_inv & Hinv & H).
  pose proof H as Hadd. unfold add_submat, inplace_op in Hadd.
  destruct (_ && _) eqn:Hsz; [|discriminate].
  destruct (in_bounds t2 _ _) eqn:Hb; [|discriminate]. clear Hadd.
  destruct (inplace_op_Ok _ _ _ _ _ _ H)
    as (Hr & Hc & Hwf' & _ & Hother & Hhit).
  split; [by apply Hwf'|]. split; [done|]. split; [done|].
  intros a b. unfold block_entry, missing. rewrite HK. simpl. rewrite Hinv.
  simpl. eexists. split; [reflexivity|].
  pose proof (find_from_NoDup (F := F) (λ v, negb (arma_isfinite v)) 0 x)
    as Hnd. fold (find_nonfinite x) in Hnd.
  destruct (index_of a (find_nonfinite x)) as [p|] eqn:Ea; simpl.
  - destruct (index_of b (find_nonfinite x)) as [q|] eqn:Eb; simpl.
    + apply index_of_Some in Ea, Eb; [|done..].
      specialize (Hhit Hnd Hnd p q a b Ea Eb).
      assert (Hne : find_nonfinite x ≠ []) by (by intros E; rewrite E in Ea).
      destruct (wf_at t2 a b Hwf) as [v Hv].
      { eapply in_bounds_rows; [done..|]. by eapply list_elem_of_lookup_2. }
      { eapply in_bounds_cols; [done|]. by eapply list_elem_of_lookup_2. }
      unfold entry at 1 2 3. rewrite Hhit, Hv. done.
    + apply index_of_None in Eb. unfold entry. by rewrite Hother by (by right).
  - apply index_of_None in Ea. unfold entry. by rewrite Hother by (by left).
Qed.

(** The loop of [imp2matprec] on the values. *)
Lemma imp2_iter_spec K D n i (t2 t2' : mat F) :
  wf D → i + n = n_rows D → wf t2 →
  iter (λ j, imp2_body L K j D) i n t2 = (t2', Ok ()) →
  wf t2' ∧ n_rows t2' = n_rows t2 ∧ n_cols t2' = n_cols t2
  ∧ ∀ a b, corrected L K (drop i (mem D)) a b (entry t2 a b)
           = Ok (entry t2' a b).
Proof.
  intros HwfD. revert i t2. induction n as [|n IH]; intros i t2 Hn Hwf; simpl.
  - intros [= <-]. split; [done|]. split; [done|]. split; [done|].
    intros a b. rewrite drop_ge; [done|]. destruct HwfD as [-> _]. lia.
  - destruct (lookup_lt_is_Some_2 (mem D) i) as [x Hx].
    { destruct HwfD as [-> _]. lia. }
    destruct (imp2_body L K i D t2) as [t2m|e] eqn:E; [|discriminate].
    destruct (imp2_body_spec _ _ _ _ _ _ HwfD Hwf Hx E)
      as (Hwfm & Hr & Hc & Hent).
    intros Hit. destruct (IH (S i) t2m ltac:(lia) Hwfm Hit)
      as (Hwf' & Hr' & Hc' & Hent').
    split; [done|]. split; [lia|]. split; [lia|].
    intros a b. rewrite (drop_S _ _ _ Hx). simpl.
    destruct (Hent a b) as (c & -> & Hc0). simpl. rewrite <- Hc0. apply Hent'.
Qed.

(** Elements that no row touches keep their value. *)
Lemma corrected_untouched K rows a b v w :
  (∀ x, x ∈ rows → a ∉ missing x ∨ b ∉ missing x) →
  corrected L K rows a b v = Ok w → w = v.
Proof.
  revert v. induction rows as [|x rows IH]; intros v Hno; simpl.
  - by intros [= <-].
  - intros H. apply bind_Ok in H as (c & Hc & H).
    unfold block_entry in Hc.
    apply bind_Ok in Hc as (K_mm & _ & Hc).
    apply bind_Ok in Hc as (K_inv & _ & Hc). injection Hc as <-.
    assert (index_of a (missing x) ≫=
              (λ p, index_of b (missing x) ≫= λ q, Some (entry K_inv p q))
            = None) as Hnone.
    { destruct (Hno x) as [Ha|Hb]; [left|..].
      - apply index_of_None in Ha. by rewrite Ha.
      - apply index_of_None in Hb. rewrite Hb.
        by destruct (index_of a (missing x)). }
    rewrite Hnone in H. simpl in H. apply IH; [|done].
    intros y Hy. apply Hno. by right.
Qed.

End Imp2Facts.

(** ** The likelihood, term by term *)

Section NllFacts.
Context {F : scalar} (L : numerics F).
Implicit Types (mu S : mat F) (x : list F) (h : heap F).

(** The term of the loop at [i] is the term of the row. *)
Lemma nll_term_eq mu S (D : mat F) i x :
  wf D → mem D !! i = Some x → nll_term L D mu S i = nll_row L mu S x.
Proof.
  intros Hwf Hx. unfold nll_term, nll_row, row, observed. rewrite Hx. simpl.
  destruct (submat S (find_finite x) (find_finite x)) as [s_oo|];
    simpl; [|done].
  destruct (det L s_oo) as [dt|]; simpl; [|done].
  rewrite (submat_row _ _ _ _ Hwf Hx) by apply find_finite_lt. simpl.
  destruct (elem mu (find_finite x)) as [mu_o|]; simpl; [|done].
  rewrite t_rowvec.
  destruct (msub _ mu_o) as [dev|] eqn:Edev; simpl; [|done].
  destruct (inv L s_oo) as [s_inv|]; simpl; [|done].
  destruct (mmul (t dev) s_inv) as [p|] eqn:Ep; simpl; [|done].
  destruct (mmul p dev) as [q|] eqn:Eq; simpl; [|done].
  apply mzip_Ok in Edev as (_ & _ & Edev).
  apply mmul_Ok in Ep as (_ & Ep). apply mmul_Ok in Eq as (_ & Eq).
  assert (n_rows q = 1 ∧ n_cols q = 1) as [Hr Hc].
  { rewrite Eq, Ep, Edev. done. }
  unfold mmap. simpl. rewrite Hr, Hc.
  rewrite at_mk by lia. simpl. rewrite !entry_mk by lia. done.
Qed.

Lemma iter_sum_rows mu S (D : mat F) n i acc :
  wf D → i + n = n_rows D →
  iter_sum (nll_term L D mu S) i n acc = nll_sum L mu S (drop i (mem D)) acc.
Proof.
  intros Hwf. revert i acc. induction n as [|n IH]; intros i acc Hn; simpl.
  - rewrite drop_ge; [done|]. destruct Hwf as [-> _]. lia.
  - destruct (lookup_lt_is_Some_2 (mem D) i) as [x Hx].
    { destruct Hwf as [-> _]. lia. }
    rewrite (drop_S _ _ _ Hx), (nll_term_eq _ _ _ _ _ Hwf Hx). simpl.
    destruct (nll_row L mu S x); simpl; [|done]. apply IH. lia.
Qed.

(** What [nllprec] returns is the sum the specification describes. *)
Lemma nllprec_result h D muest kest vD vmu vk :
  h !! D = Some vD → h !! muest = Some vmu → h !! kest = Some vk → wf vD →
  (run (nllprec L D muest kest) h).2 = nll_spec L vmu vk (mem vD).
Proof.
  intros HD Hm Hk Hwf. rewrite (nllprec_run L _ _ _ _ _ _ _ HD Hm Hk).
  unfold nll_spec. destruct (inv L vk) as [kinv|e]; simpl; [|done].
  by rewrite iter_sum_rows.
Qed.

(** A row with no observed entry has the term zero. *)
Lemma nll_row_unobserved mu S x :
  la_det L (Mat 0 0 []) = Some (s_of_nat 1) →
  la_inv L (Mat 0 0 []) = Some (Mat 0 0 []) →
  m_log L (s_of_nat 1) = s_zero →
  s_add (s_zero : F) s_zero = s_zero →
  s_mul (s_of_nat 0) (m_log L (s_mul (s_of_nat 2) (datum_pi L))) = s_zero →
  s_mul (s_half : F) s_zero = s_zero →
  observed x = [] → nll_row L mu S x = Ok s_zero.
Proof.
  intros Hdet Hinv Hlog Hadd Hmul Hhalf Ho. unfold nll_row. rewrite Ho.
  unfold submat, elem, msub, mzip, det, inv, mmul. simpl.
  change (mk 0 0 _) with (@Mat F 0 0 []).
  rewrite Hdet, Hinv. simpl. unfold dot. simpl.
  rewrite entry_mk by lia.
  rewrite Hlog, Hmul, !Hadd, Hhalf. done.
Qed.

(** The running sum through the rows of a concatenation. *)
Lemma nll_sum_continue mu S rows1 rows2 acc :
  nll_sum L mu S (rows1 ++ rows2) acc
  = (a ← nll_sum L mu S rows1 acc; nll_sum L mu S rows2 a).
Proof.
  revert acc. induction rows1 as [|x rows1 IH]; intros acc; simpl; [done|].
  destruct (nll_row L mu S x) as [v|e]; simpl; [apply IH|done].
Qed.

(** The running sum returns when every row has a term, and then what it
    returns is the start with the terms added one by one, from the
    left. *)
Lemma nll_sum_terms mu S rows acc r :
  nll_sum L mu S rows acc = Ok r
  ↔ ∃ ts, Forall2 (λ x v, nll_row L mu S x = Ok v) rows ts
      ∧ r = foldl s_add acc ts.
Proof.
  revert acc. induction rows as [|x rows IH]; intros acc; simpl.
  - split.
    + intros [= <-]. exists []. by split; [constructor|].
    + intros (ts & Hts & ->). by apply Forall2_nil_inv_l in Hts as ->.
  - destruct (nll_row L mu S x) as [v|e] eqn:Ev; simpl.
    + rewrite IH. split.
      * intros (ts & Hts & ->). exists (v :: ts). by split; [constructor|].
      * intros (ts & Hts & ->).
        apply Forall2_cons_inv_l in Hts as (v' & ts' & Hv & Hts & ->).
        rewrite Ev in Hv. injection Hv as <-. by exists ts'.
    + split; [done|]. intros (ts & Hts & _).
      apply Forall2_cons_inv_l in Hts as (v' & ts' & Hv & _).
      by rewrite Ev in Hv.
Qed.

(** With an addition that is associative and commutative and has zero as
    unit, as in exact arithmetic, the sum over a concatenation is the sum
    of the sums, and the order of the rows does not matter. *)
Section Sums.
Hypothesis add_assoc : ∀ a b c : F, s_add a (s_add b c) = s_add (s_add a b) c.
Hypothesis add_comm : ∀ a b : F, s_add a b = s_add b a.
Hypothesis add_0_l : ∀ a : F, s_add s_zero a = a.

Lemma nll_sum_shift mu S rows acc c :
  nll_sum L mu S rows (s_add acc c) = s_add acc <$> nll_sum L mu S rows c.
Proof.
  revert c. induction rows as [|x rows IH]; intros c; simpl; [done|].
  destruct (nll_row L mu S x) as [v|e]; simpl; [|done].
  by rewrite <- add_assoc, IH.
Qed.

Lemma nll_sum_app mu S rows1 rows2 a b :
  nll_sum L mu S rows1 s_zero = Ok a → nll_sum L mu S rows2 s_zero = Ok b →
  nll_sum L mu S (rows1 ++ rows2) s_zero = Ok (s_add a b).
Proof.
  intros H1 H2.
  assert (Hgen : ∀ acc r, nll_sum L mu S rows1 acc = Ok r →
            nll_sum L mu S (rows1 ++ rows2) acc = nll_sum L mu S rows2 r).
  { clear H1. induction rows1 as [|x rows1 IH]; intros acc r; simpl.
    - by intros [= <-].
    - destruct (nll_row L mu S x) as [v|e]; simpl; [|discriminate]. apply IH. }
  rewrite (Hgen _ _ H1).
  rewrite <- (add_0_l a), (add_comm s_zero a), nll_sum_shift, H2. simpl.
  by rewrite (add_comm a s_zero), add_0_l.
Qed.

Lemma nll_sum_perm mu S rows rows' acc :
  rows ≡ₚ rows' → nll_sum L mu S rows acc = nll_sum L mu S rows' acc
  ∨ (is_Ok (nll_sum L mu S rows acc) = false
     ∧ is_Ok (nll_sum L mu S rows' acc) = false).
Proof.
  intros Hp. revert acc.
  induction Hp as [|x l l' Hp IH|x y l|l l' l'' Hp1 IH1 Hp2 IH2]; intros acc;
    simpl.
  - by left.
  - destruct (nll_row L mu S x) as [v|e]; simpl; [apply IH|by left].
  - destruct (nll_row L mu S y) as [vy|ey]; simpl;
      destruct (nll_row L mu S x) as [vx|ex]; simpl; try (by left);
      try (by right).
    left. f_equal. rewrite <- !add_assoc. f_equal. apply add_comm.
  - destruct (IH1 acc) as [->|[H1 H1']]; [apply IH2|].
    destruct (IH2 acc) as [<-|[H2 H2']]; [by right|by right].
Qed.

End Sums.

End NllFacts.

(** ** One cycle, statement by statement *)

Section CycleFacts.
Context {F : scalar} (L : numerics F).
Implicit Types (h : heap F).

Lemma run_alloc h (v : mat F) : run (alloc v) h = (h ++ [v], Ok (length h)).
Proof. reflexivity. Qed.

Lemma run_lift {A} h (r : result A) : run (lift r) h = (h, r).
Proof. reflexivity. Qed.

Lemma run_ret {A} h (a : A) : run (mret a : M F A) h = (h, Ok a).
Proof. reflexivity. Qed.

Lemma lookup_ext0 h (ext : list (mat F)) v :
  ext !! 0 = Some v → (h ++ ext) !! length h = Some v.
Proof. intros. by apply (lookup_ext _ _ _ 0); [lia|]. Qed.

Lemma lookup_extk h (ext : list (mat F)) k v :
  ext !! k = Some v → (h ++ ext) !! (length h + k) = Some v.
Proof. intros. by apply (lookup_ext _ _ _ k). Qed.

Ltac solve_lookup :=
  first [ eassumption
        | apply lookup_ext0; reflexivity
        | apply lookup_extk; reflexivity
        | apply lookup_app_l_Some; eassumption ].

Ltac heap_norm :=
  rewrite <- ?(assoc_L (++)); simpl app; rewrite ?length_app; simpl length.

Ltac run_step :=
  first [ rewrite run_bind
        | rewrite run_alloc; heap_norm
        | rewrite run_lift
        | rewrite run_ret
        | erewrite run_load by solve_lookup ];
  cbv beta iota.

Lemma EMcycleprec_Ok h D muest kest vD vmu vk h' o :
  h !! D = Some vD → h !! muest = Some vmu → h !! kest = Some vk → wf vD →
  run (EMcycleprec L D muest kest) h = (h', Ok o) →
  ∃ dimp T2 newS newK,
    let N := n_rows vD in
    let P := n_cols vD in
    let t1 := mk P 1 (λ r c, dot (t dimp) r (ones N) c) in
    let newmu := div_by N t1 in
    run (imp1matprec L D muest kest) h = (h ++ [dimp], Ok (length h))
    ∧ imp1_inv L vmu vk vD N dimp
    ∧ iter (λ i, imp2_body L vk i vD) 0 N
           (mk P P (λ r c, dot (t dimp) r dimp c)) = (T2, Ok ())
    ∧ msub (div_by N T2) (mk P P (λ r c, dot newmu r (t newmu) c)) = Ok newS
    ∧ inv L newS = Ok newK
    ∧ h' = h ++ [dimp; ones N; t1; T2; vD; newmu; newS; newK]
    ∧ o = EmOut (length h + 5) (length h + 6) (length h + 7).
Proof.
  intros HD Hm Hk Hwf. unfold EMcycleprec.
  rewrite run_bind.
  destruct (run (imp1matprec L D muest kest) h) as [h1 [d|e]] eqn:E1;
    [|discriminate].
  destruct (imp1matprec_Ok L _ _ _ _ _ _ _ _ _ HD Hm Hk Hwf E1)
    as (dimp & -> & -> & Hinv).
  pose proof Hinv as (Hwfd & Hrd & Hcd & _).
  do 4 run_step.
  do 6 run_step.
  unfold mmul at 1. simpl n_cols. simpl n_rows. rewrite Nat.eqb_refl.
  cbv beta iota.
  do 5 run_step.
  unfold mmul at 1. simpl n_cols. simpl n_rows. rewrite Nat.eqb_refl.
  cbv beta iota. do 4 run_step.
  set (gram := mk (n_cols dimp) (n_cols dimp) (λ r c, dot (t dimp) r dimp c)).
  set (t1 := mk (n_cols dimp) 1 (λ r c, dot (t dimp) r (ones (n_rows dimp)) c)).
  rewrite (imp2matprec_run L D kest (length h + 3) _ vD vk gram);
    [|solve_lookup..|apply lookup_lt_Some in Hk; lia].
  destruct (iter _ _ _ gram) as [T2 [[]|e]] eqn:E2; [|discriminate].
  cbv beta iota. cbn [fst snd].
  heap_norm. rewrite insert_app_r.
  change (<[3:=?x]> [?a;?b;?c;?d;?e]) with [a;b;c;x;e].
  do 3 run_step.
  do 5 run_step.
  do 2 run_step.
  set (newmu := div_by (n_rows dimp) t1).
  assert (Hmm : mmul newmu (t newmu)
                = Ok (mk (n_cols dimp) (n_cols dimp)
                        (λ r c, dot newmu r (t newmu) c))) by reflexivity.
  rewrite Hmm. cbn [mbind result_bind].
  destruct (msub (div_by (n_rows dimp) T2) _) as [newS|e] eqn:E3;
    [|discriminate].
  cbv beta iota. do 2 run_step.
  do 4 run_step.
  destruct (inv L newS) as [newK|e] eqn:E4; [|discriminate].
  cbv beta iota. do 2 run_step.
  intros [= <- <-].
  exists dimp, T2, newS, newK. cbv zeta.
  subst newmu t1 gram. rewrite ?Hcd in E2. rewrite ?Hrd, ?Hcd in E3.
  rewrite ?Hrd, ?Hcd. done.
Qed.


Lemma dot_t_ones (A : mat F) j :
  (∀ a : F, s_mul a (s_of_nat 1) = a) → j < n_cols A →
  dot (t A) j (ones (n_rows A)) 0 = col_sum A j.
Proof.
  intros Hmul Hj. unfold dot, col_sum. simpl n_cols.
  apply foldl_seq_ext. intros acc k Hk.
  unfold t, ones. rewrite !entry_mk by lia. by rewrite Hmul.
Qed.

Lemma dot_t_self (A : mat F) j k :
  j < n_cols A → dot (t A) j A k = gram A j k.
Proof.
  intros Hj. unfold dot, gram. simpl n_cols.
  apply foldl_seq_ext. intros acc i Hi.
  unfold t. by rewrite entry_mk by lia.
Qed.

(** An element of the product of a column by its transpose: a sum of
    one term. *)
Lemma dot_outer_term (v : mat F) j k :
  n_cols v = 1 → k < n_rows v →
  dot v j (t v) k = s_add s_zero (s_mul (entry v j 0) (entry v k 0)).
Proof.
  intros Hc Hk. unfold dot. rewrite Hc. simpl.
  unfold t. by rewrite entry_mk by lia.
Qed.

End CycleFacts.

(** ** What the functions write *)

Section Frames.
Context {F : scalar} (L : numerics F).
Implicit Types (h : heap F).

Ltac modifies_reads :=
  repeat first
    [ apply modifies_load | apply modifies_lift | apply modifies_alloc
    | apply modifies_ret | apply modifies_copy
    | (apply modifies_bind_same; [|intros ?]) ].

Lemma imp1_pass_modifies d muest kest i :
  modifies (λ l, l = d) (imp1_pass L d muest kest i).
Proof. unfold imp1_pass. modifies_reads. by apply modifies_store. Qed.

Lemma imp2_pass_modifies d kest t2 i :
  modifies (λ l, l = t2) (imp2_pass L d kest t2 i).
Proof. unfold imp2_pass. modifies_reads. by apply modifies_store. Qed.

Lemma nll_pass_modifies W d muest kinv i acc :
  modifies W (nll_pass L d muest kinv i acc).
Proof. unfold nll_pass. modifies_reads. Qed.

(** [imp1matprec] writes only the matrix it has allocated. *)
Lemma imp1matprec_modifies D muest kest :
  modifies (λ _, False) (imp1matprec L D muest kest).
Proof.
  unfold imp1matprec. apply (modifies_bind _ (λ d l, l = d)).
  - apply modifies_copy.
  - intros d. modifies_reads. apply modifies_for_loop.
    intros i. apply imp1_pass_modifies.
  - intros h h1 d l Hrun Hl ->. apply copy_new in Hrun. lia.
Qed.

(** The matrix [imp1matprec] returns is a new one. *)
Lemma imp1matprec_new D muest kest h h' d :
  run (imp1matprec L D muest kest) h = (h', Ok d) →
  d = length h ∧ length h < length h'.
Proof.
  unfold imp1matprec. rewrite run_bind.
  destruct (run (Mat_aux_mem D true) h) as [h1 [d0|e]] eqn:E; [|discriminate].
  pose proof (copy_new _ _ _ _ E) as ->.
  assert (Hh1 : length h < length h1).
  { revert E. unfold Mat_aux_mem, run, mbind, M_bind, load, alloc.
    destruct (h !! D); simpl; [|discriminate]. intros [= <-].
    rewrite length_app. simpl. lia. }
  assert (Hrest : modifies (λ l, l = length h)
            (vd ← load (length h);
             for_loop 0 (n_rows vd) (imp1_pass L (length h) muest kest);;
             mret (length h))).
  { modifies_reads. apply modifies_for_loop. intros i.
    apply imp1_pass_modifies. }
  intros Hrun. pose proof (Hrest _ _ _ Hrun) as [Hlen _].
  revert Hrun. rewrite run_bind.
  destruct (run (load (length h)) h1) as [h2 [vd|e]]; [|discriminate].
  rewrite run_bind.
  destruct (run (for_loop _ _ _) h2) as [h3 [[]|e]]; [|discriminate].
  intros [= _ <-]. split; [done|lia].
Qed.

(** [imp2matprec] writes only [t2] and the copy of [D] it has allocated. *)
Lemma imp2matprec_modifies D kest t2 :
  modifies (λ l, l = t2) (imp2matprec L D kest t2).
Proof.
  unfold imp2matprec. modifies_reads. apply modifies_for_loop.
  intros i. apply imp2_pass_modifies.
Qed.

Lemma nllprec_modifies D muest kest :
  modifies (λ _, False) (nllprec L D muest kest).
Proof.
  unfold nllprec. modifies_reads. apply modifies_for_fold.
  intros i acc. apply nll_pass_modifies.
Qed.

Lemma EMcycleprec_modifies D muest kest :
  modifies (λ _, False) (EMcycleprec L D muest kest).
Proof.
  unfold EMcycleprec.
  apply modifies_bind_same; [apply imp1matprec_modifies|]. intros dimp.
  apply modifies_bind_same; [apply modifies_load|]. intros vdimp.
  apply modifies_bind_same; [apply modifies_alloc|]. intros ones.
  apply modifies_bind_same; [modifies_reads|]. intros t1.
  apply (modifies_bind _ (λ t2 l, l = t2)).
  - modifies_reads.
  - intros t2. apply modifies_bind_same; [apply imp2matprec_modifies|].
    intros _. modifies_reads.
  - intros h h1 t2 l. unfold run, mbind, M_bind, load, lift, alloc.
    destruct (h !! dimp); simpl; [|discriminate].
    destruct (mmul _ _); simpl; [|discriminate].
    intros [= _ <-]. lia.
Qed.

End Frames.

(** ** Non-finite binary64 values *)

Section IEEEFacts.

Lemma SFeqb_refl_false s : SFeqb s s = false → s = S754_nan.
Proof.
  destruct s as [b|b| |b m e]; unfold SFeqb, SFcompare;
    try (destruct b; discriminate); try reflexivity.
  rewrite Z.compare_refl, Pos.compare_cont_refl. destruct b; discriminate.
Qed.

Lemma is_nan_iff (v : float) : PrimFloat.is_nan v = true ↔ v = nan.
Proof.
  unfold PrimFloat.is_nan. split.
  - intros H. apply negb_true_iff in H. rewrite FloatAxioms.eqb_spec in H.
    apply SFeqb_refl_false in H. apply Prim2SF_inj. by rewrite H.
  - by intros ->.
Qed.

Lemma is_infinity_iff (v : float) :
  PrimFloat.is_infinity v = true ↔ v = infinity ∨ v = neg_infinity.
Proof.
  unfold PrimFloat.is_infinity. rewrite FloatAxioms.eqb_spec, abs_spec. split.
  - intros H. destruct (Prim2SF v) as [b|b| |b m e] eqn:E; simpl in H;
      try discriminate.
    destruct b; [right|left]; apply Prim2SF_inj; by rewrite E.
  - by intros [-> | ->].
Qed.

(** [std::isfinite] is false at NaN and at the two infinities only. *)
Lemma not_finite_iff (v : IEEE) :
  arma_isfinite v = false ↔ v = nan ∨ v = infinity ∨ v = neg_infinity.
Proof.
  change (arma_isfinite v) with (PrimFloat.is_finite v).
  unfold PrimFloat.is_finite. rewrite negb_false_iff, orb_true_iff.
  rewrite is_nan_iff, is_infinity_iff. tauto.
Qed.

(** The mantissa of one is [2^52]: the product of a mantissa by it has 52
    digits more, and the shift by 52 digits gives the mantissa back with
    nothing lost. *)
Lemma digits2_pos_shift m :
  Z.pos (digits2_pos (m * 4503599627370496)) = (Z.pos (digits2_pos m) + 52)%Z.
Proof.
  rewrite Pos.mul_comm. simpl digits2_pos. rewrite Pos.mul_1_l.
  generalize (digits2_pos m) as d. intros d.
  change PosDef.Pos.succ with Pos.succ. lia.
Qed.

Lemma shr_52 m :
  SpecFloat.iter_pos shr_1 52
    {| shr_m := Z.pos (m * 4503599627370496); shr_r := false; shr_s := false |}
  = {| shr_m := Z.pos m; shr_r := false; shr_s := false |}.
Proof. rewrite Pos.mul_comm. simpl. by rewrite Pos.mul_1_l. Qed.

(** The product of a valid binary64 number by one, as the specification
    of the kernel's floats computes it. *)
Lemma SF64mul_1_r s :
  valid_binary s = true →
  SF64mul s (S754_finite false 4503599627370496 (-52)) = s.
Proof.
  destruct s as [b|b| |b m e]; simpl; intros Hv;
    rewrite ?xorb_false_r; try reflexivity.
  apply andb_prop in Hv as [Hc He].
  unfold canonical_mantissa in Hc. apply Z.eqb_eq in Hc.
  unfold binary_round_aux, shr_fexp. cbn [Zdigits2].
  rewrite digits2_pos_shift.
  replace (Z.pos (digits2_pos m) + 52 + (e + -52))%Z
    with (Z.pos (digits2_pos m) + e)%Z by lia.
  rewrite Hc.
  replace (e - (e + -52))%Z with 52%Z by lia.
  cbn [shr shr_record_of_loc]. rewrite shr_52.
  cbn [shr_m loc_of_shr_record round_nearest_even Zdigits2].
  replace (e + -52 + 52)%Z with e by lia.
  rewrite Hc, Z.sub_diag. cbn [shr shr_m]. by rewrite He.
Qed.

(** Multiplication by one is exact. *)
Lemma float_mul_1_r (a : IEEE) : s_mul a (s_of_nat 1) = a.
Proof.
  change (a * 1 = a)%float.
  apply Prim2SF_inj. rewrite mul_spec.
  change (Prim2SF 1) with (S754_finite false 4503599627370496 (-52)).
  apply SF64mul_1_r, Prim2SF_valid.
Qed.

End IEEEFacts.

(** ** When imputation fails *)

Section Failures.
Context {F : scalar} (L : numerics F).
Implicit Types (mu K : mat F) (x : list F) (h : heap F).

Lemma submat_intro (A : mat F) ri ci :
  in_bounds A ri ci = true →
  submat A ri ci
  = Ok (mk (length ri) (length ci) (λ a b, entry A (ri !!! a) (ci !!! b))).
Proof. intros H. unfold submat. by rewrite H. Qed.

Lemma elem_intro (A : mat F) idx :
  (∀ k, k ∈ idx → k < n_rows A * n_cols A) →
  elem A idx = Ok (mk (length idx) 1 (λ a _, lin A (idx !!! a))).
Proof.
  intros H. unfold elem. replace (forallb _ idx) with true; [done|].
  symmetry. apply forallb_forall. intros k Hk. apply Nat.ltb_lt, H.
  by apply list_elem_of_In.
Qed.

Lemma mmul_intro (A B : mat F) :
  n_cols A = n_rows B →
  mmul A B = Ok (mk (n_rows A) (n_cols B) (λ r c, dot A r B c)).
Proof. intros H. unfold mmul. by rewrite H, Nat.eqb_refl. Qed.

Lemma mzip_intro op (A B : mat F) :
  n_rows A = n_rows B → n_cols A = n_cols B →
  mzip op A B
  = Ok (mk (n_rows A) (n_cols A) (λ r c, op (entry A r c) (entry B r c))).
Proof. intros H1 H2. unfold mzip. by rewrite H1, H2, !Nat.eqb_refl. Qed.

(** With sizes that fit, the conditional mean of a row fails only where
    the library fails to invert [K_mm], and then with its runtime error. *)
Lemma cond_mean_valid mu K x :
  n_rows mu = length x → n_cols mu = 1 →
  n_rows K = length x → n_cols K = length x → inv_keeps_shape L →
  ∃ K_mm, submat K (missing x) (missing x) = Ok K_mm
    ∧ match la_inv L K_mm with
      | Some _ => is_Ok (cond_mean L mu K x) = true
      | None => cond_mean L mu K x = Err runtime_error
      end.
Proof.
  intros Hmr Hmc Hkr Hkc Hshape. unfold cond_mean, missing, observed.
  pose proof (find_nonfinite_lt x) as Hm. pose proof (find_finite_lt x) as Ho.
  rewrite (elem_intro mu (find_nonfinite x)) 
    by (rewrite Hmr, Hmc; intros k Hk; specialize (Hm k Hk); lia).
  rewrite (submat_intro K (find_nonfinite x) (find_nonfinite x))
    by (apply in_bounds_true; intros ??; rewrite ?Hkr, ?Hkc; auto).
  eexists. split; [reflexivity|]. simpl.
  unfold inv. simpl. rewrite Nat.eqb_refl.
  destruct (la_inv L _) as [Ki|] eqn:Ei; simpl; [|done].
  apply Hshape in Ei as [Hr Hc]; [|reflexivity]. simpl in Hr, Hc.
  rewrite (submat_intro K (find_nonfinite x) (find_finite x))
    by (apply in_bounds_true; intros ??; rewrite ?Hkr, ?Hkc; auto).
  cbn [mbind result_bind]. rewrite mmul_intro by (simpl; lia).
  cbn [mbind result_bind].
  rewrite (elem_intro mu (find_finite x))
    by (rewrite Hmr, Hmc; intros k Hk; specialize (Ho k Hk); lia).
  cbn [mbind result_bind]. unfold msub.
  rewrite mzip_intro by (simpl; rewrite ?length_pick; lia).
  cbn [mbind result_bind].
  rewrite mmul_intro by (simpl; rewrite ?length_pick; lia).
  cbn [mbind result_bind]. rewrite mzip_intro by (simpl; lia). done.
Qed.

(** *** Sizes that do not fit *)

Lemma iter_ext_inv {X} (Inv : X → Prop) (step step' : nat → X → result X) :
  (∀ i (s : X), Inv s → step i s = step' i s) →
  (∀ i (s s' : X), Inv s → step' i s = Ok s' → Inv s') →
  ∀ n i (s : X), Inv s → iter step i n s = iter step' i n s.
Proof.
  intros Heq Hpres. induction n as [|n IH]; intros i s HI; simpl; [done|].
  rewrite (Heq _ _ HI). destruct (step' i s) as [s'|e] eqn:E; [|done].
  apply IH. by eapply Hpres.
Qed.

Lemma elem_agree mu mu' idx P :
  n_rows mu = P → n_cols mu = 1 → P ≤ n_rows mu' → n_cols mu' = 1 →
  agree_on P 1 mu mu' → (∀ k, k ∈ idx → k < P) →
  elem mu' idx = elem mu idx.
Proof.
  intros Hr Hc Hr' Hc' Hag Hidx.
  rewrite !elem_intro
    by (intros k Hk; specialize (Hidx k Hk); rewrite ?Hr, ?Hc, ?Hc'; lia).
  f_equal. apply mk_ext. intros a b Ha _.
  destruct (lookup_lt_is_Some_2 idx a Ha) as [k Hk].
  rewrite (list_lookup_total_correct _ _ _ Hk).
  pose proof (Hidx k (list_elem_of_lookup_2 _ _ _ Hk)) as Hlt.
  unfold lin. rewrite !Nat.mod_small, !Nat.div_small by lia.
  symmetry. apply Hag; lia.
Qed.

Lemma submat_agree K K' ri ci P :
  n_rows K = P → n_cols K = P → P ≤ n_rows K' → P ≤ n_cols K' →
  agree_on P P K K' →
  (∀ r, r ∈ ri → r < P) → (∀ c, c ∈ ci → c < P) →
  submat K' ri ci = submat K ri ci.
Proof.
  intros Hr Hc Hr' Hc' Hag Hri Hci.
  rewrite !submat_intro
    by (apply in_bounds_true; intros k Hk;
        [specialize (Hri k Hk)|specialize (Hci k Hk)]; lia).
  f_equal. apply mk_ext. intros a b Ha Hb.
  destruct (lookup_lt_is_Some_2 ri a Ha) as [r Hr0].
  destruct (lookup_lt_is_Some_2 ci b Hb) as [c Hc0].
  rewrite (list_lookup_total_correct _ _ _ Hr0),
    (list_lookup_total_correct _ _ _ Hc0).
  symmetry. apply Hag.
  - apply Hri. by eapply list_elem_of_lookup_2.
  - apply Hci. by eapply list_elem_of_lookup_2.
Qed.

(** Entries of [μ] and [K] beyond the columns of the row are not read. *)
Lemma cond_mean_agree mu K mu' K' x :
  n_rows mu = length x → n_cols mu = 1 →
  n_rows K = length x → n_cols K = length x →
  length x ≤ n_rows mu' → n_cols mu' = 1 →
  length x ≤ n_rows K' → length x ≤ n_cols K' →
  agree_on (length x) 1 mu mu' → agree_on (length x) (length x) K K' →
  cond_mean L mu' K' x = cond_mean L mu K x.
Proof.
  intros Hmr Hmc Hkr Hkc Hmr' Hmc' Hkr' Hkc' Hamu HaK.
  unfold cond_mean, missing, observed.
  pose proof (find_nonfinite_lt x) as Hm. pose proof (find_finite_lt x) as Ho.
  rewrite (elem_agree mu mu' (find_nonfinite x) (length x)) by done.
  rewrite (elem_agree mu mu' (find_finite x) (length x)) by done.
  rewrite (submat_agree K K' (find_nonfinite x) (find_nonfinite x) (length x))
    by done.
  rewrite (submat_agree K K' (find_nonfinite x) (find_finite x) (length x))
    by done.
  done.
Qed.

Lemma imp1_body_keeps mu K i d d' :
  wf d → imp1_body L mu K i d = Ok d' → wf d' ∧ n_cols d' = n_cols d.
Proof.
  intros Hwf Hb. destruct (mem d !! i) as [x|] eqn:Hx.
  - rewrite (imp1_body_eq L _ _ _ _ _ Hwf Hx) in Hb.
    apply bind_Ok in Hb as (xhat & _ & Hset).
    destruct (inplace_op_Ok _ _ _ _ _ _ Hset) as (_ & Hc & Hwf' & _).
    auto.
  - unfold imp1_body, row in Hb. by rewrite Hx in Hb.
Qed.

Lemma imp1_iter_agree mu K mu' K' (D : mat F) n i :
  wf D →
  n_rows mu = n_cols D → n_cols mu = 1 →
  n_rows K = n_cols D → n_cols K = n_cols D →
  n_cols D ≤ n_rows mu' → n_cols mu' = 1 →
  n_cols D ≤ n_rows K' → n_cols D ≤ n_cols K' →
  agree_on (n_cols D) 1 mu mu' → agree_on (n_cols D) (n_cols D) K K' →
  iter (imp1_body L mu' K') i n D = iter (imp1_body L mu K) i n D.
Proof.
  intros Hwf Hmr Hmc Hkr Hkc Hmr' Hmc' Hkr' Hkc' Hamu HaK.
  apply (iter_ext_inv (λ d, wf d ∧ n_cols d = n_cols D)); [| |done].
  - intros j d [Hwfd Hcd]. destruct (mem d !! j) as [x|] eqn:Hx.
    + rewrite !(imp1_body_eq L _ _ _ _ _ Hwfd Hx).
      pose proof (wf_row_length _ _ _ Hwfd Hx) as Hlen.
      rewrite Hcd in Hlen. rewrite <- Hlen in *.
      by rewrite (cond_mean_agree mu K mu' K').
    + unfold imp1_body, row. by rewrite Hx.
  - intros j d d' [Hwfd Hcd] Hb.
    destruct (imp1_body_keeps _ _ _ _ _ Hwfd Hb) as [Hwf' Hc']. split; [done|].
    congruence.
Qed.

(** A conditional mean that is computed has read every entry of [μ] and
    every column of [K] up to the length of the row. *)
Lemma cond_mean_needs mu K x xhat k :
  cond_mean L mu K x = Ok xhat → k < length x →
  k < n_rows mu * n_cols mu ∧ k < n_cols K.
Proof.
  unfold cond_mean. intros H Hk.
  apply bind_Ok in H as (mu_m & Hmu_m & H).
  apply bind_Ok in H as (K_mm & HK_mm & H).
  apply bind_Ok in H as (K_inv & _ & H).
  apply bind_Ok in H as (K_mo & HK_mo & H).
  apply bind_Ok in H as (p & _ & H).
  apply bind_Ok in H as (mu_o & Hmu_o & _).
  apply elem_Ok in Hmu_m as [Hm1 _]. apply elem_Ok in Hmu_o as [Ho1 _].
  apply submat_Ok in HK_mm as [Hm2 _]. apply submat_Ok in HK_mo as [Ho2 _].
  destruct (find_partition x k Hk) as [[Hin _]|[Hin _]].
  - split; [by apply Ho1|]. exact (in_bounds_cols _ _ _ _ Ho2 Hin).
  - split; [by apply Hm1|]. exact (in_bounds_cols _ _ _ _ Hm2 Hin).
Qed.

End Failures.

(** ** The exceptions of a conditional mean *)

Section Kinds.
Context {F : scalar} (L : numerics F).
Implicit Types (mu K : mat F) (x : list F) (h : heap F).

Lemma elem_Err (A : mat F) idx e : elem A idx = Err e → e = out_of_range.
Proof. unfold elem. destruct (forallb _ _); [done|]. by intros [= <-]. Qed.

Lemma submat_Err (A : mat F) ri ci e :
  submat A ri ci = Err e → e = out_of_range.
Proof. unfold submat. destruct (in_bounds _ _ _); [done|]. by intros [= <-]. Qed.

(** The exceptions of a conditional mean: an index out of bounds, or
    the runtime error of the inversion of [K_mm]. *)
Lemma cond_mean_error_kind mu K x e :
  inv_keeps_shape L → cond_mean L mu K x = Err e →
  e = out_of_range
  ∨ (e = runtime_error
     ∧ ∃ K_mm, submat K (missing x) (missing x) = Ok K_mm
         ∧ la_inv L K_mm = None).
Proof.
  intros Hshape. unfold cond_mean.
  destruct (elem mu (missing x)) as [mu_m|e1] eqn:E1; simpl.
  2:{ intros [= <-]. left. by eapply elem_Err. }
  apply elem_Ok in E1 as [_ ->].
  destruct (submat K (missing x) (missing x)) as [K_mm|e2] eqn:E2; simpl.
  2:{ intros [= <-]. left. by eapply submat_Err. }
  pose proof E2 as E2'. apply submat_Ok in E2' as [_ HK].
  unfold inv. rewrite HK at 1 2. simpl n_rows. simpl n_cols.
  rewrite Nat.eqb_refl.
  destruct (la_inv L K_mm) as [Ki|] eqn:Ei; simpl.
  2:{ intros [= <-]. right. split; [done|]. by exists K_mm. }
  apply Hshape in Ei as [Hr Hc]; [|by rewrite HK].
  rewrite HK in Hr, Hc. simpl in Hr, Hc.
  destruct (submat K (missing x) (observed x)) as [K_mo|e3] eqn:E3; simpl.
  2:{ intros [= <-]. left. by eapply submat_Err. }
  apply submat_Ok in E3 as [_ ->].
  rewrite mmul_intro by (simpl; lia). cbn [mbind result_bind].
  destruct (elem mu (observed x)) as [mu_o|e4] eqn:E4; simpl.
  2:{ intros [= <-]. left. by eapply elem_Err. }
  apply elem_Ok in E4 as [_ ->].
  unfold msub. rewrite mzip_intro by (simpl; rewrite ?length_pick; lia).
  cbn [mbind result_bind].
  rewrite mmul_intro by (simpl; rewrite ?length_pick; lia).
  cbn [mbind result_bind]. rewrite mzip_intro by (simpl; lia).
  discriminate.
Qed.

End Kinds.

(** ** The exact instance satisfies the laws the claims assume *)

Module ExactFacts.
Import Exact.

Lemma sub_0_r (y : Qx) : s_sub y s_zero = y.
Proof.
  destruct y as [q|]; [|done].
  change (Fin (q - 0)%Qc = Fin q). f_equal. ring.
Qed.

Lemma add_assoc (a b c : Qx) : s_add a (s_add b c) = s_add (s_add a b) c.
Proof.
  destruct a as [x|], b as [y|], c as [z|]; try done.
  change (Fin (x + (y + z))%Qc = Fin (x + y + z)%Qc). f_equal. ring.
Qed.

Lemma add_comm (a b : Qx) : s_add a b = s_add b a.
Proof.
  destruct a as [x|], b as [y|]; try done.
  change (Fin (x + y)%Qc = Fin (y + x)%Qc). f_equal. ring.
Qed.

Lemma add_0_l (a : Qx) : s_add s_zero a = a.
Proof.
  destruct a as [x|]; [|done].
  change (Fin (0 + x)%Qc = Fin x). f_equal. ring.
Qed.

Lemma mul_1_r (a : Qx) : s_mul a (s_of_nat 1) = a.
Proof.
  destruct a as [x|]; [|done].
  change (Fin (x * 1)%Qc = Fin x). f_equal. ring.
Qed.

Lemma det_empty : la_det lib (Mat 0 0 []) = Some (s_of_nat 1).
Proof. reflexivity. Qed.

Lemma inv_empty : la_inv lib (Mat 0 0 []) = Some (Mat 0 0 []).
Proof. vm_compute. reflexivity. Qed.

Lemma log_1 : m_log lib (s_of_nat 1) = s_zero.
Proof. vm_compute. first [reflexivity | f_equal; apply Qc_is_canon; reflexivity]. Qed.

Lemma add_0_0 : s_add (s_zero : Qx) s_zero = s_zero.
Proof. apply add_0_l. Qed.

Lemma mul_0_log2pi :
  s_mul (s_of_nat 0) (m_log lib (s_mul (s_of_nat 2) (datum_pi lib))) = s_zero.
Proof. vm_compute. first [reflexivity | f_equal; apply Qc_is_canon; reflexivity]. Qed.

Lemma half_0 : s_mul (s_half : Qx) s_zero = s_zero.
Proof. vm_compute. first [reflexivity | f_equal; apply Qc_is_canon; reflexivity]. Qed.

Lemma inv_shape : inv_keeps_shape lib.
Proof.
  intros A B Hsq. simpl. unfold e_inv.
  destruct (det_rows _ _) as [q|]; [|discriminate].
  destruct (decide _); [discriminate|]. intros [= <-]. simpl. by rewrite <- Hsq.
Qed.

End ExactFacts.

(** ** The outcome of a run, computed apart from the store *)

Lemma run_result {F : scalar} {A} (m : M F A) (h : heap F) r :
  (run m h).2 = r → run m h = ((run m h).1, r).
Proof. destruct (run m h). simpl. by intros ->. Qed.

(** ** The binary64 examples *)

Module Binary64Facts.

Lemma wf_Dn : wf Binary64.Dn.
Proof. split; [reflexivity|]. repeat constructor. Qed.

Lemma wf_Di : wf Binary64.Di.
Proof. split; [reflexivity|]. repeat constructor. Qed.

(** The two matrices hold the same data: they differ in the marker of
    their missing cell only. *)
Lemma same_data_Dn_Di : same_data Binary64.Dn Binary64.Di.
Proof.
  split; [reflexivity|]. split; [reflexivity|].
  apply Forall2_cons;
    [|apply Forall2_cons; [|apply Forall2_cons; [|constructor]]].
  - apply Forall2_cons; [by left|].
    apply Forall2_cons; [right; split; reflexivity|constructor].
  - repeat (apply Forall2_cons; [by left|]). constructor.
  - repeat (apply Forall2_cons; [by left|]). constructor.
Qed.

End Binary64Facts.

(** * The claims *)

(** C1: for every row of [D] with a nonempty set of missing positions and
    a nonempty set of observed positions, a successful [imp1matprec]
    returns a matrix whose row has, at the missing positions, exactly the
    entries of [x̂_m = μ_m − K_mm⁻¹ · K_mo · (x_o − μ_o)] ([cond_mean]),
    and at the observed positions the entries of the row of [D]. *)
Theorem imp1matprec_conditional_mean {F : scalar} (L : numerics F)
    (h : heap F) D muest kest vD vmu vk h' d :
  h !! D = Some vD → h !! muest = Some vmu → h !! kest = Some vk → wf vD →
  run (imp1matprec L D muest kest) h = (h', Ok d) →
  ∃ vd, h' !! d = Some vd ∧
    ∀ i x, mem vD !! i = Some x → missing x ≠ [] → observed x ≠ [] →
      ∃ xhat x', cond_mean L vmu vk x = Ok xhat ∧ mem vd !! i = Some x'
        ∧ (∀ k j, missing x !! k = Some j → x' !! j = xhat !! k)
        ∧ (∀ j, j ∈ observed x → x' !! j = x !! j).
Proof.
  intros HD Hm Hk Hwf Hrun.
  destruct (imp1matprec_Ok L _ _ _ _ _ _ _ _ _ HD Hm Hk Hwf Hrun)
    as (vd & -> & -> & Hinv).
  exists vd. split; [apply lookup_new|].
  intros i x Hx _ _.
  destruct (imp1_inv_row L _ _ _ _ _ _ Hinv Hwf Hx)
    as (x' & Hx' & xhat & Hc & _ & Hmiss & Hobs).
  exists xhat, x'. auto.
Qed.

Lemma imp1matprec_conditional_mean_witness :
  ∃ vd, (run (imp1matprec Exact.lib 0 1 2) Examples.h0).1 !! 3 = Some vd ∧
    ∀ i x, mem Examples.D0 !! i = Some x → missing x ≠ [] → observed x ≠ [] →
      ∃ xhat x', cond_mean Exact.lib Examples.mu0 Examples.K0 x = Ok xhat
        ∧ mem vd !! i = Some x'
        ∧ (∀ k j, missing x !! k = Some j → x' !! j = xhat !! k)
        ∧ (∀ j, j ∈ observed x → x' !! j = x !! j).
Proof.
  apply (imp1matprec_conditional_mean Exact.lib Examples.h0 0 1 2
           Examples.D0 Examples.mu0 Examples.K0).
  - reflexivity.
  - reflexivity.
  - reflexivity.
  - split; [reflexivity|]. repeat constructor.
  - vm_compute. reflexivity.
Defined.

(** C7: in the matrix a successful [imp1matprec] returns, a row of [D]
    whose missing positions are all its columns has become exactly [μ],
    and a row of [D] with no missing position is unchanged.  [μ] has as
    many entries as [D] has columns, and subtracting zero from a scalar
    gives the scalar (which holds for [double]). *)
Theorem imp1matprec_all_or_none_missing {F : scalar} (L : numerics F)
    (h : heap F) D muest kest vD vmu vk h' d :
  h !! D = Some vD → h !! muest = Some vmu → h !! kest = Some vk → wf vD →
  n_rows vmu = n_cols vD → (∀ y : F, s_sub y s_zero = y) →
  run (imp1matprec L D muest kest) h = (h', Ok d) →
  ∃ vd, h' !! d = Some vd ∧
    ∀ i x, mem vD !! i = Some x →
      (missing x = seq 0 (length x) → mem vd !! i = Some (col_entries vmu))
      ∧ (missing x = [] → mem vd !! i = Some x).
Proof.
  intros HD Hm Hk Hwf Hmu Hsub Hrun.
  destruct (imp1matprec_Ok L _ _ _ _ _ _ _ _ _ HD Hm Hk Hwf Hrun)
    as (vd & -> & -> & Hinv).
  exists vd. split; [apply lookup_new|].
  intros i x Hx.
  destruct (imp1_inv_row L _ _ _ _ _ _ Hinv Hwf Hx) as (x' & Hx' & Hcomp).
  split; intros Hmiss.
  - rewrite Hx'. f_equal.
    destruct Hcomp as (xhat & Hc & Hlen & Hm' & _).
    pose proof (wf_row_length _ _ _ Hwf Hx) as Hlx.
    pose proof (cond_mean_length L _ _ _ _ Hc) as Hlh.
    rewrite Hmiss, length_seq in Hlh.
    rewrite <- (cond_mean_all_missing L vmu vk x xhat Hsub
                  (observed_nil _ Hmiss) ltac:(lia) Hc).
    apply list_eq. intros j. destruct (decide (j < length x)) as [Hj|Hj].
    + apply Hm'. rewrite Hmiss. by apply lookup_seq_lt.
    + rewrite !lookup_ge_None_2; [done|lia..].
  - rewrite Hx'. f_equal. by eapply completes_observed.
Qed.

Lemma imp1matprec_all_or_none_missing_witness :
  ∃ vd, (run (imp1matprec Exact.lib 0 1 2) Examples.h0).1 !! 3 = Some vd ∧
    ∀ i x, mem Examples.D0 !! i = Some x →
      (missing x = seq 0 (length x) →
         mem vd !! i = Some (col_entries Examples.mu0))
      ∧ (missing x = [] → mem vd !! i = Some x).
Proof.
  apply (imp1matprec_all_or_none_missing Exact.lib Examples.h0 0 1 2
           Examples.D0 Examples.mu0 Examples.K0).
  - reflexivity.
  - reflexivity.
  - reflexivity.
  - split; [reflexivity|]. repeat constructor.
  - reflexivity.
  - apply ExactFacts.sub_0_r.
  - vm_compute. reflexivity.
Defined.

(** C3: a successful [imp2matprec] leaves in the cell of [t2] a matrix of
    the same size whose element [(a, b)] is the old one plus, for every
    row of [D] in turn, the element of [K_mm⁻¹] that falls on [(a, b)]
    when [a] and [b] are both missing in that row ([corrected]); the
    missing positions are those of [D] itself.  An element that no row
    touches is unchanged, and so is every other cell of the store. *)
Theorem imp2matprec_correction {F : scalar} (L : numerics F)
    (h : heap F) D kest t2 vD vk vt2 h' :
  h !! D = Some vD → h !! kest = Some vk → h !! t2 = Some vt2 → t2 ≠ kest →
  wf vD → wf vt2 →
  run (imp2matprec L D kest t2) h = (h', Ok ()) →
  ∃ vt2', h' !! t2 = Some vt2'
    ∧ n_rows vt2' = n_rows vt2 ∧ n_cols vt2' = n_cols vt2
    ∧ (∀ a b, corrected L vk (mem vD) a b (entry vt2 a b)
              = Ok (entry vt2' a b))
    ∧ (∀ a b, (∀ x, x ∈ mem vD → a ∉ missing x ∨ b ∉ missing x) →
              entry vt2' a b = entry vt2 a b)
    ∧ (∀ l, l < length h → l ≠ t2 → h' !! l = h !! l).
Proof.
  intros HD Hk Ht Hne HwfD Hwf.
  rewrite (imp2matprec_run L _ _ _ _ _ _ _ HD Hk Ht Hne).
  destruct (iter _ _ _ _) as [vt2' r] eqn:Hit. simpl.
  intros [= <- ->].
  destruct (imp2_iter_spec L vk vD (n_rows vD) 0 _ _ HwfD eq_refl Hwf Hit)
    as (Hwf' & Hr & Hc & Hent).
  apply lookup_lt_Some in Ht as Hlt.
  exists vt2'. split.
  { apply list_lookup_insert_eq. rewrite length_app. lia. }
  split; [done|]. split; [done|]. split; [done|]. split.
  - intros a b Hno. eapply corrected_untouched; [done|]. apply Hent.
  - intros l Hl Hl2. rewrite list_lookup_insert_ne by done.
    by rewrite lookup_app_l.
Qed.

Lemma imp2matprec_correction_witness :
  ∃ vt2', (run (imp2matprec Exact.lib 0 1 2) Examples.h2).1 !! 2 = Some vt2'
    ∧ n_rows vt2' = 2 ∧ n_cols vt2' = 2
    ∧ (∀ a b, corrected Exact.lib Examples.K0 (mem Examples.D0) a b
                (entry Examples.T0 a b) = Ok (entry vt2' a b))
    ∧ (∀ a b, (∀ x, x ∈ mem Examples.D0 → a ∉ missing x ∨ b ∉ missing x) →
              entry vt2' a b = entry Examples.T0 a b)
    ∧ (∀ l, l < 3 → l ≠ 2 →
         (run (imp2matprec Exact.lib 0 1 2) Examples.h2).1 !! l
         = Examples.h2 !! l).
Proof.
  apply (imp2matprec_correction Exact.lib Examples.h2 0 1 2
           Examples.D0 Examples.K0 Examples.T0).
  - reflexivity.
  - reflexivity.
  - reflexivity.
  - lia.
  - split; [reflexivity|]. repeat constructor.
  - split; [reflexivity|]. repeat constructor.
  - vm_compute. reflexivity.
Defined.

(** C4: what [nllprec] returns is the sum, over the rows in order and
    from zero, of [nll_i = 0.5 · (log det(S_oo) + (x_o − μ_o)ᵗ · S_oo⁻¹ ·
    (x_o − μ_o) + |observed(i)| · log(2π))] ([nll_spec], [nll_row]), where
    [S_oo] is taken from the inverse of the whole [K], computed once.  A
    row with no observed entry has the term zero, provided the library
    gives the empty matrix determinant one and itself as inverse, and
    [log 1 = 0], [0 + 0 = 0], [0 · log(2π) = 0] and [0.5 · 0 = 0]. *)
Theorem nllprec_sum_of_rows {F : scalar} (L : numerics F)
    (h : heap F) D muest kest vD vmu vk :
  h !! D = Some vD → h !! muest = Some vmu → h !! kest = Some vk → wf vD →
  (run (nllprec L D muest kest) h).2 = nll_spec L vmu vk (mem vD)
  ∧ (la_det L (Mat 0 0 []) = Some (s_of_nat 1) →
     la_inv L (Mat 0 0 []) = Some (Mat 0 0 []) →
     m_log L (s_of_nat 1) = s_zero →
     s_add (s_zero : F) s_zero = s_zero →
     s_mul (s_of_nat 0) (m_log L (s_mul (s_of_nat 2) (datum_pi L))) = s_zero →
     s_mul (s_half : F) s_zero = s_zero →
     ∀ S x, observed x = [] → nll_row L vmu S x = Ok s_zero).
Proof.
  intros HD Hm Hk Hwf. split.
  - by apply nllprec_result.
  - intros. by apply nll_row_unobserved.
Qed.

Lemma nllprec_sum_of_rows_witness :
  (run (nllprec Exact.lib 0 1 2) Examples.h0).2
  = nll_spec Exact.lib Examples.mu0 Examples.K0 (mem Examples.D0)
  ∧ ∀ S, nll_row Exact.lib Examples.mu0 S [Exact.NonFinite; Exact.NonFinite]
         = Ok s_zero.
Proof.
  destruct (nllprec_sum_of_rows Exact.lib Examples.h0 0 1 2
              Examples.D0 Examples.mu0 Examples.K0) as [Hsum Hzero].
  - reflexivity.
  - reflexivity.
  - reflexivity.
  - split; [reflexivity|]. repeat constructor.
  - split; [exact Hsum|]. intros S.
    apply (Hzero ExactFacts.det_empty ExactFacts.inv_empty ExactFacts.log_1
             ExactFacts.add_0_0 ExactFacts.mul_0_log2pi ExactFacts.half_0).
    reflexivity.
Defined.

(** C9 as stated fails in double precision, where every addition is
    rounded.  One variable, mean zero, precision one: the term of the row
    [2^27] is [2^53], the term of a row [0] is [log (2π) / 2].  On the
    rows [2^27; 0; 0] [nllprec] returns [2^53], which is not the sum
    [2^53 + 2] of what it returns on the first row and on the two others;
    and on the same rows in the order [0; 0; 2^27] it returns
    [2^53 + 2]. *)
Lemma nllprec_depends_on_row_order :
  Binary64.h1 !! 2 = Some (join_cols Binary64.D1 Binary64.D2)
  ∧ mem Binary64.Dp ≡ₚ mem (join_cols Binary64.D1 Binary64.D2)
  ∧ (run (nllprec Binary64.lib 0 3 4) Binary64.h1).2 = Ok 0x1p+53%float
  ∧ (run (nllprec Binary64.lib 1 3 4) Binary64.h1).2
    = Ok 0x1.d67f1c864beb4p+0%float
  ∧ @s_add IEEE 0x1p+53%float 0x1.d67f1c864beb4p+0%float
    = 0x1.0000000000001p+53%float
  ∧ (run (nllprec Binary64.lib 2 3 4) Binary64.h1).2 = Ok 0x1p+53%float
  ∧ (run (nllprec Binary64.lib 5 3 4) Binary64.h1).2
    = Ok 0x1.0000000000001p+53%float
  ∧ PrimFloat.eqb 0x1p+53 0x1.0000000000001p+53 = false.
Proof.
  split; [reflexivity|]. split.
  { simpl. apply (Permutation_app_comm [_; _] [_]). }
  repeat split; vm_compute; reflexivity.
Qed.

(** C9, as the code has it: [nllprec] adds the terms of the rows to a
    running sum, in the order of the rows.  Where it returns [a] on [D1]
    and [b] on [D2], it returns on the rows of [D1] followed by those of
    [D2], and what it returns is [a] with the terms of the rows of [D2]
    added one by one, [b] being zero with the same terms added one by
    one.  Where it returns on [D], it returns on a matrix whose rows are
    those of [D] in another order, and what it returns is the sum, from
    zero and from the left, of the same terms in that order. *)
Theorem nllprec_additive {F : scalar} (L : numerics F)
    (h : heap F) muest kest vmu vk :
  h !! muest = Some vmu → h !! kest = Some vk →
  (∀ D1 D2 D12 v1 v2 a b,
     h !! D1 = Some v1 → h !! D2 = Some v2 →
     h !! D12 = Some (join_cols v1 v2) →
     wf v1 → wf v2 → n_cols v2 = n_cols v1 →
     (run (nllprec L D1 muest kest) h).2 = Ok a →
     (run (nllprec L D2 muest kest) h).2 = Ok b →
     ∃ S ts, inv L vk = Ok S
       ∧ Forall2 (λ x v, nll_row L vmu S x = Ok v) (mem v2) ts
       ∧ b = foldl s_add s_zero ts
       ∧ (run (nllprec L D12 muest kest) h).2 = Ok (foldl s_add a ts))
  ∧ (∀ D Dp vD vp a,
       h !! D = Some vD → h !! Dp = Some vp → wf vD → wf vp →
       mem vp ≡ₚ mem vD →
       (run (nllprec L D muest kest) h).2 = Ok a →
       ∃ S ts ts', inv L vk = Ok S
         ∧ Forall2 (λ x v, nll_row L vmu S x = Ok v) (mem vD) ts
         ∧ Forall2 (λ x v, nll_row L vmu S x = Ok v) (mem vp) ts'
         ∧ ts' ≡ₚ ts
         ∧ a = foldl s_add s_zero ts
         ∧ (run (nllprec L Dp muest kest) h).2
           = Ok (foldl s_add s_zero ts')).
Proof.
  intros Hm Hk. split.
  - intros D1 D2 D12 v1 v2 a b H1 H2 H12 Hwf1 Hwf2 Hcols.
    assert (Hwf12 : wf (join_cols v1 v2)).
    { destruct Hwf1 as [Hl1 Ha1], Hwf2 as [Hl2 Ha2]. split; simpl.
      - rewrite length_app. lia.
      - apply Forall_app. split; [done|]. by rewrite <- Hcols. }
    rewrite (nllprec_result L _ _ _ _ _ _ _ H1 Hm Hk Hwf1).
    rewrite (nllprec_result L _ _ _ _ _ _ _ H2 Hm Hk Hwf2).
    rewrite (nllprec_result L _ _ _ _ _ _ _ H12 Hm Hk Hwf12).
    unfold nll_spec. simpl.
    destruct (inv L vk) as [S|e]; simpl; [|done]. intros Ha Hb.
    apply nll_sum_terms in Hb as (ts & Hts & ->).
    exists S, ts. split; [done|]. split; [done|]. split; [done|].
    rewrite nll_sum_continue, Ha. simpl.
    apply nll_sum_terms. by exists ts.
  - intros D Dp vD vp a HD HDp Hwf Hwfp Hperm.
    rewrite (nllprec_result L _ _ _ _ _ _ _ HD Hm Hk Hwf).
    rewrite (nllprec_result L _ _ _ _ _ _ _ HDp Hm Hk Hwfp).
    unfold nll_spec.
    destruct (inv L vk) as [S|e]; simpl; [|done]. intros Ha.
    apply nll_sum_terms in Ha as (ts & Hts & ->).
    destruct (Permutation_Forall2 (symmetry Hperm) Hts) as (ts' & Hp & Hts').
    exists S, ts, ts'. split; [done|]. split; [done|]. split; [done|].
    split; [done|]. split; [done|].
    apply nll_sum_terms. by exists ts'.
Qed.

Lemma nllprec_additive_witness :
  (∃ S ts, inv Binary64.lib Binary64.K1 = Ok S
     ∧ Forall2 (λ x v, nll_row Binary64.lib Binary64.mu1 S x = Ok v)
         (mem Binary64.D2) ts
     ∧ 0x1.d67f1c864beb4p+0%float = foldl (@s_add IEEE) s_zero ts
     ∧ (run (nllprec Binary64.lib 2 3 4) Binary64.h1).2
       = Ok (foldl (@s_add IEEE) 0x1p+53%float ts))
  ∧ (∃ S ts ts', inv Binary64.lib Binary64.K1 = Ok S
       ∧ Forall2 (λ x v, nll_row Binary64.lib Binary64.mu1 S x = Ok v)
           (mem (join_cols Binary64.D1 Binary64.D2)) ts
       ∧ Forall2 (λ x v, nll_row Binary64.lib Binary64.mu1 S x = Ok v)
           (mem Binary64.Dp) ts'
       ∧ ts' ≡ₚ ts
       ∧ 0x1p+53%float = foldl (@s_add IEEE) s_zero ts
       ∧ (run (nllprec Binary64.lib 5 3 4) Binary64.h1).2
         = Ok (foldl (@s_add IEEE) s_zero ts')).
Proof.
  assert (wf Binary64.D1) as Hw1 by (split; [reflexivity|repeat constructor]).
  assert (wf Binary64.D2) as Hw2 by (split; [reflexivity|repeat constructor]).
  assert (wf Binary64.Dp) as Hwp by (split; [reflexivity|repeat constructor]).
  assert (wf (join_cols Binary64.D1 Binary64.D2)) as Hw12
    by (split; [reflexivity|repeat constructor]).
  destruct (nllprec_additive Binary64.lib Binary64.h1 3 4
              Binary64.mu1 Binary64.K1 eq_refl eq_refl) as [Hcat Hperm].
  split.
  - apply (Hcat 0 1 2 Binary64.D1 Binary64.D2 0x1p+53%float
             0x1.d67f1c864beb4p+0%float eq_refl eq_refl eq_refl Hw1 Hw2
             eq_refl).
    + vm_compute. reflexivity.
    + vm_compute. reflexivity.
  - apply (Hperm 2 5 (join_cols Binary64.D1 Binary64.D2) Binary64.Dp
             0x1p+53%float eq_refl eq_refl Hw12 Hwp).
    + simpl. apply (Permutation_app_comm [_; _] [_]).
    + vm_compute. reflexivity.
Defined.

(** C2: a successful [EMcycleprec] returns three new matrices: [μ_new],
    whose entry [j] is the sum of column [j] of the completed matrix
    divided by [N]; [S_new], whose element [(j, k)] is that of [T2]
    divided by [N] minus the element [(j, k)] of the product
    [μ_new · μ_newᵗ], a sum of one term, [0 + μ_new j · μ_new k]; and
    [K_new], the inverse of [S_new].  The completed matrix is the one
    [imp1matprec] returns: it has the rows and columns of [D], and each of
    its rows completes the row of [D], the observed entries kept and the
    missing ones replaced by the conditional mean; [T2] is its Gram
    matrix with the corrections of the rows of [D] added.  Multiplication
    by one leaves a scalar as it is, as it does a [double]
    ([float_mul_1_r]). *)
Theorem EMcycleprec_update {F : scalar} (L : numerics F)
    (h : heap F) D muest kest vD vmu vk h' o :
  h !! D = Some vD → h !! muest = Some vmu → h !! kest = Some vk → wf vD →
  (∀ a : F, s_mul a (s_of_nat 1) = a) →
  run (EMcycleprec L D muest kest) h = (h', Ok o) →
  let N := n_rows vD in
  let P := n_cols vD in
  ∃ dimp T2 newmu newS newK,
    run (imp1matprec L D muest kest) h = (h ++ [dimp], Ok (length h))
    ∧ n_rows dimp = N ∧ n_cols dimp = P
    ∧ (∀ i x, mem vD !! i = Some x →
         ∃ x', mem dimp !! i = Some x' ∧ completes L vmu vk x x')
    ∧ h' !! out_mu o = Some newmu ∧ h' !! out_S o = Some newS
    ∧ h' !! out_K o = Some newK
    ∧ n_rows newmu = P ∧ n_cols newmu = 1
    ∧ (∀ j, j < P →
         entry newmu j 0 = s_div (col_sum dimp j) (s_of_nat N))
    ∧ (∀ j k, j < P → k < P →
         corrected L vk (mem vD) j k (gram dimp j k) = Ok (entry T2 j k))
    ∧ n_rows newS = P ∧ n_cols newS = P
    ∧ (∀ j k, j < P → k < P →
         entry newS j k
         = s_sub (s_div (entry T2 j k) (s_of_nat N))
                 (s_add s_zero (s_mul (entry newmu j 0) (entry newmu k 0))))
    ∧ inv L newS = Ok newK.
Proof.
  intros HD Hm Hk Hwf Hmul Hrun N P.
  destruct (EMcycleprec_Ok L _ _ _ _ _ _ _ _ _ HD Hm Hk Hwf Hrun)
    as (dimp & T2 & newS & newK & H). cbv zeta in H.
  destruct H as (E1 & Hinv & E2 & E3 & E4 & -> & ->).
  fold N in E1, Hinv, E2, E3. fold P in E2, E3.
  pose proof Hinv as (Hwfd & Hrd & Hcd & _). fold N in Hrd. fold P in Hcd.
  set (t1 := mk P 1 (λ r c, dot (t dimp) r (ones N) c)) in *.
  set (newmu := div_by N t1) in *.
  destruct (imp2_iter_spec L vk vD N 0 _ _ Hwf eq_refl (mk_wf _ _ _) E2)
    as (HwfT & HrT & HcT & Hent). simpl in HrT, HcT.
  apply mzip_Ok in E3 as (_ & _ & E3). simpl in E3. rewrite HrT, HcT in E3.
  exists dimp, T2, newmu, newS, newK. simpl out_mu. simpl out_S. simpl out_K.
  split; [done|]. split; [done|]. split; [done|].
  split. { intros i x Hx. by apply (imp1_inv_row L _ _ _ _ _ _ Hinv Hwf). }
  split; [apply (lookup_ext _ _ _ 5); [lia|reflexivity]|].
  split; [apply (lookup_ext _ _ _ 6); [lia|reflexivity]|].
  split; [apply (lookup_ext _ _ _ 7); [lia|reflexivity]|].
  split; [reflexivity|]. split; [reflexivity|].
  assert (Hmu : ∀ j, j < P →
            entry newmu j 0 = s_div (col_sum dimp j) (s_of_nat N)).
  { intros j Hj. unfold newmu, div_by, mmap, t1. simpl.
    rewrite !entry_mk by lia. rewrite <- Hrd at 1.
    rewrite dot_t_ones by (done || lia). done. }
  split; [done|]. split.
  { intros j k Hj Hk'. rewrite <- (Hent j k). rewrite entry_mk by done.
    by rewrite dot_t_self by lia. }
  subst newS. split; [done|]. split; [done|]. split; [|done].
  intros j k Hj Hk'. rewrite entry_mk by done.
  unfold div_by at 1, mmap. rewrite HrT, HcT.
  rewrite !entry_mk by done.
  by rewrite (dot_outer_term newmu j k) by done.
Qed.

Lemma EMcycleprec_update_witness :
  ∃ dimp T2 newmu newS newK : mat IEEE,
    run (imp1matprec Binary64.lib 0 2 3) Binary64.h2
    = (Binary64.h2 ++ [dimp], Ok 4)
    ∧ n_rows dimp = 3 ∧ n_cols dimp = 2
    ∧ (∀ i x, mem Binary64.Dn !! i = Some x →
         ∃ x', mem dimp !! i = Some x'
           ∧ completes Binary64.lib Binary64.mu2 Binary64.K2 x x')
    ∧ (run (EMcycleprec Binary64.lib 0 2 3) Binary64.h2).1 !! 9 = Some newmu
    ∧ (run (EMcycleprec Binary64.lib 0 2 3) Binary64.h2).1 !! 10 = Some newS
    ∧ (run (EMcycleprec Binary64.lib 0 2 3) Binary64.h2).1 !! 11 = Some newK
    ∧ n_rows newmu = 2 ∧ n_cols newmu = 1
    ∧ (∀ j, j < 2 →
         entry newmu j 0 = s_div (col_sum dimp j) (s_of_nat 3))
    ∧ (∀ j k, j < 2 → k < 2 →
         corrected Binary64.lib Binary64.K2 (mem Binary64.Dn) j k
           (gram dimp j k) = Ok (entry T2 j k))
    ∧ n_rows newS = 2 ∧ n_cols newS = 2
    ∧ (∀ j k, j < 2 → k < 2 →
         entry newS j k
         = s_sub (s_div (entry T2 j k) (s_of_nat 3))
                 (s_add s_zero
                    (s_mul (entry newmu j 0) (entry newmu k 0))))
    ∧ inv Binary64.lib newS = Ok newK.
Proof.
  apply (EMcycleprec_update Binary64.lib Binary64.h2 0 2 3
           Binary64.Dn Binary64.mu2 Binary64.K2
           (run (EMcycleprec Binary64.lib 0 2 3) Binary64.h2).1
           (EmOut 9 10 11)).
  - reflexivity.
  - reflexivity.
  - reflexivity.
  - exact Binary64Facts.wf_Dn.
  - exact float_mul_1_r.
  - apply run_result. vm_compute. reflexivity.
Defined.

(** C6, as the code has it: no function changes a matrix that exists when
    it is called, except [imp2matprec], which updates its argument [t2]
    in place (and nothing else).  [imp1matprec] returns a newly allocated
    matrix; [EMcycleprec], given valid handles and a well-formed [D],
    returns three distinct newly allocated matrices; [nllprec] changes
    nothing. *)
Theorem inputs_unchanged {F : scalar} (L : numerics F)
    (h : heap F) (D muest kest t2 : loc) :
  (∀ h' r, run (imp1matprec L D muest kest) h = (h', r) →
     (∀ l, l < length h → h' !! l = h !! l)
     ∧ (∀ d, r = Ok d → d = length h ∧ length h < length h'))
  ∧ (∀ h' r, run (EMcycleprec L D muest kest) h = (h', r) →
     (∀ l, l < length h → h' !! l = h !! l)
     ∧ (∀ o vD vmu vk, r = Ok o → h !! D = Some vD →
          h !! muest = Some vmu → h !! kest = Some vk → wf vD →
          length h ≤ out_mu o ∧ out_mu o < out_S o ∧ out_S o < out_K o
          ∧ out_K o < length h'))
  ∧ (∀ h' r, run (nllprec L D muest kest) h = (h', r) →
     ∀ l, l < length h → h' !! l = h !! l)
  ∧ (∀ h' r, run (imp2matprec L D kest t2) h = (h', r) →
     ∀ l, l < length h → l ≠ t2 → h' !! l = h !! l).
Proof.
  split; [|split; [|split]].
  - intros h' r Hrun. split.
    + intros l Hl.
      destruct (imp1matprec_modifies L D muest kest _ _ _ Hrun) as [_ Hp].
      apply Hp; [done|tauto].
    + intros d ->. by eapply imp1matprec_new.
  - intros h' r Hrun. split.
    + intros l Hl.
      destruct (EMcycleprec_modifies L D muest kest _ _ _ Hrun) as [_ Hp].
      apply Hp; [done|tauto].
    + intros o vD vmu vk -> HD Hm Hk Hwf.
      destruct (EMcycleprec_Ok L _ _ _ _ _ _ _ _ _ HD Hm Hk Hwf Hrun)
        as (dimp & T2 & newS & newK & _ & _ & _ & _ & _ & -> & ->).
      simpl. rewrite length_app. simpl. lia.
  - intros h' r Hrun l Hl.
    destruct (nllprec_modifies L D muest kest _ _ _ Hrun) as [_ Hp].
    apply Hp; [done|tauto].
  - intros h' r Hrun l Hl Hne.
    destruct (imp2matprec_modifies L D kest t2 _ _ _ Hrun) as [_ Hp].
    by apply Hp.
Qed.

Lemma inputs_unchanged_witness :
  (∀ l, l < 3 →
     (run (imp1matprec Exact.lib 0 1 2) Examples.h0).1 !! l
     = Examples.h0 !! l)
  ∧ (∀ l, l < 3 →
     (run (EMcycleprec Exact.lib 0 1 2) Examples.h0).1 !! l
     = Examples.h0 !! l)
  ∧ (∀ l, l < 3 →
     (run (nllprec Exact.lib 0 1 2) Examples.h0).1 !! l = Examples.h0 !! l)
  ∧ (∀ l, l < 3 → l ≠ 2 →
     (run (imp2matprec Exact.lib 0 1 2) Examples.h2).1 !! l
     = Examples.h2 !! l).
Proof.
  destruct (inputs_unchanged Exact.lib Examples.h0 0 1 2 2)
    as (H1 & H2 & H3 & _).
  destruct (inputs_unchanged Exact.lib Examples.h2 0 2 1 2)
    as (_ & _ & _ & H4).
  split; [|split; [|split]].
  - apply (H1 _ (run (imp1matprec Exact.lib 0 1 2) Examples.h0).2).
    by destruct (run _ _).
  - apply (H2 _ (run (EMcycleprec Exact.lib 0 1 2) Examples.h0).2).
    by destruct (run _ _).
  - apply (H3 _ (run (nllprec Exact.lib 0 1 2) Examples.h0).2).
    by destruct (run _ _).
  - apply (H4 _ (run (imp2matprec Exact.lib 0 1 2) Examples.h2).2).
    by destruct (run _ _).
Defined.

(** C6 as stated fails: [imp2matprec] changes its input [t2]. *)
Lemma imp2matprec_overwrites_t2 :
  Examples.h2 !! 2 = Some Examples.T0
  ∧ (run (imp2matprec Exact.lib 0 1 2) Examples.h2).2 = Ok ()
  ∧ (run (imp2matprec Exact.lib 0 1 2) Examples.h2).1 !! 2
    ≠ Some Examples.T0.
Proof.
  split; [reflexivity|]. split; [reflexivity|].
  vm_compute. discriminate.
Qed.

(** C10: for [double] (binary64) elements, a position of a row is in the
    index set [find_nonfinite] the three functions use as "missing" exactly
    when its value is NaN, +Inf or −Inf, and in the index set [find_finite]
    ("observed") exactly when it is none of the three; for any scalars,
    every position of a row is in exactly one of the two sets; and each
    function computes the sets itself, from row [i] of the matrix it is
    given, in each pass of its loop: the pass of [imp1matprec] writes the
    conditional mean into the missing positions, the pass of [imp2matprec]
    adds the inverse of the missing block of [K] to the missing block of
    [t2], and the term of [nllprec] is that of the observed positions. *)
Theorem missing_iff_nonfinite (x : list IEEE) (j : nat) :
  (j ∈ missing x ↔
     ∃ v : float, x !! j = Some v
       ∧ (v = nan ∨ v = infinity ∨ v = neg_infinity))
  ∧ (j ∈ observed x ↔
     ∃ v : float, x !! j = Some v
       ∧ v ≠ nan ∧ v ≠ infinity ∧ v ≠ neg_infinity)
  ∧ (∀ (F : scalar) (y : list F) k, k < length y →
       (k ∈ observed y ∧ k ∉ missing y) ∨ (k ∈ missing y ∧ k ∉ observed y))
  ∧ (∀ (F : scalar) (L : numerics F) (mu K S d t2 : mat F) i y,
       wf d → mem d !! i = Some y →
       imp1_body L mu K i d
       = (xhat ← cond_mean L mu K y;
          set_submat d [i] (missing y) (rowvec xhat))
       ∧ imp2_body L K i d t2
         = (K_mm ← submat K (missing y) (missing y);
            K_inv ← inv L K_mm;
            add_submat t2 (missing y) (missing y) K_inv)
       ∧ nll_term L d mu S i = nll_row L mu S y).
Proof.
  split; [|split; [|split]].
  - unfold missing. rewrite elem_of_find_nonfinite.
    by setoid_rewrite not_finite_iff.
  - unfold observed. rewrite elem_of_find_finite.
    split; intros (v & Hv & H); exists v; (split; [done|]).
    + pose proof (not_finite_iff v) as Hn. rewrite H in Hn.
      repeat split; intros ->; by destruct Hn as [_ Hn]; discriminate Hn; auto.
    + destruct (@arma_isfinite IEEE v) eqn:E; [done|].
      apply not_finite_iff in E. tauto.
  - intros F y k Hk. apply find_partition, Hk.
  - intros F L mu K S d t2 i y Hwf Hy. split; [|split].
    + by apply imp1_body_eq.
    + unfold imp2_body, row, missing. by rewrite Hy.
    + by apply nll_term_eq.
Qed.

(** The row [1, NaN, +Inf, −Inf] of doubles: position 0 is observed, the
    other three are missing. *)
Lemma missing_iff_nonfinite_witness :
  0 ∈ observed ([1%float; nan; infinity; neg_infinity] : list IEEE)
  ∧ 1 ∈ missing ([1%float; nan; infinity; neg_infinity] : list IEEE)
  ∧ 2 ∈ missing ([1%float; nan; infinity; neg_infinity] : list IEEE)
  ∧ 3 ∈ missing ([1%float; nan; infinity; neg_infinity] : list IEEE).
Proof.
  split; [|split; [|split]].
  - destruct (missing_iff_nonfinite [1%float; nan; infinity; neg_infinity] 0)
      as (_ & H & _).
    apply H. exists 1%float. split; [reflexivity|].
    repeat split; intros E; apply (f_equal Prim2SF) in E; vm_compute in E;
      discriminate E.
  - destruct (missing_iff_nonfinite [1%float; nan; infinity; neg_infinity] 1)
      as (H & _).
    apply H. exists nan. split; [reflexivity|]. by left.
  - destruct (missing_iff_nonfinite [1%float; nan; infinity; neg_infinity] 2)
      as (H & _).
    apply H. exists infinity. split; [reflexivity|]. right. by left.
  - destruct (missing_iff_nonfinite [1%float; nan; infinity; neg_infinity] 3)
      as (H & _).
    apply H. exists neg_infinity. split; [reflexivity|]. right. by right.
Defined.

(** C5 as stated fails: a symmetric, invertible matrix that is not
    positive-definite is accepted by [imp1matprec], which returns, and by
    [nllprec], which returns a value that is not a number. *)
Lemma indefinite_K_accepted :
  Examples.quad Examples.K1 Examples.v1 = Ok (Exact.e_of_Z (-2))
  ∧ is_Some (la_inv Exact.lib Examples.K1)
  ∧ (run (imp1matprec Exact.lib 0 1 2) Examples.h5).2 = Ok 3
  ∧ (run (nllprec Exact.lib 0 1 2) Examples.h5).2 = Ok Exact.NonFinite.
Proof.
  split; [|split; [|split]].
  - vm_compute.
    first [reflexivity | do 2 f_equal; apply Qc_is_canon; reflexivity].
  - vm_compute. eauto.
  - vm_compute. reflexivity.
  - vm_compute. reflexivity.
Qed.

(** C5, as the code has it: [K] is never tested for positive-definiteness.
    With [D], [μ] and [K] of sizes that fit and a library whose inverse
    has the size of its argument, [imp1matprec] succeeds exactly when the
    library inverts the block [K_mm] of every row; when it fails it is
    with the library's runtime error, it returns no matrix, and
    [EMcycleprec] fails with the same error; [nllprec] fails with that
    error when the library does not invert [K]. *)
Theorem failure_is_inversion_failure {F : scalar} (L : numerics F)
    (h : heap F) D muest kest vD vmu vk :
  h !! D = Some vD → h !! muest = Some vmu → h !! kest = Some vk → wf vD →
  n_rows vmu = n_cols vD → n_cols vmu = 1 →
  n_rows vk = n_cols vD → n_cols vk = n_cols vD →
  inv_keeps_shape L →
  (is_Ok (run (imp1matprec L D muest kest) h).2 = true ↔
     ∀ x, x ∈ mem vD →
       ∃ K_mm Ki, submat vk (missing x) (missing x) = Ok K_mm
         ∧ la_inv L K_mm = Some Ki)
  ∧ (∀ e, (run (imp1matprec L D muest kest) h).2 = Err e →
       e = runtime_error
       ∧ (run (EMcycleprec L D muest kest) h).2 = Err runtime_error)
  ∧ (la_inv L vk = None →
       (run (nllprec L D muest kest) h).2 = Err runtime_error).
Proof.
  intros HD Hm Hk Hwf Hmr Hmc Hkr Hkc Hshape.
  assert (Hvalid : ∀ x, x ∈ mem vD →
            ∃ K_mm, submat vk (missing x) (missing x) = Ok K_mm
              ∧ match la_inv L K_mm with
                | Some _ => is_Ok (cond_mean L vmu vk x) = true
                | None => cond_mean L vmu vk x = Err runtime_error
                end).
  { intros x Hx. apply list_elem_of_lookup in Hx as [i Hi].
    pose proof (wf_row_length _ _ _ Hwf Hi) as Hlen.
    apply cond_mean_valid; [congruence..|done]. }
  assert (Herr : ∀ e, (run (imp1matprec L D muest kest) h).2 = Err e →
            e = runtime_error).
  { intros e He. destruct (run _ h) as [h' r] eqn:Hrun. simpl in He. subst r.
    destruct (imp1matprec_Err L _ _ _ _ _ _ _ _ _ HD Hm Hk Hwf Hrun)
      as (j & x & Hj & Hc).
    destruct (Hvalid x) as (K_mm & _ & Hcase).
    { by eapply list_elem_of_lookup_2. }
    destruct (la_inv L K_mm); rewrite Hc in Hcase; [discriminate|].
    by injection Hcase. }
  split; [|split].
  - split.
    + intros Hok x Hx. destruct (run _ h) as [h' [d|e]] eqn:Hrun; [|done].
      destruct (imp1matprec_Ok L _ _ _ _ _ _ _ _ _ HD Hm Hk Hwf Hrun)
        as (vd & _ & _ & Hinv).
      apply list_elem_of_lookup in Hx as [i Hi].
      destruct (imp1_inv_row L _ _ _ _ _ _ Hinv Hwf Hi)
        as (x' & _ & xhat & Hc & _).
      destruct (Hvalid x) as (K_mm & HK & Hcase).
      { by eapply list_elem_of_lookup_2. }
      exists K_mm. destruct (la_inv L K_mm) as [Ki|]; [eauto|].
      rewrite Hc in Hcase. discriminate.
    + intros Hall. destruct (run _ h) as [h' [d|e]] eqn:Hrun; [done|].
      destruct (imp1matprec_Err L _ _ _ _ _ _ _ _ _ HD Hm Hk Hwf Hrun)
        as (j & x & Hj & Hc).
      apply list_elem_of_lookup_2 in Hj.
      destruct (Hall x Hj) as (K_mm & Ki & HK & HKi).
      destruct (Hvalid x Hj) as (K_mm' & HK' & Hcase).
      assert (K_mm' = K_mm) as -> by congruence.
      rewrite HKi, Hc in Hcase. discriminate.
  - intros e He. pose proof (Herr e He) as ->. split; [done|].
    unfold EMcycleprec. rewrite run_bind.
    destruct (run (imp1matprec L D muest kest) h) as [h' r]. simpl in He.
    by subst r.
  - intros Hnone. rewrite (nllprec_result L _ _ _ _ _ _ _ HD Hm Hk Hwf).
    unfold nll_spec, inv. by rewrite Hkr, Hkc, Nat.eqb_refl, Hnone.
Qed.

Lemma failure_is_inversion_failure_witness :
  (is_Ok (run (imp1matprec Exact.lib 0 1 2) Examples.h5).2 = true ↔
     ∀ x, x ∈ mem Examples.D0 →
       ∃ K_mm Ki, submat Examples.K1 (missing x) (missing x) = Ok K_mm
         ∧ la_inv Exact.lib K_mm = Some Ki)
  ∧ (run (imp1matprec Exact.lib 0 1 2) Examples.h6).2 = Err runtime_error
  ∧ (run (EMcycleprec Exact.lib 0 1 2) Examples.h6).2 = Err runtime_error
  ∧ (run (nllprec Exact.lib 0 1 2) Examples.h6).2 = Err runtime_error.
Proof.
  assert (wf Examples.D0) as Hwf by (split; [reflexivity|repeat constructor]).
  destruct (failure_is_inversion_failure Exact.lib Examples.h5 0 1 2
              Examples.D0 Examples.mu0 Examples.K1
              eq_refl eq_refl eq_refl Hwf
              eq_refl eq_refl eq_refl eq_refl ExactFacts.inv_shape)
    as (Hiff & _).
  destruct (failure_is_inversion_failure Exact.lib Examples.h6 0 1 2
              Examples.D0 Examples.mu0 Examples.K4
              eq_refl eq_refl eq_refl Hwf
              eq_refl eq_refl eq_refl eq_refl ExactFacts.inv_shape)
    as (_ & Herr & Hnll).
  split; [exact Hiff|].
  destruct (run (imp1matprec Exact.lib 0 1 2) Examples.h6).2 as [d|e] eqn:E.
  - vm_compute in E. discriminate E.
  - destruct (Herr e eq_refl) as [-> HEM].
    split; [reflexivity|]. split; [exact HEM|].
    apply Hnll. vm_compute. reflexivity.
Defined.

(** C8 as stated fails: a mean with three entries and a precision matrix
    with three rows and columns are accepted for a matrix with two
    columns, and the call returns. *)
Lemma oversized_inputs_accepted :
  n_rows Examples.mu3 ≠ n_cols Examples.D0
  ∧ n_rows Examples.K3 ≠ n_cols Examples.D0
  ∧ (run (imp1matprec Exact.lib 0 3 4) Examples.h8).2 = Ok 6.
Proof.
  split; [|split].
  - vm_compute. lia.
  - vm_compute. lia.
  - vm_compute. reflexivity.
Qed.

(** C8, as the code has it: sizes are not compared before the
    computation.  When [μ] has fewer entries than [D] has columns, or [K]
    fewer columns, and [D] has a row, [imp1matprec] fails, once the copy of
    [D] has been allocated, with the first exception the library raises:
    with a library whose inverse has the size of its argument, an index
    out of bounds, or the runtime error of the inversion of the block
    [K_mm] of a row of [D].  When [μ] and [K] are larger than needed the
    call does what it does on their leading entries and leading block. *)
Theorem shapes_not_checked {F : scalar} (L : numerics F)
    (h : heap F) D muest kest vD vmu vk :
  h !! D = Some vD → h !! muest = Some vmu → h !! kest = Some vk → wf vD →
  (0 < n_rows vD →
   n_rows vmu * n_cols vmu < n_cols vD ∨ n_cols vk < n_cols vD →
   ∃ v e, run (imp1matprec L D muest kest) h = (h ++ [v], Err e)
     ∧ (inv_keeps_shape L →
        e = out_of_range
        ∨ (e = runtime_error
           ∧ ∃ x K_mm, x ∈ mem vD
               ∧ submat vk (missing x) (missing x) = Ok K_mm
               ∧ la_inv L K_mm = None)))
  ∧ (∀ muest' kest' vmu' vk',
       h !! muest' = Some vmu' → h !! kest' = Some vk' →
       n_rows vmu = n_cols vD → n_cols vmu = 1 →
       n_rows vk = n_cols vD → n_cols vk = n_cols vD →
       n_cols vD ≤ n_rows vmu' → n_cols vmu' = 1 →
       n_cols vD ≤ n_rows vk' → n_cols vD ≤ n_cols vk' →
       agree_on (n_cols vD) 1 vmu vmu' →
       agree_on (n_cols vD) (n_cols vD) vk vk' →
       run (imp1matprec L D muest' kest') h
       = run (imp1matprec L D muest kest) h).
Proof.
  intros HD Hm Hk Hwf. split.
  - intros HN Hsmall.
    destruct (run (imp1matprec L D muest kest) h) as [h' [d|e]] eqn:Hrun.
    + exfalso.
      destruct (imp1matprec_Ok L _ _ _ _ _ _ _ _ _ HD Hm Hk Hwf Hrun)
        as (vd & _ & _ & Hspec).
      destruct (lookup_lt_is_Some_2 (mem vD) 0) as [x Hx].
      { destruct Hwf as [-> _]. lia. }
      destruct (imp1_inv_row L _ _ _ _ _ _ Hspec Hwf Hx)
        as (x' & _ & xhat & Hc & _).
      pose proof (wf_row_length _ _ _ Hwf Hx) as Hlen.
      assert (Hpos : 0 < length x) by lia.
      destruct (cond_mean_needs L _ _ _ _ (length x - 1) Hc ltac:(lia)).
      lia.
    + destruct (imp1matprec_Err L _ _ _ _ _ _ _ _ _ HD Hm Hk Hwf Hrun)
        as (j & x & Hx & Herr).
      rewrite (imp1matprec_run L _ _ _ _ _ _ _ HD Hm Hk) in Hrun.
      injection Hrun as <- _.
      eexists _, e. split; [reflexivity|]. intros Hshape.
      destruct (cond_mean_error_kind L _ _ _ _ Hshape Herr)
        as [->|(-> & K_mm & HK & Hnone)]; [by left|right].
      split; [done|]. exists x, K_mm.
      split; [by eapply list_elem_of_lookup_2|done].
  - intros muest' kest' vmu' vk' Hm' Hk' Hmr Hmc Hkr Hkc Hmr' Hmc' Hkr' Hkc'
      Hamu HaK.
    rewrite (imp1matprec_run L _ _ _ _ _ _ _ HD Hm Hk).
    rewrite (imp1matprec_run L _ _ _ _ _ _ _ HD Hm' Hk').
    by rewrite (imp1_iter_agree L vmu vk vmu' vk').
Qed.

Lemma shapes_not_checked_witness :
  (∃ v, run (imp1matprec Exact.lib 0 5 2) Examples.h8
        = (Examples.h8 ++ [v], Err out_of_range))
  ∧ run (imp1matprec Exact.lib 0 3 4) Examples.h8
    = run (imp1matprec Exact.lib 0 1 2) Examples.h8.
Proof.
  assert (Hwf : wf Examples.D0) by (split; [reflexivity|repeat constructor]).
  destruct (shapes_not_checked Exact.lib Examples.h8 0 5 2
              Examples.D0 Examples.mu1 Examples.K0
              eq_refl eq_refl eq_refl Hwf) as [Ha _].
  destruct (shapes_not_checked Exact.lib Examples.h8 0 1 2
              Examples.D0 Examples.mu0 Examples.K0
              eq_refl eq_refl eq_refl Hwf) as [_ Hb].
  split.
  - destruct Ha as (v & e & Hrun & He); [simpl; lia|left; simpl; lia|].
    exists v.
    destruct (He ExactFacts.inv_shape) as [->|[-> _]]; [exact Hrun|].
    exfalso. apply (f_equal snd) in Hrun. vm_compute in Hrun.
    discriminate Hrun.
  - apply (Hb 3 4 Examples.mu3 Examples.K3);
      try reflexivity; try (simpl; lia).
    + intros [|[|r]] [|c] Hr Hc; simpl in Hr, Hc; try lia; reflexivity.
    + intros [|[|r]] [|[|c]] Hr Hc; simpl in Hr, Hc; try lia; reflexivity.
Defined.

(** * Further properties of the four functions *)

(** ** Loops *)

Section IterFacts.
Context {X : Type}.
Implicit Types (step : nat → X → result X).

Lemma iter_ext_range step step' n i (s : X) :
  (∀ j s0, i ≤ j < i + n → step j s0 = step' j s0) →
  iter step i n s = iter step' i n s.
Proof.
  revert i s. induction n as [|n IH]; intros i s H; simpl; [done|].
  rewrite (H i s) by lia. destruct (step' i s) as [s'|e]; [|done].
  apply IH. intros j s0 Hj. apply H. lia.
Qed.

Lemma iter_app step n m i (s : X) :
  iter step i (n + m) s
  = match iter step i n s with
    | (s', Ok _) => iter step (i + n) m s'
    | (s', Err e) => (s', Err e)
    end.
Proof.
  revert i s. induction n as [|n IH]; intros i s; simpl.
  - by rewrite Nat.add_0_r.
  - destruct (step i s) as [s'|e]; [|done].
    rewrite IH. by replace (S i + n) with (i + S n) by lia.
Qed.

Lemma iter_shift step k n i (s : X) :
  iter (λ j, step (k + j)) i n s = iter step (k + i) n s.
Proof.
  revert i s. induction n as [|n IH]; intros i s; simpl; [done|].
  destruct (step (k + i) s) as [s'|e]; [|done].
  rewrite IH. by replace (k + S i) with (S (k + i)) by lia.
Qed.

Lemma iter_app_0 step n m (s : X) :
  iter step 0 (n + m) s
  = match iter step 0 n s with
    | (s', Ok _) => iter (λ j, step (n + j)) 0 m s'
    | (s', Err e) => (s', Err e)
    end.
Proof.
  rewrite iter_app. destruct (iter step 0 n s) as [s' [[]|e]]; [|done].
  by rewrite iter_shift, Nat.add_0_r.
Qed.

Lemma iter_fix step n i (s : X) :
  (∀ j, i ≤ j < i + n → step j s = Ok s) → iter step i n s = (s, Ok ()).
Proof.
  revert i. induction n as [|n IH]; intros i H; simpl; [done|].
  rewrite H by lia. apply IH. intros j Hj. apply H. lia.
Qed.

Lemma iter_Err step n i (s s' : X) e :
  iter step i n s = (s', Err e) →
  ∃ k, k < n ∧ iter step i k s = (s', Ok ()) ∧ step (i + k) s' = Err e.
Proof.
  revert i s. induction n as [|n IH]; intros i s; simpl; [done|].
  destruct (step i s) as [s1|e1] eqn:E.
  - intros H. destruct (IH _ _ H) as (k & Hk & Hit & Hst).
    exists (S k). split; [lia|]. simpl. rewrite E. split; [done|].
    by replace (i + S k) with (S i + k) by lia.
  - intros [= <- <-]. exists 0. split; [lia|]. split; [done|].
    by rewrite Nat.add_0_r.
Qed.

Lemma iter_Ok_prefix step n k i (s s' : X) :
  iter step i n s = (s', Ok ()) → k ≤ n →
  ∃ sk, iter step i k s = (sk, Ok ()).
Proof.
  intros H Hk. replace n with (k + (n - k)) in H by lia.
  rewrite iter_app in H. destruct (iter step i k s) as [sk [[]|e]]; [eauto|done].
Qed.

End IterFacts.

(** ** Data without missing entries *)

Section Complete.
Context {F : scalar} (L : numerics F).
Implicit Types (mu K d : mat F) (x : list F) (h : heap F).

Lemma set_submat_nil d i (X : mat F) :
  n_rows X = 1 → n_cols X = 0 → set_submat d [i] [] X = Ok d.
Proof.
  intros Hr Hc. unfold set_submat, inplace_op. rewrite Hr, Hc. simpl.
  by destruct d.
Qed.

Lemma add_submat_nil (t2 X : mat F) :
  n_rows X = 0 → n_cols X = 0 → add_submat t2 [] [] X = Ok t2.
Proof.
  intros Hr Hc. unfold add_submat, inplace_op. rewrite Hr, Hc. simpl.
  by destruct t2.
Qed.

Lemma cond_mean_complete mu K x Ki :
  la_inv L (Mat 0 0 []) = Some Ki → n_rows Ki = 0 → n_cols Ki = 0 →
  missing x = [] →
  length x ≤ n_rows mu * n_cols mu → length x ≤ n_cols K →
  cond_mean L mu K x = Ok [].
Proof.
  intros Hi Hr Hc Hm Hmu HK. unfold cond_mean. rewrite Hm.
  pose proof (find_finite_lt x) as Ho. fold (observed x) in Ho.
  rewrite (elem_intro mu []) by (intros k Hk; by apply elem_of_nil in Hk).
  cbn [mbind result_bind].
  rewrite (submat_intro K [] []) by reflexivity.
  cbn [mbind result_bind]. change (mk (length []) (length []) _) with (@Mat F 0 0 []).
  unfold inv. simpl. rewrite Hi. simpl.
  rewrite (submat_intro K [] (observed x)).
  2:{ apply in_bounds_true; [intros r Hr0; by apply elem_of_nil in Hr0|].
      intros c Hc0. specialize (Ho c Hc0). lia. }
  cbn [mbind result_bind]. rewrite mmul_intro by (simpl; lia).
  cbn [mbind result_bind].
  rewrite (elem_intro mu (observed x))
    by (intros k Hk; specialize (Ho k Hk); lia).
  cbn [mbind result_bind]. unfold msub.
  rewrite mzip_intro by (simpl; rewrite ?length_pick; lia).
  cbn [mbind result_bind].
  rewrite mmul_intro by (simpl; rewrite ?length_pick; lia).
  cbn [mbind result_bind]. rewrite mzip_intro by (simpl; lia).
  cbn [mbind result_bind]. reflexivity.
Qed.

Lemma imp1_body_complete mu K i d x Ki :
  la_inv L (Mat 0 0 []) = Some Ki → n_rows Ki = 0 → n_cols Ki = 0 →
  wf d → mem d !! i = Some x → missing x = [] →
  n_cols d ≤ n_rows mu * n_cols mu → n_cols d ≤ n_cols K →
  imp1_body L mu K i d = Ok d.
Proof.
  intros Hi Hr Hc Hwf Hx Hm Hmu HK.
  rewrite (imp1_body_eq L _ _ _ _ _ Hwf Hx).
  pose proof (wf_row_length _ _ _ Hwf Hx) as Hlen.
  rewrite (cond_mean_complete mu K x Ki) by (done || lia).
  cbn [mbind result_bind]. rewrite Hm. by apply set_submat_nil.
Qed.

Lemma imp1matprec_complete h D muest kest vD vmu vk Ki :
  h !! D = Some vD → h !! muest = Some vmu → h !! kest = Some vk → wf vD →
  la_inv L (Mat 0 0 []) = Some Ki → n_rows Ki = 0 → n_cols Ki = 0 →
  (∀ x, x ∈ mem vD → missing x = []) →
  (0 < n_rows vD → n_cols vD ≤ n_rows vmu * n_cols vmu ∧ n_cols vD ≤ n_cols vk) →
  run (imp1matprec L D muest kest) h = (h ++ [vD], Ok (length h)).
Proof.
  intros HD Hmu Hk Hwf Hi Hr Hc Hall Hsz.
  rewrite (imp1matprec_run L _ _ _ _ _ _ _ HD Hmu Hk).
  rewrite iter_fix; [done|]. intros j Hj.
  destruct (lookup_lt_is_Some_2 (mem vD) j) as [x Hx].
  { destruct Hwf as [-> _]. lia. }
  destruct Hsz as [? ?]; [lia|].
  eapply imp1_body_complete; eauto.
  apply Hall. by eapply list_elem_of_lookup_2.
Qed.

Lemma imp2_body_complete K i d (t2 : mat F) x Ki :
  la_inv L (Mat 0 0 []) = Some Ki → n_rows Ki = 0 → n_cols Ki = 0 →
  mem d !! i = Some x → missing x = [] →
  imp2_body L K i d t2 = Ok t2.
Proof.
  intros Hi Hr Hc Hx Hm. unfold imp2_body, row. rewrite Hx. simpl.
  unfold missing in Hm. rewrite Hm. rewrite (submat_intro K [] []) by reflexivity.
  cbn [mbind result_bind]. change (mk (length []) (length []) _) with (@Mat F 0 0 []).
  unfold inv. simpl. rewrite Hi. simpl. by apply add_submat_nil.
Qed.

Lemma imp2matprec_complete h D kest t2 vD vk vt2 Ki :
  h !! D = Some vD → h !! kest = Some vk → h !! t2 = Some vt2 → t2 ≠ kest →
  wf vD →
  la_inv L (Mat 0 0 []) = Some Ki → n_rows Ki = 0 → n_cols Ki = 0 →
  (∀ x, x ∈ mem vD → missing x = []) →
  run (imp2matprec L D kest t2) h = (h ++ [vD], Ok ()).
Proof.
  intros HD Hk Ht Hne Hwf Hi Hr Hc Hall.
  rewrite (imp2matprec_run L _ _ _ _ _ _ _ HD Hk Ht Hne).
  rewrite iter_fix.
  - simpl. f_equal. apply list_insert_id. by apply lookup_app_l_Some.
  - intros j Hj.
    destruct (lookup_lt_is_Some_2 (mem vD) j) as [x Hx].
    { destruct Hwf as [-> _]. lia. }
    eapply imp2_body_complete; eauto.
    apply Hall. by eapply list_elem_of_lookup_2.
Qed.

End Complete.

(** ** Rows that agree where they are observed *)

Section Rows.
Context {F : scalar} (L : numerics F).
Implicit Types (mu K d : mat F) (x : list F) (h : heap F).

Lemma mat_eq (A B : mat F) :
  n_rows A = n_rows B → n_cols A = n_cols B → mem A = mem B → A = B.
Proof. destruct A, B; simpl; by intros -> -> ->. Qed.

Lemma mat_eq_rows (A B : mat F) :
  wf A → wf B → n_rows A = n_rows B → n_cols A = n_cols B →
  (∀ i, i < n_rows A → mem A !! i = mem B !! i) → A = B.
Proof.
  intros [HA _] [HB _] Hr Hc Hrows. apply mat_eq; [done..|].
  apply list_eq. intros i. destruct (decide (i < n_rows A)) as [Hi|Hi].
  - by apply Hrows.
  - rewrite !lookup_ge_None_2; [done|lia..].
Qed.

Lemma completes_unique mu K x x1 x2 :
  completes L mu K x x1 → completes L mu K x x2 → x1 = x2.
Proof.
  intros (xhat & Hc & Hl1 & Hm1 & Ho1) (xhat' & Hc' & Hl2 & Hm2 & Ho2).
  rewrite Hc in Hc'. injection Hc' as <-.
  apply list_eq. intros j. destruct (decide (j < length x)) as [Hj|Hj].
  - destruct (find_partition x j Hj) as [[Ho _]|[Hm _]].
    + by rewrite (Ho1 j Ho), (Ho2 j Ho).
    + apply list_elem_of_lookup_1 in Hm as [k Hk].
      by rewrite (Hm1 k j Hk), (Hm2 k j Hk).
  - rewrite !lookup_ge_None_2; [done|lia..].
Qed.

Lemma find_from_same p p' j x x' :
  Forall2 (λ v v', p v = p' v') x x' →
  find_from p j x = find_from p' j x'.
Proof.
  intros H. revert j. induction H as [|v v' x x' Hv _ IH]; intros j; simpl; [done|].
  rewrite Hv, (IH (S j)). done.
Qed.

Lemma same_cell_finite (v v' : F) :
  same_cell v v' → arma_isfinite v = arma_isfinite v'.
Proof. intros [->|[-> ->]]; done. Qed.

Lemma same_cell_observed x x' :
  Forall2 same_cell x x' →
  observed x = observed x' ∧ missing x = missing x'
  ∧ length x = length x'
  ∧ ∀ j, j ∈ observed x → x !! j = x' !! j.
Proof.
  intros H. split; [|split; [|split]].
  - apply find_from_same. eapply list.Forall2_impl; [exact H|].
    intros ??. apply same_cell_finite.
  - apply find_from_same. eapply list.Forall2_impl; [exact H|].
    intros ?? Hs. by rewrite (same_cell_finite _ _ Hs).
  - by eapply Forall2_length.
  - intros j Hj. apply elem_of_find_finite in Hj as (v & Hv & Hfin).
    destruct (Forall2_lookup_l _ _ _ _ _ H Hv) as (v' & Hv' & [->|[Hn _]]).
    + by rewrite Hv, Hv'.
    + congruence.
Qed.

Lemma pick_same x x' idx :
  (∀ j, j ∈ idx → x !! j = x' !! j) → pick x idx = pick x' idx.
Proof.
  intros H. unfold pick. apply map_ext_in. intros j Hj.
  apply list_elem_of_In in Hj. specialize (H j Hj).
  rewrite !nth_lookup. by rewrite H.
Qed.

Lemma cond_mean_same mu K x x' :
  Forall2 same_cell x x' → cond_mean L mu K x = cond_mean L mu K x'.
Proof.
  intros H. destruct (same_cell_observed _ _ H) as (Ho & Hm & _ & Hv).
  unfold cond_mean. rewrite <- Ho, <- Hm.
  by rewrite (pick_same x x' (observed x) Hv).
Qed.

Lemma nll_row_same mu S x x' :
  Forall2 same_cell x x' → nll_row L mu S x = nll_row L mu S x'.
Proof.
  intros H. destruct (same_cell_observed _ _ H) as (Ho & Hm & _ & Hv).
  unfold nll_row. rewrite <- Ho.
  by rewrite (pick_same x x' (observed x) Hv).
Qed.

Lemma nll_sum_same mu S rows rows' acc :
  Forall2 (Forall2 same_cell) rows rows' →
  nll_sum L mu S rows acc = nll_sum L mu S rows' acc.
Proof.
  intros H. revert acc. induction H as [|x x' rows rows' Hx _ IH]; intros acc;
    simpl; [done|].
  rewrite (nll_row_same mu S x x' Hx).
  destruct (nll_row L mu S x') as [v|e]; simpl; [apply IH|done].
Qed.

Lemma completes_same mu K x x' x1 x2 :
  Forall2 same_cell x x' →
  completes L mu K x x1 → completes L mu K x' x2 → x1 = x2.
Proof.
  intros H. destruct (same_cell_observed _ _ H) as (Ho & Hm & Hl & Hv).
  intros (xhat & Hc & Hl1 & Hm1 & Ho1) (xhat' & Hc' & Hl2 & Hm2 & Ho2).
  rewrite (cond_mean_same mu K x x' H), Hc' in Hc. injection Hc as <-.
  apply list_eq. intros j. destruct (decide (j < length x)) as [Hj|Hj].
  - destruct (find_partition x j Hj) as [[Hjo _]|[Hjm _]].
    + fold (observed x) in Hjo. rewrite (Ho1 j Hjo).
      rewrite Ho in Hjo. rewrite (Ho2 j Hjo). apply Hv. by rewrite Ho.
    + fold (missing x) in Hjm. apply list_elem_of_lookup_1 in Hjm as [k Hk].
      rewrite (Hm1 k j Hk). rewrite Hm in Hk. by rewrite (Hm2 k j Hk).
  - rewrite !lookup_ge_None_2; [done|lia..].
Qed.

End Rows.

(** ** Rows of a concatenation *)

Section JoinFacts.
Context {F : scalar}.

Lemma join_cols_wf (A B : mat F) :
  wf A → wf B → n_cols B = n_cols A → wf (join_cols A B).
Proof.
  intros [HA1 HA2] [HB1 HB2] Hc. split; simpl.
  - rewrite length_app. lia.
  - apply Forall_app. split; [done|]. by rewrite <- Hc.
Qed.

Lemma join_cols_lookup (A B : mat F) i :
  wf A →
  mem (join_cols A B) !! i
  = if decide (i < n_rows A) then mem A !! i else mem B !! (i - n_rows A).
Proof.
  intros [HA _]. simpl. destruct (decide _) as [Hi|Hi].
  - apply lookup_app_l. lia.
  - rewrite lookup_app_r by lia. by rewrite HA.
Qed.

End JoinFacts.

(** ** The cycle as a function of the completed matrix *)

Section Cycle.
Context {F : scalar} (L : numerics F).
Implicit Types (h : heap F).

Ltac look :=
  first [ eassumption
        | apply lookup_ext0; reflexivity
        | apply lookup_extk; reflexivity
        | apply lookup_app_l_Some; eassumption ].
Ltac norm :=
  rewrite <- ?(assoc_L (++)); simpl app; rewrite ?length_app; simpl length.
Ltac step :=
  first [ rewrite run_bind
        | rewrite run_alloc; norm
        | rewrite run_lift
        | rewrite run_ret
        | erewrite run_load by look ];
  cbv beta iota.

(** The cycle as a function of the completed matrix. *)
Lemma EMcycleprec_run h D muest kest vD vk dimp :
  h !! D = Some vD → h !! kest = Some vk →
  run (imp1matprec L D muest kest) h = (h ++ [dimp], Ok (length h)) →
  run (EMcycleprec L D muest kest) h
  = let N := n_rows dimp in
    let P := n_cols dimp in
    let t1 := mk P 1 (λ r c, dot (t dimp) r (ones N) c) in
    let newmu := div_by N t1 in
    let it := iter (λ i, imp2_body L vk i vD) 0 (n_rows vD)
                   (mk P P (λ r c, dot (t dimp) r dimp c)) in
    match it.2 with
    | Err e => (h ++ [dimp; ones N; t1; it.1; vD], Err e)
    | Ok _ =>
        match msub (div_by N it.1)
                   (mk P P (λ r c, dot newmu r (t newmu) c)) with
        | Err e => (h ++ [dimp; ones N; t1; it.1; vD; newmu], Err e)
        | Ok newS =>
            match inv L newS with
            | Err e => (h ++ [dimp; ones N; t1; it.1; vD; newmu; newS], Err e)
            | Ok newK =>
                (h ++ [dimp; ones N; t1; it.1; vD; newmu; newS; newK],
                 Ok (EmOut (length h + 5) (length h + 6) (length h + 7)))
            end
        end
    end.
Proof.
  intros HD Hk E1. unfold EMcycleprec. rewrite run_bind, E1.
  do 4 step.
  do 6 step.
  unfold mmul at 1. simpl n_cols. simpl n_rows. rewrite Nat.eqb_refl.
  cbv beta iota.
  do 5 step.
  unfold mmul at 1. simpl n_cols. simpl n_rows. rewrite Nat.eqb_refl.
  cbv beta iota. do 4 step.
  set (gram := mk (n_cols dimp) (n_cols dimp) (λ r c, dot (t dimp) r dimp c)).
  set (t1 := mk (n_cols dimp) 1 (λ r c, dot (t dimp) r (ones (n_rows dimp)) c)).
  rewrite (imp2matprec_run L D kest (length h + 3) _ vD vk gram);
    [|look..|apply lookup_lt_Some in Hk; lia].
  cbv zeta.
  destruct (iter _ _ _ gram) as [T2 [[]|e]] eqn:E2; cbn [fst snd].
  2:{ norm. rewrite insert_app_r.
      change (<[3:=?x]> [?a;?b;?c;?d;?e]) with [a;b;c;x;e]. done. }
  norm. rewrite insert_app_r.
  change (<[3:=?x]> [?a;?b;?c;?d;?e]) with [a;b;c;x;e].
  do 3 step.
  do 5 step.
  do 2 step.
  set (newmu := div_by (n_rows dimp) t1).
  assert (Hmm : mmul newmu (t newmu)
                = Ok (mk (n_cols dimp) (n_cols dimp)
                        (λ r c, dot newmu r (t newmu) c))) by reflexivity.
  rewrite Hmm. cbn [mbind result_bind].
  destruct (msub (div_by (n_rows dimp) T2) _) as [newS|e] eqn:E3;
    cbv beta iota; [|done].
  do 2 step.
  do 4 step.
  destruct (inv L newS) as [newK|e] eqn:E4; cbv beta iota; [|done].
  do 2 step. done.
Qed.

End Cycle.

Section CycleMore.
Context {F : scalar} (L : numerics F).
Implicit Types (h : heap F).

Lemma imp1matprec_no_rows h D muest kest vD :
  h !! D = Some vD → n_rows vD = 0 →
  run (imp1matprec L D muest kest) h = (h ++ [vD], Ok (length h)).
Proof.
  intros HD HN. unfold imp1matprec.
  rewrite run_bind, (run_copy _ _ _ HD).
  rewrite run_bind, (run_load _ _ vD) by apply lookup_new.
  rewrite HN. reflexivity.
Qed.

Lemma imp2matprec_no_rows h D kest t2 vD :
  h !! D = Some vD → n_rows vD = 0 →
  run (imp2matprec L D kest t2) h = (h ++ [vD], Ok ()).
Proof.
  intros HD HN. unfold imp2matprec.
  rewrite run_bind, (run_copy _ _ _ HD).
  rewrite run_bind, (run_load _ _ vD) by apply lookup_new.
  rewrite HN. reflexivity.
Qed.

Lemma dot_no_terms (A B : mat F) r c : n_cols A = 0 → dot A r B c = s_zero.
Proof. intros H. unfold dot. by rewrite H. Qed.

Lemma t_mk_sym n (f : nat → nat → F) :
  (∀ r c, r < n → c < n → f r c = f c r) → t (mk n n f) = mk n n f.
Proof.
  intros H. unfold t. change (n_cols (mk n n f)) with n.
  change (n_rows (mk n n f)) with n.
  apply mk_ext. intros r c Hr Hc. rewrite entry_mk by lia. by apply H.
Qed.

Lemma entry_div_by N (A : mat F) r c :
  r < n_rows A → c < n_cols A →
  entry (div_by N A) r c = s_div (entry A r c) (s_of_nat N).
Proof. intros Hr Hc. unfold div_by, mmap. by rewrite entry_mk. Qed.

Lemma dot_outer_sym (v : mat F) j k :
  (∀ a b : F, s_mul a b = s_mul b a) → n_cols v = 1 →
  j < n_rows v → k < n_rows v →
  dot v j (t v) k = dot v k (t v) j.
Proof.
  intros Hcomm Hc Hj Hk. unfold dot. rewrite Hc. simpl.
  unfold t. rewrite !entry_mk by lia. by rewrite Hcomm.
Qed.

Lemma gram_sym (A : mat F) j k :
  (∀ a b : F, s_mul a b = s_mul b a) → gram A j k = gram A k j.
Proof.
  intros Hc. unfold gram. apply foldl_seq_ext. intros acc i _. by rewrite Hc.
Qed.

Lemma block_entry_sym K x a b :
  (∀ K_mm Ki, submat K (missing x) (missing x) = Ok K_mm →
     la_inv L K_mm = Some Ki → ∀ p q, entry Ki p q = entry Ki q p) →
  block_entry L K x a b = block_entry L K x b a.
Proof.
  intros Hs. unfold block_entry.
  destruct (submat K (missing x) (missing x)) as [K_mm|e] eqn:E1; simpl; [|done].
  unfold inv. destruct (n_rows K_mm =? n_cols K_mm); simpl; [|done].
  destruct (la_inv L K_mm) as [Ki|] eqn:E2; simpl; [|done].
  f_equal.
  destruct (index_of a (missing x)) as [p|], (index_of b (missing x)) as [q|];
    simpl; try done.
  f_equal. by apply (Hs K_mm Ki).
Qed.

Lemma corrected_sym K rows a b v :
  (∀ x K_mm Ki, x ∈ rows → submat K (missing x) (missing x) = Ok K_mm →
     la_inv L K_mm = Some Ki → ∀ p q, entry Ki p q = entry Ki q p) →
  corrected L K rows a b v = corrected L K rows b a v.
Proof.
  revert v. induction rows as [|x rows IH]; intros v Hs; simpl; [done|].
  rewrite (block_entry_sym K x a b).
  2:{ intros K_mm Ki. apply Hs. apply list_elem_of_here. }
  destruct (block_entry L K x b a) as [c|e]; simpl; [|done].
  apply IH. intros y K_mm Ki Hy. apply Hs. by apply list_elem_of_further.
Qed.

End CycleMore.

(** ** The correction of the second moment, row by row *)

Section Imp2More.
Context {F : scalar} (L : numerics F).
Implicit Types (K D : mat F) (x : list F) (h : heap F).

Lemma imp2_iter_prefix K D n i (t2 t2' : mat F) :
  wf D → i + n ≤ n_rows D → wf t2 →
  iter (λ j, imp2_body L K j D) i n t2 = (t2', Ok ()) →
  wf t2' ∧ n_rows t2' = n_rows t2 ∧ n_cols t2' = n_cols t2
  ∧ ∀ a b, corrected L K (take n (drop i (mem D))) a b (entry t2 a b)
           = Ok (entry t2' a b).
Proof.
  intros HwfD. revert i t2. induction n as [|n IH]; intros i t2 Hn Hwf; simpl.
  - intros [= <-]. split; [done|]. split; [done|]. split; [done|].
    intros a b. reflexivity.
  - destruct (lookup_lt_is_Some_2 (mem D) i) as [x Hx].
    { destruct HwfD as [-> _]. lia. }
    destruct (imp2_body L K i D t2) as [t2m|e] eqn:E; [|discriminate].
    destruct (imp2_body_spec L _ _ _ _ _ _ HwfD Hwf Hx E)
      as (Hwfm & Hr & Hc & Hent).
    intros Hit. destruct (IH (S i) t2m ltac:(lia) Hwfm Hit)
      as (Hwf' & Hr' & Hc' & Hent').
    split; [done|]. split; [lia|]. split; [lia|].
    intros a b. rewrite (drop_S _ _ _ Hx). simpl.
    destruct (Hent a b) as (c & -> & Hc0). simpl. rewrite <- Hc0. apply Hent'.
Qed.

Lemma imp2_body_valid K i D (t2 : mat F) x :
  mem D !! i = Some x →
  n_rows K = length x → n_cols K = length x →
  n_rows t2 = length x → n_cols t2 = length x → inv_keeps_shape L →
  ∃ K_mm, submat K (missing x) (missing x) = Ok K_mm
    ∧ match la_inv L K_mm with
      | Some _ => is_Ok (imp2_body L K i D t2) = true
      | None => imp2_body L K i D t2 = Err runtime_error
      end.
Proof.
  intros Hx Hkr Hkc Htr Htc Hshape. unfold imp2_body, row. rewrite Hx. simpl.
  fold (missing x). pose proof (find_nonfinite_lt x) as Hm. fold (missing x) in Hm.
  rewrite (submat_intro K (missing x) (missing x))
    by (apply in_bounds_true; intros ??; rewrite ?Hkr, ?Hkc; auto).
  eexists. split; [reflexivity|]. cbn [mbind result_bind].
  unfold inv. simpl. rewrite Nat.eqb_refl.
  destruct (la_inv L _) as [Ki|] eqn:Ei; simpl; [|done].
  apply Hshape in Ei as [Hr Hc]; [|reflexivity]. simpl in Hr, Hc.
  destruct (inplace_op_is_Ok s_add t2 (missing x) (missing x) Ki Hr Hc)
    as [t2' Ht2'].
  { apply in_bounds_true; intros ??; rewrite ?Htr, ?Htc; auto. }
  unfold add_submat. by rewrite Ht2'.
Qed.

End Imp2More.

Section PatternOnly.
Context {F : scalar} (L : numerics F).

Lemma imp2_body_pattern K i (D D' : mat F) (t2 : mat F) x x' :
  mem D !! i = Some x → mem D' !! i = Some x' →
  Forall2 (λ v v' : F, arma_isfinite v = arma_isfinite v') x x' →
  imp2_body L K i D t2 = imp2_body L K i D' t2.
Proof.
  intros Hx Hx' Hp. unfold imp2_body, row. rewrite Hx, Hx'. simpl.
  replace (find_nonfinite x') with (find_nonfinite x); [done|].
  apply find_from_same. eapply list.Forall2_impl; [exact Hp|].
  intros ?? E. by rewrite E.
Qed.

End PatternOnly.

(** ** The likelihood, row by row *)

Section NllMore.
Context {F : scalar} (L : numerics F).
Implicit Types (mu S : mat F) (x : list F) (h : heap F).

Lemma nll_row_valid mu S x :
  n_rows mu = length x → n_cols mu = 1 →
  n_rows S = length x → n_cols S = length x → inv_keeps_shape L →
  ∃ S_oo, submat S (observed x) (observed x) = Ok S_oo
    ∧ match la_det L S_oo, la_inv L S_oo with
      | Some _, Some _ => is_Ok (nll_row L mu S x) = true
      | _, _ => nll_row L mu S x = Err runtime_error
      end.
Proof.
  intros Hmr Hmc Hsr Hsc Hshape. unfold nll_row.
  pose proof (find_finite_lt x) as Ho. fold (observed x) in Ho.
  rewrite (submat_intro S (observed x) (observed x))
    by (apply in_bounds_true; intros ??; rewrite ?Hsr, ?Hsc; auto).
  eexists. split; [reflexivity|]. cbn [mbind result_bind].
  unfold det. simpl n_rows. simpl n_cols. rewrite Nat.eqb_refl.
  destruct (la_det L _) as [dt|] eqn:Ed; simpl; [|done].
  rewrite (elem_intro mu (observed x))
    by (rewrite Hmr, Hmc; intros k Hk; specialize (Ho k Hk); lia).
  cbn [mbind result_bind]. unfold msub.
  rewrite mzip_intro by (simpl; rewrite ?length_pick; lia).
  cbn [mbind result_bind].
  unfold inv. simpl n_rows. simpl n_cols. rewrite Nat.eqb_refl.
  destruct (la_inv L _) as [Si|] eqn:Ei; simpl; [|done].
  apply Hshape in Ei as [Hr Hc]; [|reflexivity]. simpl in Hr, Hc.
  rewrite mmul_intro by (simpl; rewrite ?length_pick; lia).
  cbn [mbind result_bind].
  rewrite mmul_intro by (simpl; rewrite ?length_pick; lia). done.
Qed.

Lemma nll_sum_outcome mu S rows acc :
  (∀ x, x ∈ rows → n_rows mu = length x ∧ n_rows S = length x
                   ∧ n_cols S = length x) →
  n_cols mu = 1 → inv_keeps_shape L →
  match nll_sum L mu S rows acc with
  | Ok _ => ∀ x, x ∈ rows →
      ∃ S_oo, submat S (observed x) (observed x) = Ok S_oo
        ∧ is_Some (la_det L S_oo) ∧ is_Some (la_inv L S_oo)
  | Err e => e = runtime_error
      ∧ ∃ x S_oo, x ∈ rows
          ∧ submat S (observed x) (observed x) = Ok S_oo
          ∧ (la_det L S_oo = None ∨ la_inv L S_oo = None)
  end.
Proof.
  intros Hsz Hmc Hshape. revert acc.
  induction rows as [|x rows IH]; intros acc; simpl.
  - intros x Hx. by apply elem_of_nil in Hx.
  - destruct (Hsz x) as (Hm & Hsr & Hsc); [apply list_elem_of_here|].
    destruct (nll_row_valid mu S x Hm Hmc Hsr Hsc Hshape) as (S_oo & HS & Hv).
    assert (∀ y, y ∈ rows → n_rows mu = length y ∧ n_rows S = length y
                            ∧ n_cols S = length y) as Hsz'.
    { intros y Hy. apply Hsz. by apply list_elem_of_further. }
    destruct (la_det L S_oo) as [dt|] eqn:Ed;
      [destruct (la_inv L S_oo) as [Si|] eqn:Ei|].
    + destruct (nll_row L mu S x) as [v|e]; [|discriminate]. simpl.
      specialize (IH Hsz' (s_add acc v)).
      destruct (nll_sum L mu S rows (s_add acc v)) as [w|e].
      * intros y Hy. apply elem_of_cons in Hy as [->|Hy]; [|by apply IH].
        exists S_oo. rewrite Ed, Ei. eauto.
      * destruct IH as (-> & y & Soo & Hy & Hsub & Hnone). split; [done|].
        exists y, Soo. split; [by apply list_elem_of_further|done].
    + rewrite Hv. simpl. split; [done|]. exists x, S_oo.
      split; [apply list_elem_of_here|]. auto.
    + rewrite Hv. simpl. split; [done|]. exists x, S_oo.
      split; [apply list_elem_of_here|]. auto.
Qed.

End NllMore.

(** ** The completed rows, as a function of the rows *)

Section CompletedRows.
Context {F : scalar} (L : numerics F).
Implicit Types (mu K d : mat F) (x : list F) (h : heap F).

Lemma completes_complete_row mu K x x' :
  completes L mu K x x' → x' = complete_row L mu K x.
Proof.
  intros (xhat & Hc & Hlen & Hm & Ho). unfold complete_row. rewrite Hc.
  apply list_eq. intros j. rewrite list_lookup_imap.
  destruct (x !! j) as [v|] eqn:Ev; simpl.
  - pose proof (lookup_lt_Some _ _ _ Ev) as Hj.
    destruct (index_of j (missing x)) as [k|] eqn:Ei; simpl.
    + apply index_of_Some in Ei; [|apply find_from_NoDup].
      rewrite (Hm k j Ei).
      destruct (lookup_lt_is_Some_2 xhat k) as [w Hw].
      { rewrite (cond_mean_length L _ _ _ _ Hc). by eapply lookup_lt_Some. }
      rewrite Hw. f_equal. symmetry. by apply nth_lookup_Some.
    + apply index_of_None in Ei.
      destruct (find_partition x j Hj) as [[Hjo _]|[Hjm _]]; [|done].
      by rewrite (Ho j Hjo).
  - apply lookup_ge_None_2. apply lookup_ge_None_1 in Ev. lia.
Qed.

Lemma imp1_inv_rows mu K D d :
  wf D → imp1_inv L mu K D (n_rows D) d →
  mem d = map (complete_row L mu K) (mem D).
Proof.
  intros Hwf Hinv. pose proof Hinv as (Hwfd & Hr & _).
  apply list_eq. intros i. rewrite list_lookup_fmap.
  destruct (mem D !! i) as [x|] eqn:Ex; simpl.
  - destruct (imp1_inv_row L _ _ _ _ _ _ Hinv Hwf Ex) as (x' & -> & Hc).
    f_equal. by apply completes_complete_row.
  - apply lookup_ge_None_2. apply lookup_ge_None_1 in Ex.
    destruct Hwf as [HD _], Hwfd as [Hd _]. lia.
Qed.

End CompletedRows.


(** ** The exact instance, continued *)

Module ExactMore.

Lemma wf_D0 : wf Examples.D0.
Proof. split; [reflexivity|]. repeat constructor. Qed.

Lemma mul_comm (a b : Exact.Qx) : s_mul a b = s_mul b a.
Proof. destruct a, b; simpl; try reflexivity. f_equal. ring. Qed.

(** A boolean test of completeness of a cell of the store. *)
Lemma complete_cell (h : heap Exact.Qx) d :
  from_option
    (λ m, forallb (λ x, bool_decide (@missing Exact.Qx x = [])) (mem m))
    false (h !! d) = true →
  ∃ vd, h !! d = Some vd ∧ ∀ x, x ∈ mem vd → missing x = [].
Proof.
  destruct (h !! d) as [vd|]; simpl; [|discriminate].
  intros H. exists vd. split; [done|]. intros x Hx.
  rewrite forallb_forall in H. apply list_elem_of_In in Hx.
  specialize (H x Hx). by apply bool_decide_eq_true in H.
Qed.

(** A boolean test of the symmetry of the inverse. *)
Lemma inv_symmetric (A Ki : mat Exact.Qx) :
  forallb (λ i, forallb (λ j, bool_decide (inv_entry A i j = inv_entry A j i))
                        (seq 0 (n_rows A))) (seq 0 (n_rows A)) = true →
  la_inv Exact.lib A = Some Ki → ∀ p q, entry Ki p q = entry Ki q p.
Proof.
  intros Hb Hi p q. simpl in Hi. unfold Exact.e_inv in Hi.
  destruct (Exact.det_rows (n_rows A) (mem A)) as [d|] eqn:Ed; [|discriminate].
  destruct (decide (d = 0%Qc)); [discriminate|]. injection Hi as <-.
  destruct (decide (p < n_rows A)) as [Hp|Hp];
    [destruct (decide (q < n_rows A)) as [Hq|Hq]|].
  - rewrite !entry_mk by done.
    rewrite forallb_forall in Hb.
    specialize (Hb p ltac:(apply in_seq; lia)).
    rewrite forallb_forall in Hb.
    specialize (Hb q ltac:(apply in_seq; lia)).
    apply bool_decide_eq_true in Hb. unfold inv_entry in Hb. by rewrite Ed in Hb.
  - unfold entry. by rewrite !at_mk_None by lia.
  - unfold entry. by rewrite !at_mk_None by lia.
Qed.

End ExactMore.

(** ** Imputation *)

(** X1: a successful [imp1matprec] returns a well-formed matrix with the
    numbers of rows and columns of [D]; every row keeps its length and,
    whatever its pattern, its observed entries; and a position that is
    missing in the returned row was missing in the row of [D]: imputation
    never makes an entry missing. *)
Theorem imp1matprec_keeps_shape {F : scalar} (L : numerics F)
    (h : heap F) D muest kest vD vmu vk h' d :
  h !! D = Some vD → h !! muest = Some vmu → h !! kest = Some vk → wf vD →
  run (imp1matprec L D muest kest) h = (h', Ok d) →
  ∃ vd, h' !! d = Some vd ∧ wf vd
    ∧ n_rows vd = n_rows vD ∧ n_cols vd = n_cols vD
    ∧ ∀ i x, mem vD !! i = Some x →
        ∃ x', mem vd !! i = Some x' ∧ length x' = length x
          ∧ (∀ j, j ∈ observed x → x' !! j = x !! j)
          ∧ (∀ j, j ∈ missing x' → j ∈ missing x).
Proof.
  intros HD Hmu Hk Hwf Hrun.
  destruct (imp1matprec_Ok L _ _ _ _ _ _ _ _ _ HD Hmu Hk Hwf Hrun)
    as (vd & -> & -> & Hinv).
  exists vd. split; [apply lookup_new|].
  pose proof Hinv as (Hwfd & Hr & Hc & _).
  split; [done|]. split; [done|]. split; [done|].
  intros i x Hx.
  destruct (imp1_inv_row L _ _ _ _ _ _ Hinv Hwf Hx)
    as (x' & Hx' & xhat & _ & Hlen & _ & Hobs).
  exists x'. split; [done|]. split; [done|]. split; [done|].
  intros j Hj. apply elem_of_find_nonfinite in Hj as (v & Hv & Hnf).
  assert (j < length x) as Hlt.
  { rewrite <- Hlen. by eapply lookup_lt_Some. }
  destruct (find_partition x j Hlt) as [[Ho _]|[Hm _]]; [|done].
  pose proof Ho as Ho'. apply elem_of_find_finite in Ho' as (v0 & Hv0 & Hfin).
  rewrite (Hobs j Ho), Hv0 in Hv. congruence.
Qed.

Lemma imp1matprec_keeps_shape_witness :
  ∃ vd, (run (imp1matprec Exact.lib 0 1 2) Examples.h0).1 !! 3 = Some vd
    ∧ wf vd ∧ n_rows vd = 3 ∧ n_cols vd = 2
    ∧ ∀ i x, mem Examples.D0 !! i = Some x →
        ∃ x', mem vd !! i = Some x' ∧ length x' = length x
          ∧ (∀ j, j ∈ observed x → x' !! j = x !! j)
          ∧ (∀ j, j ∈ missing x' → j ∈ missing x).
Proof.
  apply (imp1matprec_keeps_shape Exact.lib Examples.h0 0 1 2
           Examples.D0 Examples.mu0 Examples.K0).
  - reflexivity.
  - reflexivity.
  - reflexivity.
  - exact ExactMore.wf_D0.
  - apply run_result. vm_compute. reflexivity.
Defined.

(** X2: on a matrix without missing entry, with [μ] of at least as many
    entries, and [K] of at least as many columns, as [D] has columns, and a
    library that inverts the empty matrix to an empty matrix,
    [imp1matprec] succeeds and returns a copy equal to [D], and
    [imp2matprec] succeeds and leaves [t2] as it is. *)
Theorem complete_data_unchanged {F : scalar} (L : numerics F)
    (h : heap F) D muest kest vD vmu vk Ki :
  h !! D = Some vD → h !! muest = Some vmu → h !! kest = Some vk → wf vD →
  la_inv L (Mat 0 0 []) = Some Ki → n_rows Ki = 0 → n_cols Ki = 0 →
  (∀ x, x ∈ mem vD → missing x = []) →
  n_cols vD ≤ n_rows vmu * n_cols vmu → n_cols vD ≤ n_cols vk →
  run (imp1matprec L D muest kest) h = (h ++ [vD], Ok (length h))
  ∧ ∀ t2 vt2, h !! t2 = Some vt2 → t2 ≠ kest →
      run (imp2matprec L D kest t2) h = (h ++ [vD], Ok ()).
Proof.
  intros HD Hmu Hk Hwf Hi Hr Hc Hall Hsm Hsk. split.
  - eapply imp1matprec_complete; eauto.
  - intros t2 vt2 Ht Hne. eapply imp2matprec_complete; eauto.
Qed.

Lemma complete_data_unchanged_witness :
  run (imp1matprec Exact.lib 0 1 2) Examples.h11 = (Examples.h11 ++ [Examples.D3], Ok 6)
  ∧ run (imp2matprec Exact.lib 0 2 5) Examples.h11 = (Examples.h11 ++ [Examples.D3], Ok ()).
Proof.
  assert (wf Examples.D3) as Hwf by (split; [reflexivity|repeat constructor]).
  destruct (complete_data_unchanged Exact.lib Examples.h11 0 1 2 Examples.D3 Examples.mu0
              Examples.K0 (Mat 0 0 []) eq_refl eq_refl eq_refl Hwf
              ExactFacts.inv_empty eq_refl eq_refl) as [H1 H2].
  - intros x Hx. repeat (apply elem_of_cons in Hx as [->|Hx]; [reflexivity|]).
    by apply elem_of_nil in Hx.
  - vm_compute. lia.
  - vm_compute. lia.
  - split; [exact H1|]. apply (H2 5 Examples.T0); [reflexivity|lia].
Defined.

(** X3: on a matrix without rows no pass of a loop runs: [imp1matprec]
    returns a copy without reading [muest] or [kest], [imp2matprec]
    returns without touching [t2], and [nllprec] returns zero, but only
    after it has inverted [K], so that it still fails where [inv(kest)]
    fails. *)
Theorem no_rows_no_pass {F : scalar} (L : numerics F)
    (h : heap F) D vD :
  h !! D = Some vD → n_rows vD = 0 →
  (∀ muest kest,
     run (imp1matprec L D muest kest) h = (h ++ [vD], Ok (length h)))
  ∧ (∀ kest t2, run (imp2matprec L D kest t2) h = (h ++ [vD], Ok ()))
  ∧ (∀ muest kest vmu vk, h !! muest = Some vmu → h !! kest = Some vk →
       (run (nllprec L D muest kest) h).2 = (inv L vk ≫= λ _, Ok s_zero)).
Proof.
  intros HD HN. split; [|split].
  - intros muest kest. unfold imp1matprec.
    rewrite run_bind, (run_copy _ _ _ HD).
    rewrite run_bind, (run_load _ _ vD) by apply lookup_new.
    rewrite HN. reflexivity.
  - intros kest t2. unfold imp2matprec.
    rewrite run_bind, (run_copy _ _ _ HD).
    rewrite run_bind, (run_load _ _ vD) by apply lookup_new.
    rewrite HN. reflexivity.
  - intros muest kest vmu vk Hmu Hk.
    rewrite (nllprec_run L _ _ _ _ _ _ _ HD Hmu Hk). rewrite HN.
    by destruct (inv L vk).
Qed.

Lemma no_rows_no_pass_witness :
  run (imp1matprec Exact.lib 0 1 2) Examples.h10 = (Examples.h10 ++ [Examples.E0], Ok 3)
  ∧ run (imp2matprec Exact.lib 0 2 1) Examples.h10 = (Examples.h10 ++ [Examples.E0], Ok ())
  ∧ (run (nllprec Exact.lib 0 1 2) Examples.h10).2 = Ok s_zero.
Proof.
  destruct (no_rows_no_pass Exact.lib Examples.h10 0 Examples.E0 eq_refl eq_refl)
    as (H1 & H2 & H3).
  split; [apply H1|]. split; [apply H2|].
  rewrite (H3 1 2 Examples.mu0 Examples.K0 eq_refl eq_refl).
  reflexivity.
Defined.

(** X4: imputing twice is imputing once: when the matrix [imp1matprec]
    returns has no missing entry left, [imp1matprec] on that matrix, with
    the same [μ] and [K], succeeds and returns a copy equal to it.  The
    library inverts the empty matrix to an empty matrix. *)
Theorem imp1matprec_idempotent {F : scalar} (L : numerics F)
    (h : heap F) D muest kest vD vmu vk Ki h1 d vd :
  h !! D = Some vD → h !! muest = Some vmu → h !! kest = Some vk → wf vD →
  la_inv L (Mat 0 0 []) = Some Ki → n_rows Ki = 0 → n_cols Ki = 0 →
  run (imp1matprec L D muest kest) h = (h1, Ok d) →
  h1 !! d = Some vd → (∀ x, x ∈ mem vd → missing x = []) →
  run (imp1matprec L d muest kest) h1 = (h1 ++ [vd], Ok (length h1)).
Proof.
  intros HD Hmu Hk Hwf Hi Hr Hc Hrun Hd Hall.
  destruct (imp1matprec_Ok L _ _ _ _ _ _ _ _ _ HD Hmu Hk Hwf Hrun)
    as (vd0 & -> & -> & Hinv).
  rewrite lookup_new in Hd. injection Hd as ->.
  pose proof Hinv as (Hwfd & Hrd & Hcd & _).
  eapply (imp1matprec_complete L _ _ muest kest vd vmu vk Ki); eauto.
  - apply lookup_new.
  - by apply lookup_app_l_Some.
  - by apply lookup_app_l_Some.
  - intros Hpos.
    destruct (lookup_lt_is_Some_2 (mem vD) 0) as [x Hx].
    { destruct Hwf as [-> _]. lia. }
    destruct (imp1_inv_row L _ _ _ _ _ _ Hinv Hwf Hx)
      as (x' & _ & xhat & Hcm & _).
    pose proof (wf_row_length _ _ _ Hwf Hx) as Hlen.
    rewrite Hcd, <- Hlen.
    destruct (length x) as [|n] eqn:En; [lia|].
    destruct (cond_mean_needs L _ _ _ _ n Hcm ltac:(lia)). lia.
Qed.

Lemma imp1matprec_idempotent_witness :
  ∃ vd, (run (imp1matprec Exact.lib 0 1 2) Examples.h0).1 !! 3 = Some vd
    ∧ run (imp1matprec Exact.lib 3 1 2)
          (run (imp1matprec Exact.lib 0 1 2) Examples.h0).1
      = ((run (imp1matprec Exact.lib 0 1 2) Examples.h0).1 ++ [vd], Ok 4).
Proof.
  assert (run (imp1matprec Exact.lib 0 1 2) Examples.h0
          = ((run (imp1matprec Exact.lib 0 1 2) Examples.h0).1, Ok 3)) as R.
  { apply run_result. vm_compute. reflexivity. }
  destruct (ExactMore.complete_cell
              (run (imp1matprec Exact.lib 0 1 2) Examples.h0).1 3)
    as (vd & Hd & Hall).
  { vm_compute. reflexivity. }
  exists vd. split; [exact Hd|].
  assert (length (run (imp1matprec Exact.lib 0 1 2) Examples.h0).1 = 4) as Hl.
  { vm_compute. reflexivity. }
  pose proof (imp1matprec_idempotent Exact.lib Examples.h0 0 1 2
           Examples.D0 Examples.mu0 Examples.K0 (Mat 0 0 []) _ 3 vd
           eq_refl eq_refl eq_refl ExactMore.wf_D0 ExactFacts.inv_empty
           eq_refl eq_refl R Hd Hall) as H.
  rewrite Hl in H. exact H.
Defined.

(** X5: the values stored in missing cells are not read.  If two matrices
    have equal observed cells and the same missing cells, whatever
    non-finite values mark them, then where [imp1matprec] returns on one
    it returns an equal matrix on the other, and where [EMcycleprec]
    returns on one it returns the same three matrices on the other. *)
Theorem missing_values_unread {F : scalar} (L : numerics F)
    (h : heap F) D D' muest kest vD vD' vmu vk :
  h !! D = Some vD → h !! D' = Some vD' →
  h !! muest = Some vmu → h !! kest = Some vk →
  wf vD → wf vD' → same_data vD vD' →
  (∀ h1 d vd,
     run (imp1matprec L D muest kest) h = (h1, Ok d) → h1 !! d = Some vd →
     run (imp1matprec L D' muest kest) h = (h ++ [vd], Ok (length h)))
  ∧ (∀ h1 o,
       run (EMcycleprec L D muest kest) h = (h1, Ok o) →
       ∃ h2, run (EMcycleprec L D' muest kest) h = (h2, Ok o)
         ∧ h2 !! out_mu o = h1 !! out_mu o
         ∧ h2 !! out_S o = h1 !! out_S o
         ∧ h2 !! out_K o = h1 !! out_K o).
Proof.
  intros HD HD' Hmu Hk Hwf Hwf' (Hsr & Hsc & Hsame).
  assert (∀ h1 d vd,
     run (imp1matprec L D muest kest) h = (h1, Ok d) → h1 !! d = Some vd →
     run (imp1matprec L D' muest kest) h = (h ++ [vd], Ok (length h))) as Himp.
  { intros h1 d vd Hrun Hd.
    destruct (imp1matprec_Ok L _ _ _ _ _ _ _ _ _ HD Hmu Hk Hwf Hrun)
      as (vd0 & -> & -> & Hinv).
    rewrite lookup_new in Hd. injection Hd as ->.
    destruct (run (imp1matprec L D' muest kest) h) as [h2 [d2|e]] eqn:E2.
    - destruct (imp1matprec_Ok L _ _ _ _ _ _ _ _ _ HD' Hmu Hk Hwf' E2)
        as (vd2 & -> & -> & Hinv2).
      do 2 f_equal. f_equal.
      pose proof Hinv as (Hwfd & Hrd & Hcd & _).
      pose proof Hinv2 as (Hwfd2 & Hrd2 & Hcd2 & _).
      apply mat_eq_rows; [done|done|lia|lia|].
      intros i Hi.
      destruct (lookup_lt_is_Some_2 (mem vD') i) as [x' Hx'].
      { destruct Hwf' as [-> _]. lia. }
      destruct (Forall2_lookup_r _ _ _ _ _ Hsame Hx') as (x & Hx & Hxx).
      destruct (imp1_inv_row L _ _ _ _ _ _ Hinv Hwf Hx) as (x1 & Hx1 & Hc1).
      destruct (imp1_inv_row L _ _ _ _ _ _ Hinv2 Hwf' Hx')
        as (x2 & Hx2 & Hc2).
      rewrite Hx1, Hx2. f_equal. symmetry. by eapply completes_same.
    - exfalso.
      destruct (imp1matprec_Err L _ _ _ _ _ _ _ _ _ HD' Hmu Hk Hwf' E2)
        as (j & x' & Hx' & Herr).
      destruct (Forall2_lookup_r _ _ _ _ _ Hsame Hx') as (x & Hx & Hxx).
      destruct (imp1_inv_row L _ _ _ _ _ _ Hinv Hwf Hx)
        as (x1 & _ & xhat & Hcm & _).
      rewrite (cond_mean_same L _ _ _ _ Hxx) in Hcm. congruence. }
  split; [exact Himp|].
  intros h1 o Hrun.
  destruct (EMcycleprec_Ok L _ _ _ _ _ _ _ _ _ HD Hmu Hk Hwf Hrun)
    as (dimp & T2 & newS & newK & H). cbv zeta in H.
  destruct H as (Hrun1 & Hinv & Hit & HS & HK & -> & ->).
  pose proof Hinv as (_ & Hrd & Hcd & _).
  pose proof (Himp _ _ dimp Hrun1 (lookup_new _ _)) as Hrun2.
  rewrite (EMcycleprec_run L h D' muest kest vD' vk dimp HD' Hk Hrun2).
  cbv zeta. rewrite <- Hsr, Hrd, Hcd.
  rewrite <- (iter_ext_range (λ i, imp2_body L vk i vD)
                (λ i, imp2_body L vk i vD')).
  2:{ intros j s Hj.
      destruct (lookup_lt_is_Some_2 (mem vD) j) as [x Hx].
      { destruct Hwf as [-> _]. lia. }
      destruct (Forall2_lookup_l _ _ _ _ _ Hsame Hx) as (x' & Hx' & Hxx).
      apply (imp2_body_pattern L vk j vD vD' s x x' Hx Hx').
      eapply list.Forall2_impl; [exact Hxx|]. apply same_cell_finite. }
  rewrite Hit. cbn [fst snd]. rewrite HS, HK.
  eexists. split; [reflexivity|]. simpl.
  split; [|split].
  - rewrite (lookup_ext h _ _ 5 (div_by (n_rows vD)
       (mk (n_cols vD) 1 (λ r c, dot (t dimp) r (ones (n_rows vD)) c))))
      by (lia || reflexivity).
    symmetry. apply (lookup_ext _ _ _ 5); [lia|reflexivity].
  - rewrite (lookup_ext h _ _ 6 newS) by (lia || reflexivity).
    symmetry. apply (lookup_ext _ _ _ 6); [lia|reflexivity].
  - rewrite (lookup_ext h _ _ 7 newK) by (lia || reflexivity).
    symmetry. apply (lookup_ext _ _ _ 7); [lia|reflexivity].
Qed.

Lemma missing_values_unread_witness :
  (∃ vd, (run (imp1matprec Binary64.lib 0 2 3) Binary64.h2).1 !! 4 = Some vd
     ∧ run (imp1matprec Binary64.lib 1 2 3) Binary64.h2
       = (Binary64.h2 ++ [vd], Ok 4))
  ∧ (∃ h', run (EMcycleprec Binary64.lib 1 2 3) Binary64.h2
           = (h', Ok (EmOut 9 10 11))
       ∧ h' !! 9 = (run (EMcycleprec Binary64.lib 0 2 3) Binary64.h2).1 !! 9
       ∧ h' !! 10 = (run (EMcycleprec Binary64.lib 0 2 3) Binary64.h2).1 !! 10
       ∧ h' !! 11
         = (run (EMcycleprec Binary64.lib 0 2 3) Binary64.h2).1 !! 11).
Proof.
  destruct (missing_values_unread Binary64.lib Binary64.h2 0 1 2 3
              Binary64.Dn Binary64.Di Binary64.mu2 Binary64.K2
              eq_refl eq_refl eq_refl eq_refl
              Binary64Facts.wf_Dn Binary64Facts.wf_Di
              Binary64Facts.same_data_Dn_Di) as [H1 H2].
  assert (run (imp1matprec Binary64.lib 0 2 3) Binary64.h2
          = ((run (imp1matprec Binary64.lib 0 2 3) Binary64.h2).1, Ok 4))
    as Hrun.
  { apply run_result. vm_compute. reflexivity. }
  destruct (imp1matprec_Ok Binary64.lib Binary64.h2 0 2 3 Binary64.Dn
              Binary64.mu2 Binary64.K2 _ _ eq_refl eq_refl eq_refl
              Binary64Facts.wf_Dn Hrun)
    as (vd & Hh & _ & _).
  assert ((run (imp1matprec Binary64.lib 0 2 3) Binary64.h2).1 !! 4 = Some vd)
    as Hd.
  { rewrite Hh. reflexivity. }
  split.
  - exists vd. split; [exact Hd|]. exact (H1 _ _ _ Hrun Hd).
  - apply (H2 (run (EMcycleprec Binary64.lib 0 2 3) Binary64.h2).1
              (EmOut 9 10 11)).
    apply run_result. vm_compute. reflexivity.
Defined.

(** X6: imputation works row by row: where [imp1matprec] returns on [D1]
    and on [D2], it returns on the rows of [D1] followed by those of [D2]
    the rows of its first result followed by those of its second. *)
Theorem imp1matprec_join_cols {F : scalar} (L : numerics F)
    (h : heap F) D1 D2 D12 muest kest v1 v2 vmu vk h1 h2 d1 d2 vd1 vd2 :
  h !! D1 = Some v1 → h !! D2 = Some v2 →
  h !! D12 = Some (join_cols v1 v2) →
  h !! muest = Some vmu → h !! kest = Some vk →
  wf v1 → wf v2 → n_cols v2 = n_cols v1 →
  run (imp1matprec L D1 muest kest) h = (h1, Ok d1) → h1 !! d1 = Some vd1 →
  run (imp1matprec L D2 muest kest) h = (h2, Ok d2) → h2 !! d2 = Some vd2 →
  run (imp1matprec L D12 muest kest) h
  = (h ++ [join_cols vd1 vd2], Ok (length h)).
Proof.
  intros H1 H2 H12 Hmu Hk Hwf1 Hwf2 Hcols R1 Hd1 R2 Hd2.
  destruct (imp1matprec_Ok L _ _ _ _ _ _ _ _ _ H1 Hmu Hk Hwf1 R1)
    as (w1 & -> & -> & Hinv1).
  rewrite lookup_new in Hd1. injection Hd1 as ->.
  destruct (imp1matprec_Ok L _ _ _ _ _ _ _ _ _ H2 Hmu Hk Hwf2 R2)
    as (w2 & -> & -> & Hinv2).
  rewrite lookup_new in Hd2. injection Hd2 as ->.
  pose proof (join_cols_wf _ _ Hwf1 Hwf2 Hcols) as Hwf12.
  pose proof Hinv1 as (Hwfd1 & Hrd1 & Hcd1 & _).
  pose proof Hinv2 as (Hwfd2 & Hrd2 & Hcd2 & _).
  assert (∀ i x, mem (join_cols v1 v2) !! i = Some x →
            ∃ x', mem (join_cols vd1 vd2) !! i = Some x'
                  ∧ completes L vmu vk x x') as Hrows.
  { intros i x. rewrite !join_cols_lookup by done. rewrite Hrd1.
    destruct (decide _); intros Hx.
    - by apply (imp1_inv_row L _ _ _ _ _ _ Hinv1 Hwf1).
    - by apply (imp1_inv_row L _ _ _ _ _ _ Hinv2 Hwf2). }
  destruct (run (imp1matprec L D12 muest kest) h) as [h3 [d3|e]] eqn:E3.
  - destruct (imp1matprec_Ok L _ _ _ _ _ _ _ _ _ H12 Hmu Hk Hwf12 E3)
      as (w & -> & -> & Hinv).
    do 2 f_equal. f_equal.
    pose proof Hinv as (Hwfd & Hrd & Hcd & _).
    apply mat_eq_rows; [done| |simpl in *; lia|simpl in *; lia|].
    { apply join_cols_wf; [done|done|lia]. }
    intros i Hi.
    destruct (lookup_lt_is_Some_2 (mem (join_cols v1 v2)) i) as [x Hx].
    { destruct Hwf12 as [-> _]. lia. }
    destruct (imp1_inv_row L _ _ _ _ _ _ Hinv Hwf12 Hx) as (x1 & Hx1 & Hc1).
    destruct (Hrows i x Hx) as (x2 & Hx2 & Hc2).
    rewrite Hx1, Hx2. f_equal. by eapply completes_unique.
  - exfalso.
    destruct (imp1matprec_Err L _ _ _ _ _ _ _ _ _ H12 Hmu Hk Hwf12 E3)
      as (j & x & Hx & Herr).
    destruct (Hrows j x Hx) as (x' & _ & xhat & Hcm & _). congruence.
Qed.

Lemma imp1matprec_join_cols_witness :
  ∃ vd1 vd2,
    (run (imp1matprec Exact.lib 0 3 4) Examples.h9).1 !! 6 = Some vd1
    ∧ (run (imp1matprec Exact.lib 1 3 4) Examples.h9).1 !! 6 = Some vd2
    ∧ run (imp1matprec Exact.lib 2 3 4) Examples.h9
      = (Examples.h9 ++ [join_cols vd1 vd2], Ok 6).
Proof.
  assert (wf Examples.D1) as Hwf1 by (split; [reflexivity|repeat constructor]).
  assert (wf Examples.D2) as Hwf2 by (split; [reflexivity|repeat constructor]).
  assert (run (imp1matprec Exact.lib 0 3 4) Examples.h9
          = ((run (imp1matprec Exact.lib 0 3 4) Examples.h9).1, Ok 6)) as R1.
  { apply run_result. vm_compute. reflexivity. }
  assert (run (imp1matprec Exact.lib 1 3 4) Examples.h9
          = ((run (imp1matprec Exact.lib 1 3 4) Examples.h9).1, Ok 6)) as R2.
  { apply run_result. vm_compute. reflexivity. }
  destruct (imp1matprec_Ok Exact.lib Examples.h9 0 3 4 Examples.D1
              Examples.mu0 Examples.K0 _ _ eq_refl eq_refl eq_refl Hwf1 R1)
    as (vd1 & Hh1 & _ & _).
  destruct (imp1matprec_Ok Exact.lib Examples.h9 1 3 4 Examples.D2
              Examples.mu0 Examples.K0 _ _ eq_refl eq_refl eq_refl Hwf2 R2)
    as (vd2 & Hh2 & _ & _).
  assert ((run (imp1matprec Exact.lib 0 3 4) Examples.h9).1 !! 6 = Some vd1)
    as Hd1 by (rewrite Hh1; reflexivity).
  assert ((run (imp1matprec Exact.lib 1 3 4) Examples.h9).1 !! 6 = Some vd2)
    as Hd2 by (rewrite Hh2; reflexivity).
  exists vd1, vd2. split; [exact Hd1|]. split; [exact Hd2|].
  exact (imp1matprec_join_cols Exact.lib Examples.h9 0 1 2 3 4
           Examples.D1 Examples.D2 Examples.mu0 Examples.K0 _ _ 6 6 vd1 vd2
           eq_refl eq_refl eq_refl eq_refl eq_refl Hwf1 Hwf2 eq_refl
           R1 Hd1 R2 Hd2).
Defined.

(** ** The correction of the second moment *)

(** X7: [imp2matprec] is not atomic.  With [K] and [t2] of the size of the
    rows of [D] and a library whose inverse has the size of its argument,
    a failing call fails with the library's runtime error, at a row whose
    block [K_mm] the library does not invert, and leaves in [t2] the
    corrections of the rows before that one. *)
Theorem imp2matprec_failure_keeps_partial_sums {F : scalar} (L : numerics F)
    (h : heap F) D kest t2 vD vk vt2 h' e :
  h !! D = Some vD → h !! kest = Some vk → h !! t2 = Some vt2 → t2 ≠ kest →
  wf vD → wf vt2 →
  n_rows vk = n_cols vD → n_cols vk = n_cols vD →
  n_rows vt2 = n_cols vD → n_cols vt2 = n_cols vD →
  inv_keeps_shape L →
  run (imp2matprec L D kest t2) h = (h', Err e) →
  e = runtime_error
  ∧ ∃ i x K_mm vt2',
      mem vD !! i = Some x
      ∧ submat vk (missing x) (missing x) = Ok K_mm ∧ la_inv L K_mm = None
      ∧ h' !! t2 = Some vt2'
      ∧ ∀ a b, corrected L vk (take i (mem vD)) a b (entry vt2 a b)
               = Ok (entry vt2' a b).
Proof.
  intros HD Hk Ht Hne Hwf Hwft Hkr Hkc Htr Htc Hshape.
  rewrite (imp2matprec_run L _ _ _ _ _ _ _ HD Hk Ht Hne).
  destruct (iter _ _ _ _) as [T r] eqn:Hit. simpl. intros [= <- ->].
  destruct (iter_Err _ _ _ _ _ _ Hit) as (i & Hi & Hpre & Hfail).
  simpl in Hfail.
  destruct (imp2_iter_prefix L vk vD i 0 vt2 T Hwf ltac:(lia) Hwft Hpre)
    as (HwfT & HrT & HcT & Hcorr).
  destruct (lookup_lt_is_Some_2 (mem vD) i) as [x Hx].
  { destruct Hwf as [-> _]. lia. }
  pose proof (wf_row_length _ _ _ Hwf Hx) as Hlen.
  destruct (imp2_body_valid L vk i vD T x Hx) as (K_mm & HK & Hv);
    [lia..|done|].
  destruct (la_inv L K_mm) as [Ki|] eqn:Ei.
  { rewrite Hfail in Hv. discriminate. }
  rewrite Hfail in Hv. injection Hv as ->. split; [done|].
  exists i, x, K_mm, T. split; [done|]. split; [done|]. split; [done|].
  split.
  - apply list_lookup_insert_eq. rewrite length_app.
    apply lookup_lt_Some in Ht. lia.
  - intros a b. rewrite drop_0 in Hcorr. apply Hcorr.
Qed.

Lemma imp2matprec_failure_keeps_partial_sums_witness :
  ∃ i x K_mm vt2',
    mem Examples.D0 !! i = Some x
    ∧ submat Examples.K5 (missing x) (missing x) = Ok K_mm
    ∧ la_inv Exact.lib K_mm = None
    ∧ (run (imp2matprec Exact.lib 0 1 2) Examples.h12).1 !! 2 = Some vt2'
    ∧ vt2' ≠ Examples.T0
    ∧ ∀ a b, corrected Exact.lib Examples.K5 (take i (mem Examples.D0)) a b
               (entry Examples.T0 a b) = Ok (entry vt2' a b).
Proof.
  assert (wf Examples.T0) as HwfT by (split; [reflexivity|repeat constructor]).
  destruct (imp2matprec_failure_keeps_partial_sums Exact.lib Examples.h12 0 1 2
              Examples.D0 Examples.K5 Examples.T0
              (run (imp2matprec Exact.lib 0 1 2) Examples.h12).1 runtime_error
              eq_refl eq_refl eq_refl ltac:(lia) ExactMore.wf_D0 HwfT
              eq_refl eq_refl eq_refl eq_refl ExactFacts.inv_shape)
    as [_ H].
  - apply run_result. vm_compute. reflexivity.
  - destruct H as (i & x & K_mm & vt2' & Hx & HK & Hn & Hl & Hc).
    exists i, x, K_mm, vt2'. repeat (split; [assumption|]).
    split; [|exact Hc].
    intros ->.
    apply (f_equal (from_option
             (λ m : mat Exact.Qx,
                bool_decide (entry m 0 0 = Exact.e_of_Z 0)) true)) in Hl.
    vm_compute in Hl. discriminate Hl.
Defined.

(** X8: [imp2matprec] reads of [D] only which cells are missing: on two
    matrices with the same pattern of missing cells it ends with the same
    outcome and the same [t2], whatever the observed values. *)
Theorem imp2matprec_reads_pattern_only {F : scalar} (L : numerics F)
    (h : heap F) D D' kest t2 vD vD' vk vt2 :
  h !! D = Some vD → h !! D' = Some vD' →
  h !! kest = Some vk → h !! t2 = Some vt2 → t2 ≠ kest →
  wf vD → same_pattern vD vD' →
  (run (imp2matprec L D kest t2) h).2 = (run (imp2matprec L D' kest t2) h).2
  ∧ (run (imp2matprec L D kest t2) h).1 !! t2
    = (run (imp2matprec L D' kest t2) h).1 !! t2.
Proof.
  intros HD HD' Hk Ht Hne Hwf [Hn Hp].
  rewrite (imp2matprec_run L _ _ _ _ _ _ _ HD Hk Ht Hne).
  rewrite (imp2matprec_run L _ _ _ _ _ _ _ HD' Hk Ht Hne).
  rewrite <- Hn.
  rewrite (iter_ext_range (λ i, imp2_body L vk i vD)
             (λ i, imp2_body L vk i vD')).
  2:{ intros j s Hj.
      destruct (lookup_lt_is_Some_2 (mem vD) j) as [x Hx].
      { destruct Hwf as [-> _]. lia. }
      destruct (Forall2_lookup_l _ _ _ _ _ Hp Hx) as (x' & Hx' & Hxx).
      by eapply imp2_body_pattern. }
  simpl. split; [done|].
  apply lookup_lt_Some in Ht.
  rewrite !list_lookup_insert_eq by (rewrite length_app; lia). done.
Qed.

Lemma imp2matprec_reads_pattern_only_witness :
  (run (imp2matprec Exact.lib 0 2 3) Examples.h13).2
  = (run (imp2matprec Exact.lib 1 2 3) Examples.h13).2
  ∧ (run (imp2matprec Exact.lib 0 2 3) Examples.h13).1 !! 3
    = (run (imp2matprec Exact.lib 1 2 3) Examples.h13).1 !! 3.
Proof.
  apply (imp2matprec_reads_pattern_only Exact.lib Examples.h13 0 1 2 3
           Examples.D0 Examples.D4 Examples.K0 Examples.T0).
  - reflexivity.
  - reflexivity.
  - reflexivity.
  - reflexivity.
  - lia.
  - exact ExactMore.wf_D0.
  - split; [reflexivity|]. repeat constructor.
Defined.

(** X9: [imp2matprec] accumulates: a call on [D1] followed by a call on
    [D2], with the same [t2], ends with the same outcome and the same
    [t2] as one call on the rows of [D1] followed by those of [D2]. *)
Theorem imp2matprec_accumulates {F : scalar} (L : numerics F)
    (h : heap F) D1 D2 D12 kest t2 v1 v2 vk vt2 :
  h !! D1 = Some v1 → h !! D2 = Some v2 →
  h !! D12 = Some (join_cols v1 v2) →
  h !! kest = Some vk → h !! t2 = Some vt2 → t2 ≠ kest → t2 ≠ D2 →
  wf v1 → wf v2 →
  (run (imp2matprec L D1 kest t2;; imp2matprec L D2 kest t2) h).2
  = (run (imp2matprec L D12 kest t2) h).2
  ∧ (run (imp2matprec L D1 kest t2;; imp2matprec L D2 kest t2) h).1 !! t2
    = (run (imp2matprec L D12 kest t2) h).1 !! t2.
Proof.
  intros H1 H2 H12 Hk Ht Hne Hne2 Hwf1 Hwf2.
  pose proof (lookup_lt_Some _ _ _ Ht) as Hlt.
  pose proof (lookup_lt_Some _ _ _ Hk) as Hltk.
  pose proof (lookup_lt_Some _ _ _ H2) as Hlt2.
  rewrite (imp2matprec_run L _ _ _ _ _ _ _ H12 Hk Ht Hne).
  simpl n_rows. rewrite iter_app_0.
  rewrite (iter_ext_range (λ i, imp2_body L vk i (join_cols v1 v2))
             (λ i, imp2_body L vk i v1) (n_rows v1) 0).
  2:{ intros j s Hj. unfold imp2_body, row.
      rewrite join_cols_lookup by done. by rewrite decide_True by lia. }
  rewrite run_bind.
  rewrite (imp2matprec_run L _ _ _ _ _ _ _ H1 Hk Ht Hne).
  destruct (iter (λ i, imp2_body L vk i v1) 0 (n_rows v1) vt2)
    as [T1 [[]|e]] eqn:E1; cbn [fst snd].
  2:{ split; [done|].
      rewrite !list_lookup_insert_eq by (rewrite length_app; lia). done. }
  rewrite (imp2matprec_run L D2 kest t2 _ v2 vk T1).
  2:{ rewrite list_lookup_insert_ne by done. by apply lookup_app_l_Some. }
  2:{ rewrite list_lookup_insert_ne by done. by apply lookup_app_l_Some. }
  2:{ apply list_lookup_insert_eq. rewrite length_app. lia. }
  2:{ done. }
  rewrite (iter_ext_range (λ j, imp2_body L vk (n_rows v1 + j) (join_cols v1 v2))
             (λ i, imp2_body L vk i v2) (n_rows v2) 0).
  2:{ intros j s Hj. unfold imp2_body, row.
      rewrite join_cols_lookup by done. rewrite decide_False by lia.
      by replace (n_rows v1 + j - n_rows v1) with j by lia. }
  cbn [fst snd]. split; [done|].
  rewrite !list_lookup_insert_eq
    by (rewrite ?length_app, ?length_insert, ?length_app; simpl; lia).
  done.
Qed.

Lemma imp2matprec_accumulates_witness :
  (run (imp2matprec Exact.lib 0 3 4;; imp2matprec Exact.lib 1 3 4) Examples.h14).2
  = (run (imp2matprec Exact.lib 2 3 4) Examples.h14).2
  ∧ (run (imp2matprec Exact.lib 0 3 4;; imp2matprec Exact.lib 1 3 4) Examples.h14).1 !! 4
    = (run (imp2matprec Exact.lib 2 3 4) Examples.h14).1 !! 4.
Proof.
  apply (imp2matprec_accumulates Exact.lib Examples.h14 0 1 2 3 4
           Examples.D1 Examples.D2 Examples.K0 Examples.T0).
  - reflexivity.
  - reflexivity.
  - reflexivity.
  - reflexivity.
  - reflexivity.
  - lia.
  - lia.
  - split; [reflexivity|]. repeat constructor.
  - split; [reflexivity|]. repeat constructor.
Defined.

(** ** The likelihood *)

(** X10: with [μ] and [K] of the size of the rows of [D] and a library
    whose inverse has the size of its argument, [nllprec] raises nothing
    but the library's runtime error: it fails exactly when the library
    does not invert [K], or does not give the determinant or the inverse
    of the block [S_oo] of some row. *)
Theorem nllprec_fails_only_in_the_library {F : scalar} (L : numerics F)
    (h : heap F) D muest kest vD vmu vk :
  h !! D = Some vD → h !! muest = Some vmu → h !! kest = Some vk → wf vD →
  n_rows vmu = n_cols vD → n_cols vmu = 1 →
  n_rows vk = n_cols vD → n_cols vk = n_cols vD →
  inv_keeps_shape L →
  match (run (nllprec L D muest kest) h).2 with
  | Ok _ => ∃ S, la_inv L vk = Some S
      ∧ ∀ x, x ∈ mem vD →
          ∃ S_oo, submat S (observed x) (observed x) = Ok S_oo
            ∧ is_Some (la_det L S_oo) ∧ is_Some (la_inv L S_oo)
  | Err e => e = runtime_error
      ∧ (la_inv L vk = None
         ∨ ∃ S x S_oo, la_inv L vk = Some S ∧ x ∈ mem vD
             ∧ submat S (observed x) (observed x) = Ok S_oo
             ∧ (la_det L S_oo = None ∨ la_inv L S_oo = None))
  end.
Proof.
  intros HD Hmu Hk Hwf Hmr Hmc Hkr Hkc Hshape.
  rewrite (nllprec_result L _ _ _ _ _ _ _ HD Hmu Hk Hwf).
  unfold nll_spec, inv. rewrite Hkr, Hkc, Nat.eqb_refl.
  destruct (la_inv L vk) as [S|] eqn:Ei; simpl; [|auto].
  pose proof Ei as Ei'. apply Hshape in Ei' as [Hr Hc]; [|lia].
  pose proof (nll_sum_outcome L vmu S (mem vD) s_zero) as Hout.
  destruct Hwf as [_ Hrows]. rewrite list.Forall_forall in Hrows.
  specialize (Hout ltac:(intros x Hx; specialize (Hrows x Hx); lia)
                   Hmc Hshape).
  destruct (nll_sum L vmu S (mem vD) s_zero) as [v|e].
  - exists S. split; [done|]. exact Hout.
  - destruct Hout as (-> & x & S_oo & Hx & HS & Hn). split; [done|].
    right. exists S, x, S_oo. auto.
Qed.

Lemma nllprec_fails_only_in_the_library_witness :
  (∃ S, la_inv Exact.lib Examples.K0 = Some S
     ∧ ∀ x, x ∈ mem Examples.D0 →
         ∃ S_oo, submat S (observed x) (observed x) = Ok S_oo
           ∧ is_Some (la_det Exact.lib S_oo)
           ∧ is_Some (la_inv Exact.lib S_oo))
  ∧ (run (nllprec Exact.lib 0 1 2) Examples.h6).2 = Err runtime_error.
Proof.
  pose proof (nllprec_fails_only_in_the_library Exact.lib Examples.h0 0 1 2
                Examples.D0 Examples.mu0 Examples.K0
                eq_refl eq_refl eq_refl ExactMore.wf_D0
                eq_refl eq_refl eq_refl eq_refl ExactFacts.inv_shape) as H0.
  pose proof (nllprec_fails_only_in_the_library Exact.lib Examples.h6 0 1 2
                Examples.D0 Examples.mu0 Examples.K4
                eq_refl eq_refl eq_refl ExactMore.wf_D0
                eq_refl eq_refl eq_refl eq_refl ExactFacts.inv_shape) as H6.
  split.
  - destruct (run (nllprec Exact.lib 0 1 2) Examples.h0).2 as [v|e] eqn:E.
    + exact H0.
    + vm_compute in E. discriminate E.
  - destruct (run (nllprec Exact.lib 0 1 2) Examples.h6).2 as [v|e] eqn:E.
    + vm_compute in E. discriminate E.
    + destruct H6 as [-> _]. reflexivity.
Defined.

(** X11: [nllprec] does not read the values stored in missing cells: on
    two matrices with equal observed cells and the same missing cells it
    returns the same. *)
Theorem nllprec_ignores_missing_values {F : scalar} (L : numerics F)
    (h : heap F) D D' muest kest vD vD' vmu vk :
  h !! D = Some vD → h !! D' = Some vD' →
  h !! muest = Some vmu → h !! kest = Some vk →
  wf vD → wf vD' → same_data vD vD' →
  (run (nllprec L D muest kest) h).2 = (run (nllprec L D' muest kest) h).2.
Proof.
  intros HD HD' Hmu Hk Hwf Hwf' (_ & _ & Hsame).
  rewrite (nllprec_result L _ _ _ _ _ _ _ HD Hmu Hk Hwf).
  rewrite (nllprec_result L _ _ _ _ _ _ _ HD' Hmu Hk Hwf').
  unfold nll_spec. destruct (inv L vk) as [S|e]; simpl; [|done].
  by apply nll_sum_same.
Qed.

Lemma nllprec_ignores_missing_values_witness :
  (run (nllprec Binary64.lib 0 2 3) Binary64.h2).2
  = (run (nllprec Binary64.lib 1 2 3) Binary64.h2).2.
Proof.
  exact (nllprec_ignores_missing_values Binary64.lib Binary64.h2 0 1 2 3
           Binary64.Dn Binary64.Di Binary64.mu2 Binary64.K2
           eq_refl eq_refl eq_refl eq_refl
           Binary64Facts.wf_Dn Binary64Facts.wf_Di
           Binary64Facts.same_data_Dn_Di).
Defined.

(** ** The cycle *)

(** X12: [EMcycleprec] does not reject a matrix without rows.  The two
    moments are zero, the division by [N = 0] gives a mean whose entries
    are all [0 / 0], every element of [S_new] is [0/0 − (0 + 0/0 · 0/0)],
    and the call succeeds or fails as the library inverts that matrix or
    not. *)
Theorem EMcycleprec_no_rows {F : scalar} (L : numerics F)
    (h : heap F) D muest kest vD vk :
  h !! D = Some vD → h !! kest = Some vk → n_rows vD = 0 →
  let P := n_cols vD in
  let c := s_div s_zero (s_of_nat 0) in
  let newmu := mk P 1 (λ _ _, c) in
  let newS := mk P P (λ _ _, s_sub c (s_add s_zero (s_mul c c))) in
  ∃ h', run (EMcycleprec L D muest kest) h
        = (h', match la_inv L newS with
               | Some _ => Ok (EmOut (length h + 5) (length h + 6)
                                     (length h + 7))
               | None => Err runtime_error
               end)
    ∧ h' !! (length h + 5) = Some newmu
    ∧ h' !! (length h + 6) = Some newS.
Proof.
  intros HD Hk HN P c newmu newS.
  rewrite (EMcycleprec_run L h D muest kest vD vk vD HD Hk
             (imp1matprec_no_rows L h D muest kest vD HD HN)).
  cbv zeta. rewrite HN. cbn [iter fst snd].
  assert (div_by 0 (mk P 1 (λ r c0, dot (t vD) r (ones 0) c0)) = newmu) as E1.
  { unfold div_by, mmap. apply mk_ext. intros r c0 Hr Hc.
    rewrite entry_mk by done. rewrite dot_no_terms; [done|]. by simpl. }
  fold P. rewrite E1.
  assert (msub (div_by 0 (mk P P (λ r c0, dot (t vD) r vD c0)))
               (mk P P (λ r c0, dot newmu r (t newmu) c0)) = Ok newS) as E2.
  { unfold msub. rewrite mzip_intro by reflexivity. f_equal.
    apply mk_ext. intros r c0 Hr Hc. simpl in Hr, Hc.
    rewrite entry_div_by, !entry_mk by (simpl; lia).
    rewrite dot_no_terms by (by simpl).
    unfold dot. simpl. unfold newmu, t. by rewrite !entry_mk by (simpl; lia). }
  rewrite E2. unfold inv. simpl n_rows. simpl n_cols. rewrite Nat.eqb_refl.
  destruct (la_inv L newS) as [newK|]; simpl; eexists;
    (split; [reflexivity|]);
    (split; [apply (lookup_ext _ _ _ 5)|apply (lookup_ext _ _ _ 6)]);
    (lia || reflexivity).
Qed.

Lemma EMcycleprec_no_rows_witness :
  (run (EMcycleprec Exact.lib 0 1 2) Examples.h10).2 = Err runtime_error
  ∧ (run (EMcycleprec Exact.lib 0 1 2) Examples.h10).1 !! 8
    = Some (@Mat Exact.Qx 2 1 [[Exact.NonFinite]; [Exact.NonFinite]]).
Proof.
  destruct (EMcycleprec_no_rows Exact.lib Examples.h10 0 1 2 Examples.E0 Examples.K0
              eq_refl eq_refl eq_refl) as (h' & Hrun & Hmu & _).
  rewrite Hrun. split; [reflexivity|exact Hmu].
Defined.

(** X13: on a matrix without missing entry one cycle does not depend on
    the parameters it starts from: [EMcycleprec] with any [μ] and [K]
    that are large enough does the same, and what it returns is the
    sample mean and the sample covariance (with divisor [N]) of [D], the
    element [(j, k)] of the product of the mean by its transpose being a
    sum of one term, [0 + μ_new j · μ_new k].  The library inverts the
    empty matrix to an empty matrix; for the formulas, multiplication by
    one leaves a scalar as it is, as it does a [double]. *)
Theorem EMcycleprec_complete_data {F : scalar} (L : numerics F)
    (h : heap F) D muest kest muest' kest' vD vmu vk vmu' vk' Ki :
  h !! D = Some vD → wf vD →
  h !! muest = Some vmu → h !! kest = Some vk →
  h !! muest' = Some vmu' → h !! kest' = Some vk' →
  la_inv L (Mat 0 0 []) = Some Ki → n_rows Ki = 0 → n_cols Ki = 0 →
  (∀ x, x ∈ mem vD → missing x = []) →
  n_cols vD ≤ n_rows vmu * n_cols vmu → n_cols vD ≤ n_cols vk →
  n_cols vD ≤ n_rows vmu' * n_cols vmu' → n_cols vD ≤ n_cols vk' →
  run (EMcycleprec L D muest' kest') h = run (EMcycleprec L D muest kest) h
  ∧ ((∀ a : F, s_mul a (s_of_nat 1) = a) →
     ∀ h' o, run (EMcycleprec L D muest kest) h = (h', Ok o) →
      ∃ newmu newS, h' !! out_mu o = Some newmu ∧ h' !! out_S o = Some newS
        ∧ (∀ j, j < n_cols vD →
             entry newmu j 0 = s_div (col_sum vD j) (s_of_nat (n_rows vD)))
        ∧ (∀ j k, j < n_cols vD → k < n_cols vD →
             entry newS j k
             = s_sub (s_div (gram vD j k) (s_of_nat (n_rows vD)))
                     (s_add s_zero
                        (s_mul (entry newmu j 0) (entry newmu k 0))))).
Proof.
  intros HD Hwf Hmu Hk Hmu' Hk' Hi Hr Hc Hall Hsm Hsk Hsm' Hsk'.
  assert (∀ (K : mat F) G,
            iter (λ i, imp2_body L K i vD) 0 (n_rows vD) G = (G, Ok ()))
    as Hit.
  { intros K G. apply iter_fix. intros j Hj.
    destruct (lookup_lt_is_Some_2 (mem vD) j) as [x Hx].
    { destruct Hwf as [-> _]. lia. }
    eapply imp2_body_complete; eauto.
    apply Hall. by eapply list_elem_of_lookup_2. }
  pose proof (EMcycleprec_run L h D muest kest vD vk vD HD Hk
         (imp1matprec_complete L h D muest kest vD vmu vk Ki HD Hmu Hk Hwf
            Hi Hr Hc Hall (λ _, conj Hsm Hsk))) as E.
  pose proof (EMcycleprec_run L h D muest' kest' vD vk' vD HD Hk'
         (imp1matprec_complete L h D muest' kest' vD vmu' vk' Ki HD Hmu' Hk'
            Hwf Hi Hr Hc Hall (λ _, conj Hsm' Hsk'))) as E'.
  cbv zeta in E, E'. rewrite Hit in E, E'. cbn [fst snd] in E, E'.
  split; [by rewrite E, E'|].
  intros Hmul h' o Hrun. rewrite E in Hrun. clear E E'.
  destruct (msub _ _) as [newS|e] eqn:ES; [|discriminate].
  destruct (inv L newS) as [newK|e] eqn:EK; [|discriminate].
  injection Hrun as <- <-. eexists _, newS.
  split; [simpl; apply (lookup_ext _ _ _ 5); [lia|reflexivity]|].
  split; [simpl; apply (lookup_ext _ _ _ 6); [lia|reflexivity]|].
  split.
  - intros j Hj. rewrite entry_div_by, entry_mk by (simpl; lia).
    by rewrite dot_t_ones.
  - intros j k Hj Hk0. apply mzip_Ok in ES as (_ & _ & ->).
    rewrite entry_mk by (simpl; lia).
    rewrite entry_div_by, !entry_mk by (simpl; lia).
    rewrite dot_t_self by done.
    rewrite dot_outer_term by (done || simpl; lia). done.
Qed.

Lemma EMcycleprec_complete_data_witness :
  run (EMcycleprec Binary64.lib 0 3 4) Binary64.h3
  = run (EMcycleprec Binary64.lib 0 1 2) Binary64.h3
  ∧ ∃ newmu newS,
      (run (EMcycleprec Binary64.lib 0 1 2) Binary64.h3).1 !! 10 = Some newmu
      ∧ (run (EMcycleprec Binary64.lib 0 1 2) Binary64.h3).1 !! 11
        = Some newS
      ∧ (∀ j, j < 2 →
           entry newmu j 0 = s_div (col_sum Binary64.Dc j) (s_of_nat 4))
      ∧ (∀ j k, j < 2 → k < 2 →
           entry newS j k
           = s_sub (s_div (gram Binary64.Dc j k) (s_of_nat 4))
                   (s_add s_zero
                      (s_mul (entry newmu j 0) (entry newmu k 0)))).
Proof.
  assert (wf Binary64.Dc) as Hwf by (split; [reflexivity|repeat constructor]).
  destruct (EMcycleprec_complete_data Binary64.lib Binary64.h3 0 1 2 3 4
              Binary64.Dc Binary64.mu2 Binary64.K2 Binary64.mu3 Binary64.K3
              (Mat 0 0 [])
              eq_refl Hwf eq_refl eq_refl eq_refl eq_refl
              eq_refl eq_refl eq_refl) as [H1 H2].
  - intros x Hx. repeat (apply elem_of_cons in Hx as [->|Hx]; [reflexivity|]).
    by apply elem_of_nil in Hx.
  - vm_compute. lia.
  - vm_compute. lia.
  - vm_compute. lia.
  - vm_compute. lia.
  - split; [exact H1|].
    apply (H2 float_mul_1_r
              (run (EMcycleprec Binary64.lib 0 1 2) Binary64.h3).1
              (EmOut 10 11 12)).
    apply run_result. vm_compute. reflexivity.
Defined.

(** X14: the covariance [EMcycleprec] returns is symmetric, when the
    multiplication of scalars is commutative (as it is for [double]) and
    the inverse the library returns for the block [K_mm] of each row is
    symmetric. *)
Theorem EMcycleprec_S_symmetric {F : scalar} (L : numerics F)
    (h : heap F) D muest kest vD vmu vk h' o :
  h !! D = Some vD → h !! muest = Some vmu → h !! kest = Some vk → wf vD →
  (∀ a b : F, s_mul a b = s_mul b a) →
  (∀ x K_mm Ki, x ∈ mem vD →
     submat vk (missing x) (missing x) = Ok K_mm → la_inv L K_mm = Some Ki →
     ∀ p q, entry Ki p q = entry Ki q p) →
  run (EMcycleprec L D muest kest) h = (h', Ok o) →
  ∃ newS, h' !! out_S o = Some newS ∧ t newS = newS.
Proof.
  intros HD Hmu Hk Hwf Hcomm Hsym Hrun.
  destruct (EMcycleprec_Ok L _ _ _ _ _ _ _ _ _ HD Hmu Hk Hwf Hrun)
    as (dimp & T2 & newS & newK & H). cbv zeta in H.
  destruct H as (_ & Hinv & Hit & HS & _ & -> & ->).
  exists newS. split.
  { simpl. apply (lookup_ext _ _ _ 6); [lia|reflexivity]. }
  pose proof Hinv as (Hwfd & Hrd & Hcd & _).
  destruct (imp2_iter_spec L vk vD (n_rows vD) 0 _ _ Hwf eq_refl
              (mk_wf _ _ _) Hit) as (HwfT & HrT & HcT & Hcorr).
  simpl in HrT, HcT.
  apply mzip_Ok in HS as (_ & _ & ->).
  change (n_rows (div_by ?N ?A)) with (n_rows A).
  change (n_cols (div_by ?N ?A)) with (n_cols A).
  rewrite HrT, HcT. clear Hrun.
  apply t_mk_sym. intros r c Hr Hc.
  rewrite !entry_mk by lia. rewrite !entry_div_by by lia. f_equal.
  - f_equal.
    pose proof (Hcorr c r) as H1. pose proof (Hcorr r c) as H2.
    rewrite drop_0 in H1, H2. rewrite !entry_mk in H1, H2 by lia.
    rewrite !dot_t_self in H1, H2 by lia.
    rewrite (corrected_sym L _ _ c r), (gram_sym _ c r Hcomm) in H1 by done.
    congruence.
  - apply dot_outer_sym; [done|reflexivity|simpl; lia..].
Qed.

Lemma EMcycleprec_S_symmetric_witness :
  ∃ newS, (run (EMcycleprec Exact.lib 0 1 2) Examples.h0).1 !! 9 = Some newS
    ∧ t newS = newS.
Proof.
  apply (EMcycleprec_S_symmetric Exact.lib Examples.h0 0 1 2
           Examples.D0 Examples.mu0 Examples.K0
           (run (EMcycleprec Exact.lib 0 1 2) Examples.h0).1 (EmOut 8 9 10)).
  - reflexivity.
  - reflexivity.
  - reflexivity.
  - exact ExactMore.wf_D0.
  - exact ExactMore.mul_comm.
  - intros x K_mm Ki Hx HK. apply submat_Ok in HK as [_ ->].
    apply ExactMore.inv_symmetric.
    repeat (apply elem_of_cons in Hx as [->|Hx]);
      [..|by apply elem_of_nil in Hx]; vm_compute; reflexivity.
  - apply run_result. vm_compute. reflexivity.
Defined.

(** ** Rows in another order *)

(** X15: [imp1matprec] completes each row on its own, whatever the rows
    around it.  Where it returns on [D], it returns on a matrix whose rows
    are those of [D] in another order, and the matrix it returns has the
    completed rows of [D] in that order: a row of the one and an equal
    row of the other are completed to the same row. *)
Theorem imp1matprec_row_order {F : scalar} (L : numerics F)
    (h : heap F) D Dp muest kest vD vp vmu vk h1 d vd :
  h !! D = Some vD → h !! Dp = Some vp →
  h !! muest = Some vmu → h !! kest = Some vk →
  wf vD → wf vp → mem vp ≡ₚ mem vD →
  run (imp1matprec L D muest kest) h = (h1, Ok d) → h1 !! d = Some vd →
  ∃ vd', run (imp1matprec L Dp muest kest) h = (h ++ [vd'], Ok (length h))
    ∧ mem vd' ≡ₚ mem vd
    ∧ ∀ i j x, mem vp !! i = Some x → mem vD !! j = Some x →
        mem vd' !! i = mem vd !! j.
Proof.
  intros HD HDp Hmu Hk Hwf Hwfp Hperm Hrun Hd.
  destruct (imp1matprec_Ok L _ _ _ _ _ _ _ _ _ HD Hmu Hk Hwf Hrun)
    as (vd0 & -> & -> & Hinv).
  rewrite lookup_new in Hd. injection Hd as ->.
  destruct (run (imp1matprec L Dp muest kest) h) as [h2 [d2|e]] eqn:E2.
  2:{ exfalso.
      destruct (imp1matprec_Err L _ _ _ _ _ _ _ _ _ HDp Hmu Hk Hwfp E2)
        as (j & x & Hx & Herr).
      apply list_elem_of_lookup_2 in Hx. rewrite Hperm in Hx.
      apply list_elem_of_lookup_1 in Hx as [i Hx].
      destruct (imp1_inv_row L _ _ _ _ _ _ Hinv Hwf Hx)
        as (x' & _ & xhat & Hcm & _). congruence. }
  destruct (imp1matprec_Ok L _ _ _ _ _ _ _ _ _ HDp Hmu Hk Hwfp E2)
    as (vd' & -> & -> & Hinv').
  exists vd'. split; [done|].
  rewrite (imp1_inv_rows L _ _ _ _ Hwf Hinv).
  rewrite (imp1_inv_rows L _ _ _ _ Hwfp Hinv').
  split; [by apply fmap_Permutation|].
  intros i j x Hi Hj. by rewrite !list_lookup_fmap, Hi, Hj.
Qed.

Lemma imp1matprec_row_order_witness :
  ∃ vd vd',
    (run (imp1matprec Exact.lib 0 3 4) Examples.h9).1 !! 6 = Some vd
    ∧ run (imp1matprec Exact.lib 5 3 4) Examples.h9
      = (Examples.h9 ++ [vd'], Ok 6)
    ∧ mem vd' ≡ₚ mem vd
    ∧ mem vd' !! 0 = mem vd !! 1 ∧ mem vd' !! 1 = mem vd !! 0.
Proof.
  assert (wf Examples.D1) as Hwf by (split; [reflexivity|repeat constructor]).
  assert (wf Examples.D1p) as Hwfp
    by (split; [reflexivity|repeat constructor]).
  assert (run (imp1matprec Exact.lib 0 3 4) Examples.h9
          = ((run (imp1matprec Exact.lib 0 3 4) Examples.h9).1, Ok 6)) as R.
  { apply run_result. vm_compute. reflexivity. }
  destruct (imp1matprec_Ok Exact.lib Examples.h9 0 3 4 Examples.D1
              Examples.mu0 Examples.K0 _ _ eq_refl eq_refl eq_refl Hwf R)
    as (vd & Hh & _ & _).
  assert ((run (imp1matprec Exact.lib 0 3 4) Examples.h9).1 !! 6 = Some vd)
    as Hd by (rewrite Hh; reflexivity).
  destruct (imp1matprec_row_order Exact.lib Examples.h9 0 5 3 4
              Examples.D1 Examples.D1p Examples.mu0 Examples.K0 _ 6 vd
              eq_refl eq_refl eq_refl eq_refl Hwf Hwfp (perm_swap _ _ _)
              R Hd) as (vd' & Hrun & Hp & Hrows).
  exists vd, vd'. split; [exact Hd|]. split; [exact Hrun|].
  split; [exact Hp|]. split.
  - apply (Hrows 0 1 [Exact.NonFinite; Exact.e_of_Z 4]); reflexivity.
  - apply (Hrows 1 0 [Exact.e_of_Z 1; Exact.e_of_Z 2]); reflexivity.
Defined.
